(** * Resume / job-description matcher

    A shallow embedding of [functions/index.js]: the text normaliser, the
    tokenizer, the frequency model, keyword extraction, cosine similarity,
    keyword matching, score composition, feedback generation and the HTTP
    handler that wraps them, followed by the properties of the
    specification.

    - JavaScript strings are sequences of UTF-16 code units.
      [String.prototype.toLowerCase] is a parameter of the functions that
      call it; nothing but what a statement says is assumed of it.
    - The objects used as frequency maps keep the property order of
      JavaScript: array-index keys first, in numeric order, then the other
      keys in insertion order.
    - Numbers are IEEE 754 binary64 values.  Lengths and the counts of the
      frequency maps are kept in [nat]: an array has fewer than 2^32
      elements, so they stay far below 2^53, where binary64 is exact.  Every
      other number, the three accumulators of the cosine similarity
      included, goes through the [Number] interface.  Its instance
      [binary64] is built on the
      primitive floats and is what statements are evaluated on.  Its
      instance [Rounded.number rnd] computes on the reals and rounds each
      result with [rnd]; properties that hold for all inputs are proved for
      every [rnd] that satisfies the standard model of floating-point
      arithmetic, which covers binary64 rounding and, with the identity,
      exact arithmetic.
    - A request is its method and the two fields of its parsed body.  Of
      the [cors] middleware that wraps the handler the model keeps what
      decides whether the handler runs: a preflight request is answered by
      the middleware itself. *)

From Stdlib Require Import String Ascii DecimalString Floats QArith Qabs.
From Stdlib Require Import Bool Arith PeanoNat NArith ZArith Lia List.
From Stdlib Require Import Sorted Permutation.
From Stdlib Require Import Reals Lra Psatz.
Import ListNotations.

Close Scope Q_scope.

Set Implicit Arguments.

(** ** JavaScript strings *)

Module JS.

(** A UTF-16 code unit. *)
Definition char := N.

Definition jsstring := list char.

Definition char_eqb (a b : char) : bool := N.eqb a b.

Fixpoint str_eqb (s t : jsstring) : bool :=
  match s, t with
  | [], [] => true
  | a :: s', b :: t' => char_eqb a b && str_eqb s' t'
  | _, _ => false
  end.

(** Source literals are written as Rocq strings, whose bytes are the UTF-8
    encoding of the text; [utf16] decodes them into code units (one, two and
    three byte sequences, which covers the Basic Multilingual Plane). *)
Fixpoint utf16_of_bytes (l : list N) : jsstring :=
  match l with
  | [] => []
  | b0 :: r =>
      if (b0 <? 128)%N then b0 :: utf16_of_bytes r
      else if (b0 <? 224)%N then
        match r with
        | b1 :: r1 => ((b0 - 192) * 64 + (b1 - 128))%N :: utf16_of_bytes r1
        | [] => []
        end
      else
        match r with
        | b1 :: b2 :: r2 =>
            ((b0 - 224) * 4096 + (b1 - 128) * 64 + (b2 - 128))%N :: utf16_of_bytes r2
        | _ => []
        end
  end.

Definition utf16 (s : string) : jsstring :=
  utf16_of_bytes (map N_of_ascii (list_ascii_of_string s)).

(** [Array.prototype.join]. *)
Fixpoint join (sep : jsstring) (l : list jsstring) : jsstring :=
  match l with
  | [] => []
  | [x] => x
  | x :: rest => x ++ sep ++ join sep rest
  end.

(** [String.prototype.split] with a one-character separator. *)
Fixpoint split_acc (sep : char) (cur : jsstring) (s : jsstring) : list jsstring :=
  match s with
  | [] => [rev cur]
  | c :: s' =>
      if char_eqb c sep then rev cur :: split_acc sep [] s'
      else split_acc sep (c :: cur) s'
  end.

Definition String_split (sep : char) (s : jsstring) : list jsstring :=
  split_acc sep [] s.

(** Decimal rendering of a non-negative integer, as a template literal
    renders [missing.length]. *)
Definition nat_to_string (n : nat) : jsstring :=
  utf16 (NilZero.string_of_uint (Nat.to_uint n)).

(** *** Character classes of the regular expressions *)

Definition is_digit (c : char) : bool := (48 <=? c)%N && (c <=? 57)%N.

Definition is_lower (c : char) : bool := (97 <=? c)%N && (c <=? 122)%N.

(** [\s] of a regular expression without the [u] flag: WhiteSpace and
    LineTerminator code units. *)
Definition is_space (c : char) : bool :=
  ((9 <=? c)%N && (c <=? 13)%N)
  || (c =? 32)%N || (c =? 160)%N || (c =? 5760)%N
  || ((8192 <=? c)%N && (c <=? 8202)%N)
  || (c =? 8232)%N || (c =? 8233)%N || (c =? 8239)%N || (c =? 8287)%N
  || (c =? 12288)%N || (c =? 65279)%N.

(** *** Insertion-ordered sets ([Set]) *)

Definition has (s : list jsstring) (k : jsstring) : bool := existsb (str_eqb k) s.

Definition Set_add (s : list jsstring) (k : jsstring) : list jsstring :=
  if has s k then s else s ++ [k].

Definition Set_of (l : list jsstring) : list jsstring := fold_left Set_add l [].

(** *** Values of a parsed request body *)

Inductive exn : Type :=
| TypeError (message : jsstring).

Inductive result (A : Type) : Type :=
| Ok (a : A)
| Throw (e : exn).

Arguments Ok {A} a.
Arguments Throw {A} e.

Definition bind {A B : Type} (r : result A) (k : A -> result B) : result B :=
  match r with
  | Ok a => k a
  | Throw e => Throw e
  end.

End JS.

Export JS.

Notation "x <- c1 ;; c2" := (bind c1 (fun x => c2))
  (at level 61, c1 at next level, right associativity).

(** ** Objects used as maps

    [Object.create(null)] holding counts.  Own properties are kept in
    insertion order; [Object.keys] and [Object.entries] list the keys that
    are array indices first, in ascending numeric order, and the remaining
    keys in insertion order. *)

Module Obj.

Definition obj := list (jsstring * nat).

Fixpoint get (o : obj) (k : jsstring) : option nat :=
  match o with
  | [] => None
  | (k', v) :: o' => if str_eqb k' k then Some v else get o' k
  end.

Fixpoint set (o : obj) (k : jsstring) (v : nat) : obj :=
  match o with
  | [] => [(k, v)]
  | (k', v') :: o' =>
      if str_eqb k' k then (k', v) :: o' else (k', v') :: set o' k v
  end.

(** [o[k] || 0] *)
Definition get_or_0 (o : obj) (k : jsstring) : nat :=
  match get o k with
  | Some v => if v =? 0 then 0 else v
  | None => 0
  end.

Definition digits_value (k : jsstring) : N :=
  fold_left (fun acc c => (acc * 10 + (c - 48))%N) k 0%N.

(** A canonical numeric string denoting an integer in [0, 2^32 - 2]. *)
Definition array_index (k : jsstring) : option N :=
  match k with
  | [] => None
  | c :: rest =>
      if forallb is_digit k
         && (negb (c =? 48)%N || match rest with [] => true | _ => false end)
         && (digits_value k <=? 4294967294)%N
      then Some (digits_value k)
      else None
  end.

Definition is_named (k : jsstring) : bool :=
  match array_index k with
  | Some _ => false
  | None => true
  end.

Fixpoint insert_index (e : N * (jsstring * nat)) (l : list (N * (jsstring * nat)))
  : list (N * (jsstring * nat)) :=
  match l with
  | [] => [e]
  | h :: t => if (fst e <? fst h)%N then e :: l else h :: insert_index e t
  end.

Definition indexed (o : obj) : list (N * (jsstring * nat)) :=
  fold_right
    (fun e acc =>
       match array_index (fst e) with
       | Some i => insert_index (i, e) acc
       | None => acc
       end)
    [] o.

Definition entries (o : obj) : list (jsstring * nat) :=
  map snd (indexed o) ++ filter (fun e => is_named (fst e)) o.

Definition keys (o : obj) : list jsstring := map fst (entries o).

End Obj.

(** ** Numbers *)

(** The operations the program applies to non-integer numbers. *)
Class Number (F : Type) : Type := {
  of_nat : nat -> F;
  of_Q : Q -> F;            (* a decimal literal *)
  add : F -> F -> F;
  mul : F -> F -> F;
  div : F -> F -> F;
  sqrt : F -> F;            (* Math.sqrt *)
  round : F -> F;           (* Math.round *)
  geb : F -> F -> bool;     (* >= *)
  ltb : F -> F -> bool;     (* < *)
  eqb : F -> F -> bool      (* === *)
}.

Module Binary64.

(** Conversion of an integer, exact below 2^53. *)
Definition of_Z (z : Z) : float :=
  match z with
  | Z0 => PrimFloat.zero
  | Zpos _ => PrimFloat.of_uint63 (Uint63.of_Z z)
  | Zneg p => PrimFloat.opp (PrimFloat.of_uint63 (Uint63.of_Z (Zpos p)))
  end.

(** [Math.round]: the integer nearest to [x], ties towards +infinity, that
    is floor(x + 1/2) computed exactly.  A finite [x] is [v * 2^e] for an
    integer [v]; at [e >= 0] it is an integer already. *)
Definition Math_round (x : float) : float :=
  match Prim2SF x with
  | S754_finite s m e =>
      if (0 <=? e)%Z then x
      else
        let v := if s then Zneg m else Zpos m in
        let n := ((2 * v + 2 ^ (- e)) / 2 ^ (1 - e))%Z in
        if (n =? 0)%Z then (if s then PrimFloat.neg_zero else PrimFloat.zero)
        else of_Z n
  | _ => x
  end.

#[export] Instance binary64 : Number float := {
  of_nat n := of_Z (Z.of_nat n);
  of_Q q := PrimFloat.div (of_Z (Qnum q)) (of_Z (Zpos (Qden q)));
  add := PrimFloat.add;
  mul := PrimFloat.mul;
  div := PrimFloat.div;
  sqrt := PrimFloat.sqrt;
  round := Math_round;
  geb x y := PrimFloat.leb y x;
  ltb := PrimFloat.ltb;
  eqb := PrimFloat.eqb
}.

(** The exact value of a finite binary64 number (0 for the others). *)
Definition to_Q (x : float) : Q :=
  match Prim2SF x with
  | S754_finite s m e =>
      (inject_Z (if s then Zneg m else Zpos m) * Qpower (2 # 1) e)%Q
  | _ => 0%Q
  end.

End Binary64.

Export Binary64.

(** ** Real arithmetic under a rounding operator

    Each operation returns the rounding of its exact result.  With the
    identity for [rnd] this is exact real arithmetic; binary64 with
    round-to-nearest satisfies [StandardModel] as long as no operation
    overflows.  The program divides by zero nowhere (lemma
    [cosine_denominator_positive] below), so [x / 0] is left as the reals
    have it. *)

Module Rounded.

Local Open Scope R_scope.

(** The unit roundoff of binary64. *)
Definition u : R := / 2 ^ 53.

(** A bound on the unit roundoff that is convenient in decimal. *)
Definition eps : R := / 10 ^ 15.

Record StandardModel (rnd : R -> R) : Prop := {
  rnd_monotone : forall x y, x <= y -> rnd x <= rnd y;
  rnd_integer : forall n : Z, (Z.abs n <= 2 ^ 53)%Z -> rnd (IZR n) = IZR n;
  rnd_error : forall x, / 4 <= x -> Rabs (rnd x - x) <= u * x
}.

(** Below 1/4 two neighbouring binary64 numbers are at most 2^-55 apart,
    so rounding to nearest moves such a number by no more than that. *)
Definition SmallError (rnd : R -> R) : Prop :=
  forall x, 0 <= x <= / 4 -> Rabs (rnd x - x) <= u * / 4.

(** [Math.round]: floor (x + 1/2). *)
Definition Math_round (x : R) : R := IZR (Int_part (x + / 2)).

Definition number (rnd : R -> R) : Number R := {|
  of_nat := INR;
  of_Q q := rnd (IZR (Qnum q) / IZR (Zpos (Qden q)));
  add x y := rnd (x + y);
  mul x y := rnd (x * y);
  div x y := rnd (x / y);
  sqrt x := rnd (R_sqrt.sqrt x);
  round := Math_round;
  geb x y := if Rle_dec y x then true else false;
  ltb x y := if Rlt_dec x y then true else false;
  eqb x y := if Req_dec_T x y then true else false
|}.

(** Exact real arithmetic. *)
Definition exact : Number R := number (fun x => x).

End Rounded.

(** ** Request values *)

Inductive jsval : Type :=
| VUndefined
| VNull
| VBool (b : bool)
| VNumber (x : float)
| VString (s : jsstring)
| VObject.                  (* an object or array of the parsed body *)

(** ToBoolean *)
Definition truthy (v : jsval) : bool :=
  match v with
  | VUndefined | VNull => false
  | VBool b => b
  | VNumber x => negb (PrimFloat.is_zero x || PrimFloat.is_nan x)
  | VString s => match s with [] => false | _ => true end
  | VObject => true
  end.

(** ** The stopword set

    The source writes [new Set("a,about,..." + ... + "your,...".split(","))].
    A member access binds tighter than [+], so [.split(",")] applies to the
    last literal only, the resulting array is converted back to a string by
    the concatenation, and [new Set] iterates over the characters of one long
    string. *)

Definition STOPWORDS_literals : list string :=
  [ "a,about,above,after,again,against,all,am,an,and,any,are,as,at,be,";
    "because,been,before,being,below,between,both,but,by,could,did,do,does,";
    "doing,down,during,each,few,for,from,further,had,has,have,having,he,her,";
    "here,hers,him,his,how,i,if,in,into,is,it,its,itself,just,me,more,most,";
    "my,myself,no,nor,not,of,off,on,once,only,or,other,ought,our,ours,ourselves,";
    "out,over,own,same,she,should,so,some,such,than,that,the,their,theirs,them,";
    "themselves,then,there,these,they,this,those,through,to,too,under,until,up,";
    "very,was,we,were,what,when,where,which,while,who,whom,why,with,would,you," ]%string.

Definition STOPWORDS_last_literal : string := "your,yours,yourself,yourselves".

Definition comma : char := 44%N.

(** [Array.prototype.toString], as [+] applies it to its array operand. *)
Definition Array_toString (a : list jsstring) : jsstring := join [comma] a.

(** The argument of [new Set(...)]. *)
Definition STOPWORDS_argument : jsstring :=
  concat (map utf16 STOPWORDS_literals)
  ++ Array_toString (String_split comma (utf16 STOPWORDS_last_literal)).

(** [new Set(str)] adds each character of the string. *)
Definition STOPWORDS : list jsstring :=
  Eval vm_compute in Set_of (map (fun c => [c]) STOPWORDS_argument).

(** The enumerated word list the literals spell out, which the
    specification calls the fixed stopword set. *)
Definition stopword_list : list jsstring :=
  Eval vm_compute in
    String_split comma (concat (map utf16 STOPWORDS_literals) ++ utf16 STOPWORDS_last_literal).

(** ** Results *)

Record MatchResult (F : Type) : Type := {
  matched : list jsstring;
  missing : list jsstring;
  jdCount : nat;
  resumeCount : nat;
  overlapPct : F
}.

Record response (F : Type) : Type := {
  match_score : F;
  semantic_similarity : F;
  overlap_pct : F;
  skills_matched : list jsstring;
  missing_skills : list jsstring;
  jd_skill_count : nat;
  resume_skill_count : nat;
  feedback : list jsstring
}.

Record fields : Type := {
  jd_text : jsval;
  resume_text : jsval
}.

Record request : Type := {
  method : jsstring;
  body : option fields      (* [None]: [req.body] is absent or falsy *)
}.

Inductive payload (F : Type) : Type :=
| ErrorBody (error : jsstring) (details : option jsstring)
| ResultBody (r : response F)
| NoBody.                   (* [res.end()] without a body *)

Arguments ErrorBody {F} error details.
Arguments ResultBody {F} r.
Arguments NoBody {F}.

Record reply (F : Type) : Type := {
  status : nat;
  json : payload F
}.

(** ** The functions of [index.js] *)

Section Matcher.

(** [String.prototype.toLowerCase], whose Unicode case tables are not part
    of the program. *)
Variable toLowerCase : jsstring -> jsstring.

Context {F : Type} {num : Number F}.

(** [s.replace(/[class]/g, r)] *)
Definition replace_all (in_class : char -> bool) (r : jsstring) (s : jsstring) : jsstring :=
  flat_map (fun c => if in_class c then r else [c]) s.

Definition is_curly_quote (c : char) : bool :=
  (c =? 8216)%N || (c =? 8217)%N || (c =? 8220)%N || (c =? 8221)%N.

(** [[a-z0-9\s+#\-_]] *)
Definition is_kept (c : char) : bool :=
  is_lower c || is_digit c || is_space c
  || (c =? 43)%N || (c =? 35)%N || (c =? 45)%N || (c =? 95)%N.

Definition normalizeText (text : jsval) : result jsstring :=
  if negb (truthy text) then Ok []
  else
    match text with
    | VString s =>
        Ok (replace_all (fun c => negb (is_kept c)) (utf16 " ")
              (replace_all is_curly_quote (utf16 "'")
                 (toLowerCase s)))
    | _ => Throw (TypeError (utf16 "text.toLowerCase is not a function"))
    end.

(** [s.split(/\s+/)]: the pieces between maximal runs of whitespace. *)
Fixpoint split_ws_acc (in_run : bool) (cur : jsstring) (s : jsstring) : list jsstring :=
  match s with
  | [] => [rev cur]
  | c :: s' =>
      if is_space c then
        if in_run then split_ws_acc true [] s'
        else rev cur :: split_ws_acc true [] s'
      else split_ws_acc false (c :: cur) s'
  end.

Definition split_ws (s : jsstring) : list jsstring := split_ws_acc false [] s.

(** [.filter(Boolean)] on strings *)
Definition nonempty (t : jsstring) : bool :=
  match t with
  | [] => false
  | _ => true
  end.

(** [/^\d+$/.test(t)] *)
Definition all_digits (t : jsstring) : bool := nonempty t && forallb is_digit t.

Definition keep_token (minLen : nat) (t : jsstring) : bool :=
  if length t <? minLen then false
  else if has STOPWORDS t then false
  else if all_digits t then false
  else true.

(** [opts] is the [minLen] of the options argument; [None] when omitted. *)
Definition tokenize (text : jsval) (opts : option nat) : result (list jsstring) :=
  let minLen := match opts with Some m => m | None => 2 end in
  normalized <- normalizeText text ;;
  let parts := filter nonempty (split_ws normalized) in
  Ok (filter (keep_token minLen) parts).

Definition buildFrequency (tokens : list jsstring) : Obj.obj :=
  fold_left (fun freq t => Obj.set freq t (Obj.get_or_0 freq t + 1)) tokens [].

(** The loop of [cosineSimilarity]: [dot], [normA] and [normB] are numbers
    of the program's arithmetic, and so are the products added to them. *)
Definition cosine_sums (freqA freqB : Obj.obj) : F * F * F :=
  let keys := Set_of (Obj.keys freqA ++ Obj.keys freqB) in
  fold_left
    (fun '(dot, normA, normB) k =>
       let a := of_nat (Obj.get_or_0 freqA k) in
       let b := of_nat (Obj.get_or_0 freqB k) in
       (add dot (mul a b), add normA (mul a a), add normB (mul b b)))
    keys (of_nat 0, of_nat 0, of_nat 0).

Definition cosineSimilarity (freqA freqB : Obj.obj) : F :=
  let '(dot, normA, normB) := cosine_sums freqA freqB in
  if eqb normA (of_nat 0) || eqb normB (of_nat 0) then of_nat 0
  else div dot (mul (sqrt normA) (sqrt normB)).

(** [.sort((a, b) => b[1] - a[1])]: a stable sort, here by insertion. *)
Fixpoint insert_desc (e : jsstring * nat) (l : list (jsstring * nat))
  : list (jsstring * nat) :=
  match l with
  | [] => [e]
  | h :: t => if snd h <=? snd e then e :: l else h :: insert_desc e t
  end.

Definition sort_desc (l : list (jsstring * nat)) : list (jsstring * nat) :=
  fold_right insert_desc [] l.

Definition extractTopKeywords (tokens : list jsstring) (topK : nat) : list jsstring :=
  let freq := buildFrequency tokens in
  map fst (firstn topK (sort_desc (Obj.entries freq))).

Definition matchKeywords (jdKeywords resumeKeywords : list jsstring) : MatchResult F :=
  let jdSet := Set_of jdKeywords in
  let resumeSet := Set_of resumeKeywords in
  let '(matched, missing) :=
    fold_left
      (fun '(matched, missing) k =>
         if has resumeSet k then (matched ++ [k], missing)
         else (matched, missing ++ [k]))
      jdSet ([], []) in
  let jdCount := length jdSet in
  let resumeCount := length resumeSet in
  let overlapPct :=
    if jdCount =? 0 then of_nat 0
    else mul (div (of_nat (length matched)) (of_nat jdCount)) (of_nat 100) in
  {| matched := matched; missing := missing; jdCount := jdCount;
     resumeCount := resumeCount; overlapPct := overlapPct |}.

Definition generateFeedback (score overlapPct : F) (missing : list jsstring)
  : list jsstring :=
  let feedback : list jsstring := [] in
  let feedback :=
    if geb score (of_nat 85) then
      feedback ++ [utf16 "Excellent fit — the resume is highly aligned with the job description."]
    else if geb score (of_nat 65) then
      feedback ++ [utf16 "Good fit — candidate is a strong match with a few improvement areas."]
    else if geb score (of_nat 40) then
      feedback ++ [utf16 "Partial fit — some relevant skills present but there are notable gaps."]
    else
      feedback ++ [utf16 "Low fit — there are significant gaps in alignment with this role."] in
  let feedback :=
    if (0 <? length missing) && (length missing <=? 8) then
      feedback ++ [utf16 "Missing important keywords/skills: "
                     ++ join (utf16 ", ") missing ++ utf16 "."]
    else if 8 <? length missing then
      let top := firstn 8 missing in
      feedback ++ [utf16 "Missing " ++ nat_to_string (length missing)
                     ++ utf16 " JD keywords. Key missing skills: "
                     ++ join (utf16 ", ") top ++ utf16 "."]
    else
      feedback ++ [utf16 "No major JD keywords appear to be missing in the resume."] in
  let feedback :=
    if ltb score (of_nat 85) then
      feedback ++ [utf16 "Consider tailoring the resume by explicitly mentioning relevant tools, technologies, and responsibilities from the JD."]
    else
      feedback ++ [utf16 "Candidate looks ready for this role. Focus the interview on depth and real projects."] in
  feedback.

Definition semanticWeight : F := of_Q 0.6%Q.
Definition keywordWeight : F := of_Q 0.4%Q.

(** Step 5 of the handler: the weighted score and its rounding. *)
Definition finalScore (semanticSimilarity overlapPct : F) : F :=
  let semanticScorePct := mul semanticSimilarity (of_nat 100) in
  add (mul semanticScorePct semanticWeight) (mul overlapPct keywordWeight).

Definition matchScore (semanticSimilarity overlapPct : F) : F :=
  div (round (mul (finalScore semanticSimilarity overlapPct) (of_nat 100))) (of_nat 100).

(** The body of the [try] block. *)
Definition pipeline (jd_text resume_text : jsval) : result (response F) :=
  jdTokens <- tokenize jd_text (Some 2) ;;
  resumeTokens <- tokenize resume_text (Some 2) ;;
  let jdKeywords := extractTopKeywords jdTokens 200 in
  let resumeKeywords := extractTopKeywords resumeTokens 400 in
  let m := matchKeywords jdKeywords resumeKeywords in
  let jdFreq := buildFrequency jdTokens in
  let resumeFreq := buildFrequency resumeTokens in
  let semanticSimilarity := cosineSimilarity jdFreq resumeFreq in
  let score := matchScore semanticSimilarity (overlapPct m) in
  let feedback := generateFeedback score (overlapPct m) (missing m) in
  Ok {| match_score := score;
        semantic_similarity := semanticSimilarity;
        overlap_pct := overlapPct m;
        skills_matched := matched m;
        missing_skills := missing m;
        jd_skill_count := jdCount m;
        resume_skill_count := resumeCount m;
        feedback := feedback |}.

(** The request handler, over the computation it guards. *)
Definition onRequest (core : jsval -> jsval -> result (response F)) (req : request)
  : reply F :=
  if negb (str_eqb (method req) (utf16 "POST")) then
    {| status := 405; json := ErrorBody (utf16 "Only POST is allowed") None |}
  else
    let b :=
      match body req with
      | Some b => b
      | None => {| jd_text := VUndefined; resume_text := VUndefined |}
      end in
    if negb (truthy (jd_text b)) || negb (truthy (resume_text b)) then
      {| status := 400;
         json := ErrorBody
                   (utf16 "Both 'jd_text' and 'resume_text' are required in the request body.")
                   None |}
    else
      match core (jd_text b) (resume_text b) with
      | Ok r => {| status := 200; json := ResultBody r |}
      | Throw (TypeError message) =>
          {| status := 500;
             json := ErrorBody (utf16 "Internal error computing match.") (Some message) |}
      end.

(** [cors(req, res, next)] with the options [{origin: true}].  The package
    is not part of the program.  What the model keeps of it is whether
    [next] runs: a preflight request, one whose method upper-cased is
    OPTIONS, is answered by the middleware with status 204 and no body,
    and [next] is not called; every other request is passed to [next].
    The headers it sets are not modelled.  A method is an HTTP token, so
    ASCII, and upper-casing maps its letters a-z to A-Z. *)
Definition toUpperCase_method (s : jsstring) : jsstring :=
  map (fun c => if (97 <=? c)%N && (c <=? 122)%N then (c - 32)%N else c) s.

Definition is_preflight (req : request) : bool :=
  str_eqb (toUpperCase_method (method req)) (utf16 "OPTIONS").

Definition cors (A : Type) (req : request) (preflight next : A) : A :=
  if is_preflight req then preflight else next.

Definition no_content : reply F := {| status := 204; json := NoBody |}.

(** The exported function: the request handler behind [cors]. *)
Definition matchJDandResume (req : request) : reply F :=
  cors req no_content (onRequest pipeline req).

End Matcher.

(** ** The handler and its error log *)

Section Logged.

Variable toLowerCase : jsstring -> jsstring.

Context {F : Type} {num : Number F}.

(** The handler together with the error log: the [catch] block calls
    [console.error("Error in matchJDandResume:", err)] before it answers;
    nothing else is written. *)
Definition onRequest_logged (core : jsval -> jsval -> result (response F)) (req : request)
  : list (jsstring * exn) * reply F :=
  if negb (str_eqb (method req) (utf16 "POST")) then
    ([], {| status := 405; json := ErrorBody (utf16 "Only POST is allowed") None |})
  else
    let b :=
      match body req with
      | Some b => b
      | None => {| jd_text := VUndefined; resume_text := VUndefined |}
      end in
    if negb (truthy (jd_text b)) || negb (truthy (resume_text b)) then
      ([],
       {| status := 400;
          json := ErrorBody
                    (utf16 "Both 'jd_text' and 'resume_text' are required in the request body.")
                    None |})
    else
      match core (jd_text b) (resume_text b) with
      | Ok r => ([], {| status := 200; json := ResultBody r |})
      | Throw err =>
          let 'TypeError message := err in
          ([(utf16 "Error in matchJDandResume:", err)],
           {| status := 500;
              json := ErrorBody (utf16 "Internal error computing match.") (Some message) |})
      end.

Definition matchJDandResume_logged (req : request) : list (jsstring * exn) * reply F :=
  cors req ([], no_content) (onRequest_logged (pipeline toLowerCase) req).

End Logged.

(** ** Auxiliary definitions used by the statements *)

(** Lower-casing of the ASCII letters, every other code unit unchanged: the
    built-in [toLowerCase] on ASCII text.  It instantiates [toLowerCase]
    wherever a statement is evaluated on a concrete ASCII input. *)
Definition toLowerCase_ascii (s : jsstring) : jsstring :=
  map (fun c => if (65 <=? c)%N && (c <=? 90)%N then (c + 32)%N else c) s.

Definition apostrophe : char := 39%N.

(** The alphabet the normaliser is meant to produce. *)
Definition output_char (c : char) : Prop :=
  is_lower c = true \/ is_digit c = true \/ is_space c = true
  \/ c = 43%N \/ c = 35%N \/ c = 45%N \/ c = 95%N.

(** Number of occurrences of [k] in a token sequence. *)
Definition occ (k : jsstring) (l : list jsstring) : nat :=
  length (filter (str_eqb k) l).

(** Position of the first occurrence of [k] (the length when absent). *)
Fixpoint first_index (k : jsstring) (l : list jsstring) : nat :=
  match l with
  | [] => 0
  | x :: r => if str_eqb x k then 0 else S (first_index k r)
  end.

(** The feedback templates, in the wording the specification fixes. *)
Module Messages.

Definition excellent_fit : jsstring :=
  utf16 "Excellent fit — the resume is highly aligned with the job description.".
Definition good_fit : jsstring :=
  utf16 "Good fit — candidate is a strong match with a few improvement areas.".
Definition partial_fit : jsstring :=
  utf16 "Partial fit — some relevant skills present but there are notable gaps.".
Definition low_fit : jsstring :=
  utf16 "Low fit — there are significant gaps in alignment with this role.".
Definition missing_all (l : list jsstring) : jsstring :=
  utf16 "Missing important keywords/skills: " ++ join (utf16 ", ") l ++ utf16 ".".
Definition missing_top (n : nat) (top : list jsstring) : jsstring :=
  utf16 "Missing " ++ nat_to_string n ++ utf16 " JD keywords. Key missing skills: "
  ++ join (utf16 ", ") top ++ utf16 ".".
Definition no_gaps : jsstring :=
  utf16 "No major JD keywords appear to be missing in the resume.".
Definition tailoring : jsstring :=
  utf16 "Consider tailoring the resume by explicitly mentioning relevant tools, technologies, and responsibilities from the JD.".
Definition interview_ready : jsstring :=
  utf16 "Candidate looks ready for this role. Focus the interview on depth and real projects.".

End Messages.

(** The two fixed client errors of the handler. *)
Definition bad_request (F : Type) : reply F :=
  {| status := 400;
     json := ErrorBody
               (utf16 "Both 'jd_text' and 'resume_text' are required in the request body.")
               None |}.

Definition method_not_allowed (F : Type) : reply F :=
  {| status := 405; json := ErrorBody (utf16 "Only POST is allowed") None |}.

(** A request whose [jd_text] or [resume_text] is absent or falsy. *)
Definition lacks_text (req : request) : Prop :=
  match body req with
  | None => True
  | Some b => truthy (jd_text b) = false \/ truthy (resume_text b) = false
  end.

(** No token is an array index of the frequency object. *)
Definition no_array_index (tokens : list jsstring) : Prop :=
  Forall (fun t => Obj.array_index t = None) tokens.

(** Output order of [extractTopKeywords]: frequency never increases, and
    tokens of equal frequency come in first-occurrence order. *)
Definition ranked (tokens : list jsstring) (a b : jsstring) : Prop :=
  occ b tokens <= occ a tokens
  /\ (occ a tokens = occ b tokens -> first_index a tokens < first_index b tokens).

(** The relation a stable descending sort establishes between an entry and
    a later one, [R] being their order in the input. *)
Definition desc_stable (R : jsstring * nat -> jsstring * nat -> Prop)
  (a b : jsstring * nat) : Prop :=
  snd b <= snd a /\ (snd a = snd b -> R a b).

(** The vectors and the vocabulary of the cosine similarity. *)
Definition a_of (freqA : Obj.obj) (k : jsstring) : nat := Obj.get_or_0 freqA k.
Definition b_of (freqB : Obj.obj) (k : jsstring) : nat := Obj.get_or_0 freqB k.

Definition cosine_keys (freqA freqB : Obj.obj) : list jsstring :=
  Set_of (Obj.keys freqA ++ Obj.keys freqB).

(** The three sums of the cosine similarity as exact integers. *)
Definition exact_sums (freqA freqB : Obj.obj) : nat * nat * nat :=
  let keys := cosine_keys freqA freqB in
  (list_sum (map (fun k => a_of freqA k * b_of freqB k) keys),
   list_sum (map (fun k => a_of freqA k * a_of freqA k) keys),
   list_sum (map (fun k => b_of freqB k * b_of freqB k) keys)).

(** A sum accumulated from 0 in the program's arithmetic, in list order. *)
Definition sum_in (F : Type) (num : Number F) (terms : list F) : F :=
  fold_left add terms (of_nat 0).

(** The same for integer terms in the arithmetic [Rounded.number rnd]: each
    term is converted, then added to the accumulator. *)
Definition rounded_sum (rnd : R -> R) (l : list nat) : R :=
  sum_in (Rounded.number rnd) (map (fun n => rnd (INR n)) l).

(** The value [Math.round] receives in [matchScore]. *)
Definition scaled (rnd : R -> R) (semanticSimilarity overlapPct : R) : R :=
  mul (Number := Rounded.number rnd)
    (finalScore (num := Rounded.number rnd) semanticSimilarity overlapPct)
    (of_nat (Number := Rounded.number rnd) 100).

(** A POST request carrying two strings. *)
Definition post (jd resume : string) : request :=
  {| method := utf16 "POST";
     body := Some {| jd_text := VString (utf16 jd);
                     resume_text := VString (utf16 resume) |} |}.

(** A POST request carrying two texts. *)
Definition post_texts (jd resume : jsstring) : request :=
  {| method := utf16 "POST";
     body := Some {| jd_text := VString jd; resume_text := VString resume |} |}.

(** Documents of numbered words: [words "k" 0 3] is ["k0 k1 k2"]. *)
Definition words (prefix : string) (from n : nat) : jsstring :=
  join (utf16 " ") (map (fun i => utf16 prefix ++ nat_to_string i) (seq from n)).

(** Rounding to the nearest multiple of 2^-60 (ties upwards): a rounding
    operator other than the identity that meets the standard model. *)
Definition fixed_point (x : R) : R := IZR (Int_part (x * 2 ^ 60 + / 2)) / 2 ^ 60.

(** * Properties *)

(** ** Strings *)

Lemma char_eqb_eq (a b : char) : char_eqb a b = true <-> a = b.
Proof. apply N.eqb_eq. Qed.

Lemma str_eqb_eq (s t : jsstring) : str_eqb s t = true <-> s = t.
Proof.
  revert t; induction s as [|a s IH]; intros [|b t]; simpl; split;
    try congruence; try reflexivity.
  - intros H. apply andb_true_iff in H as [Hab Hst].
    apply char_eqb_eq in Hab. apply IH in Hst. congruence.
  - intros H. injection H as -> ->.
    apply andb_true_iff. split; [apply char_eqb_eq | apply IH]; reflexivity.
Qed.

Lemma str_eqb_refl (s : jsstring) : str_eqb s s = true.
Proof. apply str_eqb_eq. reflexivity. Qed.

Lemma str_eqb_neq (s t : jsstring) : str_eqb s t = false <-> s <> t.
Proof.
  split.
  - intros H E. apply str_eqb_eq in E. congruence.
  - intros H. destruct (str_eqb s t) eqn:E; [|reflexivity].
    apply str_eqb_eq in E. contradiction.
Qed.

Lemma str_eqb_sym (s t : jsstring) : str_eqb s t = str_eqb t s.
Proof.
  destruct (str_eqb s t) eqn:E.
  - apply str_eqb_eq in E. subst. symmetry. apply str_eqb_refl.
  - apply str_eqb_neq in E. symmetry. apply str_eqb_neq. congruence.
Qed.

Lemma has_In (s : list jsstring) (k : jsstring) : has s k = true <-> In k s.
Proof.
  unfold has. rewrite existsb_exists. split.
  - intros (x & Hx & E). apply str_eqb_eq in E. subst. exact Hx.
  - intros H. exists k. split; [exact H | apply str_eqb_refl].
Qed.

Lemma has_not_In (s : list jsstring) (k : jsstring) : has s k = false <-> ~ In k s.
Proof.
  rewrite <- has_In. destruct (has s k); split; congruence.
Qed.

(** ** The normaliser *)

Section Normaliser.

Variable toLowerCase : jsstring -> jsstring.

Lemma is_kept_output_char (c : char) : is_kept c = true <-> output_char c.
Proof.
  unfold is_kept, output_char.
  rewrite !orb_true_iff, !N.eqb_eq. tauto.
Qed.

Lemma replace_all_id (p : char -> bool) (r s : jsstring) :
  Forall (fun c => p c = false) s -> replace_all p r s = s.
Proof.
  induction 1 as [|c s Hc _ IH]; simpl; [reflexivity|].
  rewrite Hc. simpl. f_equal. exact IH.
Qed.

Lemma replace_unkept_kept (s : jsstring) :
  Forall (fun c => is_kept c = true)
    (replace_all (fun c => negb (is_kept c)) (utf16 " ") s).
Proof.
  induction s as [|c s IH]; simpl; [constructor|].
  destruct (is_kept c) eqn:E; simpl.
  - constructor; assumption.
  - constructor; [reflexivity | assumption].
Qed.

Lemma kept_not_curly (c : char) : is_kept c = true -> is_curly_quote c = false.
Proof.
  unfold is_kept, is_curly_quote, is_lower, is_digit, is_space.
  rewrite !orb_true_iff, !andb_true_iff, !N.eqb_eq, !N.leb_le.
  intros H.
  rewrite !orb_false_iff, !N.eqb_neq. lia.
Qed.

Lemma normalizeText_string (s : jsstring) :
  exists y, normalizeText toLowerCase (VString s) = Ok y
            /\ Forall (fun c => is_kept c = true) y.
Proof.
  destruct s as [|c s].
  - exists []. split; [reflexivity | constructor].
  - eexists. split; [reflexivity | apply replace_unkept_kept].
Qed.

Lemma normalizeText_kept (y : jsstring) :
  (forall s, Forall (fun c => is_kept c = true) s -> toLowerCase s = s) ->
  Forall (fun c => is_kept c = true) y ->
  normalizeText toLowerCase (VString y) = Ok y.
Proof.
  intros Hlow Hy. destruct y as [|c y]; [reflexivity|].
  unfold normalizeText. cbn [truthy negb].
  rewrite (Hlow _ Hy). f_equal.
  rewrite (replace_all_id is_curly_quote).
  - apply replace_all_id.
    eapply Forall_impl; [|exact Hy]. intros a Ha. cbn. rewrite Ha. reflexivity.
  - eapply Forall_impl; [|exact Hy]. intros a. apply kept_not_curly.
Qed.

Lemma split_ws_acc_chars (s : jsstring) :
  forall in_run cur t c,
    In t (split_ws_acc in_run cur s) -> In c t -> In c cur \/ In c s.
Proof.
  induction s as [|a s IH]; intros in_run cur t c Ht Hc; simpl in Ht.
  - destruct Ht as [<-|[]]. left. apply in_rev. exact Hc.
  - destruct (is_space a).
    + destruct in_run.
      * destruct (IH _ _ _ _ Ht Hc) as [[]|H]. right. right. exact H.
      * destruct Ht as [<-|Ht].
        -- left. apply in_rev. exact Hc.
        -- destruct (IH _ _ _ _ Ht Hc) as [[]|H]. right. right. exact H.
    + destruct (IH _ _ _ _ Ht Hc) as [[<-|H]|H].
      * right. left. reflexivity.
      * left. exact H.
      * right. right. exact H.
Qed.

Lemma tokenize_string (s : jsstring) (opts : option nat) :
  exists y,
    normalizeText toLowerCase (VString s) = Ok y
    /\ Forall (fun c => is_kept c = true) y
    /\ tokenize toLowerCase (VString s) opts
       = Ok (filter (keep_token (match opts with Some m => m | None => 2 end))
               (filter nonempty (split_ws y))).
Proof.
  destruct (normalizeText_string s) as (y & Hy & Hk).
  exists y. split; [exact Hy|]. split; [exact Hk|].
  unfold tokenize. rewrite Hy. reflexivity.
Qed.

Lemma token_chars (y : jsstring) (m : nat) (t : jsstring) (c : char) :
  In t (filter (keep_token m) (filter nonempty (split_ws y))) ->
  In c t -> In c y.
Proof.
  intros Ht Hc.
  apply filter_In in Ht as [Ht _]. apply filter_In in Ht as [Ht _].
  destruct (split_ws_acc_chars _ _ _ _ _ Ht Hc) as [[]|H]. exact H.
Qed.

(** C10.  Whatever [toLowerCase] does, every character of the normalised
    text of a string is a lowercase letter, a digit, a whitespace character
    or one of [+ # - _]; the apostrophe put in for curly quotes is itself
    replaced, so neither the normalised text nor any token contains one. *)
Theorem normalizeText_alphabet (s : jsstring) :
  exists y,
    normalizeText toLowerCase (VString s) = Ok y
    /\ Forall output_char y
    /\ ~ In apostrophe y
    /\ forall opts, exists tokens,
         tokenize toLowerCase (VString s) opts = Ok tokens
         /\ Forall (fun t => Forall output_char t /\ ~ In apostrophe t) tokens.
Proof.
  destruct (normalizeText_string s) as (y & Hy & Hk).
  assert (Hno : ~ In apostrophe y).
  { intros Hin. rewrite Forall_forall in Hk. specialize (Hk _ Hin). discriminate Hk. }
  exists y. split; [exact Hy|]. split; [|split; [exact Hno|]].
  - eapply Forall_impl; [|exact Hk]. intros c. apply is_kept_output_char.
  - intros opts.
    destruct (tokenize_string s opts) as (y' & Hy' & _ & Htok).
    rewrite Hy in Hy'. injection Hy' as <-.
    eexists. split; [exact Htok|].
    apply Forall_forall. intros t Ht. split.
    + apply Forall_forall. intros c Hc. apply is_kept_output_char.
      rewrite Forall_forall in Hk. apply Hk. eapply token_chars; eassumption.
    + intros Hc. apply Hno. eapply token_chars; eassumption.
Qed.

(** C9.  Normalising is idempotent on strings, for every lower-casing that
    leaves text made of the kept characters (lowercase ASCII letters,
    digits, whitespace, [+ # - _]) unchanged, as the built-in does. *)
Theorem normalizeText_idempotent
  (Hlower : forall s, Forall (fun c => is_kept c = true) s -> toLowerCase s = s)
  (x : jsstring) :
  exists y,
    normalizeText toLowerCase (VString x) = Ok y
    /\ normalizeText toLowerCase (VString y) = Ok y.
Proof.
  destruct (normalizeText_string x) as (y & Hy & Hk).
  exists y. split; [exact Hy|].
  apply normalizeText_kept; assumption.
Qed.

End Normaliser.

Lemma toLowerCase_ascii_kept (s : jsstring) :
  Forall (fun c => is_kept c = true) s -> toLowerCase_ascii s = s.
Proof.
  unfold toLowerCase_ascii.
  induction 1 as [|c s Hc _ IH]; [reflexivity|].
  cbn [map]. rewrite IH. f_equal.
  destruct ((65 <=? c)%N && (c <=? 90)%N) eqn:E; [|reflexivity].
  exfalso. revert Hc E.
  unfold is_kept, is_lower, is_digit, is_space.
  rewrite !orb_true_iff, !andb_true_iff, !N.eqb_eq, !N.leb_le. lia.
Qed.

Lemma normalizeText_idempotent_witness :
  exists y,
    normalizeText toLowerCase_ascii (VString (utf16 "C++ & “C#” Dev")) = Ok y
    /\ normalizeText toLowerCase_ascii (VString y) = Ok y.
Proof.
  exact (normalizeText_idempotent toLowerCase_ascii toLowerCase_ascii_kept
           (utf16 "C++ & “C#” Dev")).
Defined.

(** ** The tokenizer *)

Section Tokenizer.

Variable toLowerCase : jsstring -> jsstring.

Lemma keep_token_true (m : nat) (t : jsstring) :
  keep_token m t = true ->
  m <= length t /\ has STOPWORDS t = false /\ all_digits t = false.
Proof.
  unfold keep_token.
  destruct (length t <? m) eqn:E1; [discriminate|].
  destruct (has STOPWORDS t) eqn:E2; [discriminate|].
  destruct (all_digits t) eqn:E3; [discriminate|].
  intros _. apply Nat.ltb_ge in E1. auto.
Qed.

(** What the filter of [tokenize] does guarantee: every token is at least
    [minLen] long, is not an element of [STOPWORDS] as the program builds
    it, and is not made of digits only. *)
Lemma tokenize_filters (s : jsstring) (minLen : nat) :
  exists tokens,
    tokenize toLowerCase (VString s) (Some minLen) = Ok tokens
    /\ Forall (fun t => minLen <= length t
                        /\ ~ In t STOPWORDS
                        /\ ~ (t <> [] /\ Forall (fun c => is_digit c = true) t))
         tokens.
Proof.
  destruct (tokenize_string toLowerCase s (Some minLen)) as (y & _ & _ & Htok).
  eexists. split; [exact Htok|].
  apply Forall_forall. intros t Ht.
  apply filter_In in Ht as [_ Hk].
  apply keep_token_true in Hk as (Hlen & Hstop & Hdig).
  split; [exact Hlen|]. split.
  - apply has_not_In. exact Hstop.
  - intros [Hne Hall]. unfold all_digits in Hdig.
    apply andb_false_iff in Hdig as [Hdig|Hdig].
    + destruct t; [congruence | discriminate].
    + rewrite Forall_forall, <- forallb_forall in Hall. congruence.
Qed.

End Tokenizer.

(** The set the program builds holds the distinct characters of the word
    list, not its words. *)
Lemma STOPWORDS_characters :
  STOPWORDS = map (fun c => [c]) (utf16 "a,boutvefrginslmdycwhjp").
Proof. reflexivity. Qed.

(** C7 (evaluation at the failing input).  With [minLen = 2] the tokenizer
    emits ["the"], a word of the stopword list. *)
Theorem tokenize_emits_stopword :
  tokenize toLowerCase_ascii (VString (utf16 "the")) (Some 2) = Ok [utf16 "the"]
  /\ In (utf16 "the") stopword_list
  /\ has STOPWORDS (utf16 "the") = false.
Proof.
  split; [reflexivity|]. split; [|reflexivity].
  apply has_In. reflexivity.
Qed.

(** ** The request handler *)

(** C4.  A request that lacks a text is answered with one of the two fixed
    client errors (400 on POST, 405 on any other method) whatever the guarded
    computation is: the answer does not depend on [core], which is not run. *)
Theorem onRequest_rejects_missing_text
  (F : Type) (core : jsval -> jsval -> result (response F)) (req : request) :
  lacks_text req ->
  onRequest core req
  = (if str_eqb (method req) (utf16 "POST") then bad_request F
     else method_not_allowed F)
  /\ 400 <= status (onRequest core req) < 500.
Proof.
  unfold lacks_text, onRequest, bad_request, method_not_allowed.
  intros H.
  destruct (str_eqb (method req) (utf16 "POST")); cbn [negb].
  2: { split; [reflexivity | cbn; lia]. }
  destruct (body req) as [b|].
  - destruct H as [H|H]; rewrite H; cbn [negb orb].
    + split; [reflexivity | cbn; lia].
    + rewrite orb_true_r. split; [reflexivity | cbn; lia].
  - cbn. split; [reflexivity | lia].
Qed.

Lemma onRequest_rejects_missing_text_witness :
  matchJDandResume toLowerCase_ascii (post "" "Python developer")
  = bad_request float
  /\ 400 <= status (matchJDandResume toLowerCase_ascii (post "" "Python developer")) < 500.
Proof.
  exact (onRequest_rejects_missing_text
           (pipeline toLowerCase_ascii) (post "" "Python developer")
           (or_introl eq_refl)).
Defined.

(** ** Insertion-ordered sets *)

Lemma Set_of_snoc (l : list jsstring) (x : jsstring) :
  Set_of (l ++ [x]) = Set_add (Set_of l) x.
Proof. unfold Set_of. rewrite fold_left_app. reflexivity. Qed.

Lemma Set_add_In (s : list jsstring) (x k : jsstring) :
  In k (Set_add s x) <-> In k s \/ k = x.
Proof.
  unfold Set_add. destruct (has s x) eqn:E.
  - apply has_In in E. split; [auto|]. intros [H| ->]; assumption.
  - rewrite in_app_iff. simpl. intuition congruence.
Qed.

Lemma Set_of_In (l : list jsstring) (k : jsstring) : In k (Set_of l) <-> In k l.
Proof.
  induction l as [|x l IH] using rev_ind; [reflexivity|].
  rewrite Set_of_snoc, Set_add_In, IH, in_app_iff. simpl. intuition congruence.
Qed.

Lemma NoDup_snoc (A : Type) (l : list A) (x : A) :
  NoDup l -> ~ In x l -> NoDup (l ++ [x]).
Proof.
  intros Hl Hx. apply NoDup_rev in Hl.
  rewrite <- (rev_involutive (l ++ [x])). apply NoDup_rev.
  rewrite rev_app_distr. simpl. constructor; [|exact Hl].
  rewrite <- in_rev. exact Hx.
Qed.

Lemma Set_of_NoDup (l : list jsstring) : NoDup (Set_of l).
Proof.
  induction l as [|x l IH] using rev_ind; [constructor|].
  rewrite Set_of_snoc. unfold Set_add. destruct (has (Set_of l) x) eqn:E.
  - exact IH.
  - apply NoDup_snoc; [exact IH | apply has_not_In; exact E].
Qed.

Lemma Set_of_fixed (l : list jsstring) : NoDup l -> Set_of l = l.
Proof.
  induction l as [|x l IH] using rev_ind; [reflexivity|].
  intros Hnd. rewrite Set_of_snoc.
  assert (Hl : NoDup l /\ ~ In x l).
  { apply NoDup_rev in Hnd. rewrite rev_app_distr in Hnd. simpl in Hnd.
    inversion Hnd as [|? ? Hx Hr]; subst. split.
    - rewrite <- (rev_involutive l). apply NoDup_rev. exact Hr.
    - rewrite in_rev. exact Hx. }
  destruct Hl as [Hl Hx]. rewrite (IH Hl).
  unfold Set_add. apply has_not_In in Hx. rewrite Hx. reflexivity.
Qed.

(** ** Sortedness helpers *)

Lemma StronglySorted_snoc (A : Type) (R : A -> A -> Prop) (l : list A) (x : A) :
  StronglySorted R l -> Forall (fun a => R a x) l -> StronglySorted R (l ++ [x]).
Proof.
  induction 1 as [|a l Hl IH Ha]; intros Hx; simpl.
  - constructor; constructor.
  - inversion Hx; subst. constructor.
    + apply IH. assumption.
    + apply Forall_app. split; [assumption|]. constructor; [assumption|constructor].
Qed.

Lemma StronglySorted_impl_In (A : Type) (R R' : A -> A -> Prop) (l : list A) :
  (forall a b, In a l -> In b l -> R a b -> R' a b) ->
  StronglySorted R l -> StronglySorted R' l.
Proof.
  intros Himp H. induction H as [|a l Hl IH Ha]; [constructor|].
  constructor.
  - apply IH. intros; apply Himp; simpl; auto.
  - rewrite Forall_forall in *. intros b Hb.
    apply Himp; simpl; auto.
Qed.

Lemma StronglySorted_firstn (A : Type) (R : A -> A -> Prop) (n : nat) (l : list A) :
  StronglySorted R l -> StronglySorted R (firstn n l).
Proof.
  intros H. revert n. induction H as [|a l Hl IH Ha]; intros [|n]; simpl;
    try constructor.
  - apply IH.
  - rewrite Forall_forall in *. intros b Hb. apply Ha.
    rewrite <- (firstn_skipn n l). apply in_or_app. left. exact Hb.
Qed.

Lemma StronglySorted_map (A B : Type) (f : A -> B) (R : B -> B -> Prop) (l : list A) :
  StronglySorted (fun a b => R (f a) (f b)) l -> StronglySorted R (map f l).
Proof.
  induction 1 as [|a l Hl IH Ha]; simpl; constructor; [assumption|].
  rewrite Forall_forall in *. intros b Hb.
  apply in_map_iff in Hb as (x & <- & Hx). apply Ha. exact Hx.
Qed.

Lemma In_firstn (A : Type) (n : nat) (l : list A) (x : A) :
  In x (firstn n l) -> In x l.
Proof.
  intros H. rewrite <- (firstn_skipn n l). apply in_or_app. left. exact H.
Qed.

Lemma NoDup_firstn (A : Type) (n : nat) (l : list A) : NoDup l -> NoDup (firstn n l).
Proof.
  intros H. revert n. induction H as [|a l Ha Hl IH]; intros [|n]; simpl;
    try constructor.
  - intros Hin. apply Ha. eapply In_firstn. exact Hin.
  - apply IH.
Qed.

(** ** Occurrences and first occurrences *)

Lemma occ_snoc (k x : jsstring) (l : list jsstring) :
  occ k (l ++ [x]) = occ k l + (if str_eqb k x then 1 else 0).
Proof.
  unfold occ. rewrite filter_app, length_app. simpl.
  destruct (str_eqb k x); reflexivity.
Qed.

Lemma occ_pos (k : jsstring) (l : list jsstring) : In k l <-> 1 <= occ k l.
Proof.
  unfold occ. induction l as [|x l IH]; simpl.
  - split; [intros [] | lia].
  - destruct (str_eqb k x) eqn:E; simpl.
    + apply str_eqb_eq in E. subst. split; [lia | auto].
    + apply str_eqb_neq in E. rewrite <- IH. intuition congruence.
Qed.

Lemma first_index_lt (k : jsstring) (l : list jsstring) :
  In k l -> first_index k l < length l.
Proof.
  induction l as [|x l IH]; simpl; [intros []|].
  intros H. destruct (str_eqb x k) eqn:E; [lia|].
  apply str_eqb_neq in E. destruct H as [H|H]; [contradiction|].
  apply IH in H. lia.
Qed.

Lemma first_index_app_In (k : jsstring) (l r : list jsstring) :
  In k l -> first_index k (l ++ r) = first_index k l.
Proof.
  induction l as [|x l IH]; simpl; [intros []|].
  intros H. destruct (str_eqb x k) eqn:E; [reflexivity|].
  apply str_eqb_neq in E. destruct H as [H|H]; [contradiction|].
  rewrite IH by exact H. reflexivity.
Qed.

Lemma first_index_app_notin (k : jsstring) (l : list jsstring) :
  ~ In k l -> first_index k (l ++ [k]) = length l.
Proof.
  induction l as [|x l IH]; simpl.
  - intros _. rewrite str_eqb_refl. reflexivity.
  - intros H. destruct (str_eqb x k) eqn:E.
    + apply str_eqb_eq in E. subst. exfalso. auto.
    + rewrite IH; auto.
Qed.

(** [Set] iteration order is first-occurrence order. *)
Lemma Set_of_first_index (l : list jsstring) :
  StronglySorted (fun a b => first_index a l < first_index b l) (Set_of l).
Proof.
  induction l as [|x l IH] using rev_ind; [constructor|].
  rewrite Set_of_snoc.
  assert (IH' : StronglySorted
                  (fun a b => first_index a (l ++ [x]) < first_index b (l ++ [x]))
                  (Set_of l)).
  { eapply StronglySorted_impl_In; [|exact IH].
    intros a b Ha Hb Hab. rewrite Set_of_In in Ha, Hb. cbv beta in Hab.
    rewrite !first_index_app_In by assumption. exact Hab. }
  unfold Set_add. destruct (has (Set_of l) x) eqn:E; [exact IH'|].
  apply has_not_In in E. rewrite Set_of_In in E.
  apply StronglySorted_snoc; [exact IH'|].
  apply Forall_forall. intros a Ha. rewrite Set_of_In in Ha.
  rewrite first_index_app_In by exact Ha.
  rewrite first_index_app_notin by exact E.
  apply first_index_lt. exact Ha.
Qed.

(** ** The frequency map *)

Lemma set_keys (o : Obj.obj) (k : jsstring) (v : nat) :
  map fst (Obj.set o k v) = Set_add (map fst o) k.
Proof.
  induction o as [|[k' v'] o IH]; [reflexivity|].
  unfold Set_add in *. cbn [Obj.set map fst has existsb].
  rewrite (str_eqb_sym k k').
  destruct (str_eqb k' k) eqn:E; [reflexivity|].
  cbn [orb map fst]. rewrite IH. unfold has.
  destruct (existsb (str_eqb k) (map fst o)); reflexivity.
Qed.

Lemma get_In (o : Obj.obj) (k : jsstring) (v : nat) :
  Obj.get o k = Some v -> In (k, v) o.
Proof.
  induction o as [|[k' v'] o IH]; simpl; [discriminate|].
  destruct (str_eqb k' k) eqn:E.
  - apply str_eqb_eq in E. intros [= ->]. subst. left. reflexivity.
  - intros H. right. apply IH. exact H.
Qed.

Lemma get_None (o : Obj.obj) (k : jsstring) :
  Obj.get o k = None -> ~ In k (map fst o).
Proof.
  induction o as [|[k' v'] o IH]; simpl; [auto|].
  destruct (str_eqb k' k) eqn:E; [discriminate|].
  apply str_eqb_neq in E. intros H [H'|H']; [contradiction|].
  exact (IH H H').
Qed.

Lemma set_In (o : Obj.obj) (k : jsstring) (v : nat) (e : jsstring * nat) :
  NoDup (map fst o) ->
  In e (Obj.set o k v) -> e = (k, v) \/ (In e o /\ fst e <> k).
Proof.
  induction o as [|[k' v'] o IH]; simpl; intros Hnd He.
  - destruct He as [<-|[]]. left. reflexivity.
  - inversion Hnd as [|? ? Hk' Hnd']; subst.
    destruct (str_eqb k' k) eqn:E.
    + apply str_eqb_eq in E. subst k'. destruct He as [<-|He].
      * left. reflexivity.
      * right. split; [right; exact He|].
        intros <-. apply Hk'. apply in_map. exact He.
    + apply str_eqb_neq in E. destruct He as [<-|He].
      * right. split; [left; reflexivity | exact E].
      * destruct (IH Hnd' He) as [->|[H1 H2]]; [left; reflexivity|].
        right. split; [right; exact H1 | exact H2].
Qed.

Lemma buildFrequency_snoc (l : list jsstring) (x : jsstring) :
  buildFrequency (l ++ [x])
  = Obj.set (buildFrequency l) x (Obj.get_or_0 (buildFrequency l) x + 1).
Proof. unfold buildFrequency. rewrite fold_left_app. reflexivity. Qed.

(** The map holds the distinct tokens in first-occurrence order, each with
    its number of occurrences. *)
Lemma buildFrequency_spec (l : list jsstring) :
  map fst (buildFrequency l) = Set_of l
  /\ Forall (fun e => snd e = occ (fst e) l) (buildFrequency l).
Proof.
  induction l as [|x l [IHk IHv]] using rev_ind; [split; [reflexivity|constructor]|].
  rewrite buildFrequency_snoc, Set_of_snoc. split.
  - rewrite set_keys, IHk. reflexivity.
  - assert (Hx : Obj.get_or_0 (buildFrequency l) x = occ x l).
    { unfold Obj.get_or_0. destruct (Obj.get (buildFrequency l) x) as [v|] eqn:G.
      - apply get_In in G. rewrite Forall_forall in IHv.
        specialize (IHv _ G). simpl in IHv. subst v.
        destruct (occ x l =? 0) eqn:Z; [apply Nat.eqb_eq in Z; lia | reflexivity].
      - apply get_None in G. rewrite IHk, Set_of_In in G.
        destruct (occ x l) eqn:O; [reflexivity|].
        exfalso. apply G. apply occ_pos. lia. }
    rewrite Hx. apply Forall_forall. intros e He.
    apply set_In in He; [|rewrite IHk; apply Set_of_NoDup].
    rewrite occ_snoc. destruct He as [->|[He Hne]]; simpl.
    + rewrite str_eqb_refl. reflexivity.
    + rewrite Forall_forall in IHv. rewrite (IHv _ He).
      apply str_eqb_neq in Hne. rewrite Hne. lia.
Qed.

Lemma buildFrequency_get (l : list jsstring) (k : jsstring) :
  Obj.get_or_0 (buildFrequency l) k = occ k l.
Proof.
  destruct (buildFrequency_spec l) as [Hk Hv].
  unfold Obj.get_or_0. destruct (Obj.get (buildFrequency l) k) as [v|] eqn:G.
  - apply get_In in G. rewrite Forall_forall in Hv.
    specialize (Hv _ G). simpl in Hv. subst v.
    destruct (occ k l =? 0) eqn:Z; [apply Nat.eqb_eq in Z; lia | reflexivity].
  - apply get_None in G. rewrite Hk, Set_of_In in G.
    destruct (occ k l) eqn:O; [reflexivity|].
    exfalso. apply G. apply occ_pos. lia.
Qed.

(** ** Key order of an object *)

Lemma insert_index_perm (e : N * (jsstring * nat)) (l : list (N * (jsstring * nat))) :
  Permutation (Obj.insert_index e l) (e :: l).
Proof.
  induction l as [|h t IH]; simpl; [reflexivity|].
  destruct (fst e <? fst h)%N; [reflexivity|].
  rewrite IH. apply perm_swap.
Qed.

Lemma indexed_perm (o : Obj.obj) :
  Permutation (map snd (Obj.indexed o))
    (filter (fun e => negb (Obj.is_named (fst e))) o).
Proof.
  induction o as [|e o IH]; simpl; [reflexivity|].
  unfold Obj.is_named at 1. destruct (Obj.array_index (fst e)); simpl.
  - rewrite insert_index_perm. simpl. constructor. exact IH.
  - exact IH.
Qed.

Lemma filter_partition_perm (A : Type) (p : A -> bool) (l : list A) :
  Permutation (filter (fun a => negb (p a)) l ++ filter p l) l.
Proof.
  induction l as [|a l IH]; simpl; [reflexivity|].
  destruct (p a); simpl.
  - rewrite <- Permutation_middle. constructor. exact IH.
  - constructor. exact IH.
Qed.

Lemma entries_perm (o : Obj.obj) : Permutation (Obj.entries o) o.
Proof.
  unfold Obj.entries. rewrite indexed_perm.
  apply (filter_partition_perm (fun e => Obj.is_named (fst e))).
Qed.

(** Without array-index keys the entries come in insertion order. *)
Lemma entries_named (o : Obj.obj) :
  Forall (fun e => Obj.array_index (fst e) = None) o -> Obj.entries o = o.
Proof.
  intros H.
  assert (Hidx : Obj.indexed o = []).
  { induction H as [|e o He _ IH]; [reflexivity|].
    unfold Obj.indexed in *. cbn [fold_right]. rewrite He. exact IH. }
  unfold Obj.entries. rewrite Hidx. simpl. clear Hidx.
  induction H as [|e o He _ IH]; [reflexivity|].
  simpl. unfold Obj.is_named at 1. rewrite He. f_equal. exact IH.
Qed.

(** ** The stable sort *)

Lemma insert_desc_perm (e : jsstring * nat) (l : list (jsstring * nat)) :
  Permutation (insert_desc e l) (e :: l).
Proof.
  induction l as [|h t IH]; simpl; [reflexivity|].
  destruct (snd h <=? snd e); [reflexivity|].
  rewrite IH. apply perm_swap.
Qed.

Lemma sort_desc_perm (l : list (jsstring * nat)) : Permutation (sort_desc l) l.
Proof.
  induction l as [|e l IH]; simpl; [reflexivity|].
  rewrite insert_desc_perm. constructor. exact IH.
Qed.

Section Stable.

(** [R a b]: entry [a] comes before entry [b] in the input. *)
Variable R : jsstring * nat -> jsstring * nat -> Prop.

Lemma insert_desc_sorted (e : jsstring * nat) (l : list (jsstring * nat)) :
  StronglySorted (desc_stable R) l ->
  Forall (R e) l ->
  StronglySorted (desc_stable R) (insert_desc e l).
Proof.
  induction 1 as [|h t Ht IH Hh]; intros He; simpl.
  - constructor; constructor.
  - inversion He as [|? ? Heh Het]; subst.
    destruct (snd h <=? snd e) eqn:E.
    + apply Nat.leb_le in E. constructor.
      * constructor; assumption.
      * constructor.
        -- split; [exact E | intros _; exact Heh].
        -- rewrite Forall_forall in *. intros x Hx.
           destruct (Hh _ Hx) as [Hle _]. split; [lia | intros _; auto].
    + apply Nat.leb_gt in E. constructor.
      * apply IH. exact Het.
      * rewrite Forall_forall in *. intros x Hx.
        apply (Permutation_in _ (insert_desc_perm e t)) in Hx.
        destruct Hx as [<-|Hx]; [split; lia | auto].
Qed.

Lemma sort_desc_sorted (l : list (jsstring * nat)) :
  StronglySorted R l -> StronglySorted (desc_stable R) (sort_desc l).
Proof.
  induction 1 as [|e l Hl IH He]; simpl; [constructor|].
  apply insert_desc_sorted; [exact IH|].
  rewrite Forall_forall in *. intros x Hx. apply He.
  apply (Permutation_in _ (sort_desc_perm l)). exact Hx.
Qed.

End Stable.

(** ** Keyword extraction *)

Lemma StronglySorted_True (A : Type) (l : list A) :
  StronglySorted (fun _ _ => True) l.
Proof.
  induction l; constructor; [assumption|].
  apply Forall_forall. intros; exact I.
Qed.

Lemma StronglySorted_unmap (A B : Type) (f : A -> B) (R : B -> B -> Prop) (l : list A) :
  StronglySorted R (map f l) -> StronglySorted (fun a b => R (f a) (f b)) l.
Proof.
  induction l as [|a l IH]; simpl; intros H; [constructor|].
  inversion H as [|? ? Hl Ha]; subst. constructor; [apply IH; exact Hl|].
  rewrite Forall_forall in *. intros b Hb. apply Ha. apply in_map. exact Hb.
Qed.

Lemma extractTopKeywords_sorted
  (Rk : jsstring -> jsstring -> Prop) (tokens : list jsstring) (topK : nat) :
  StronglySorted (fun a b => Rk (fst a) (fst b)) (Obj.entries (buildFrequency tokens)) ->
  StronglySorted
    (fun a b => occ b tokens <= occ a tokens /\ (occ a tokens = occ b tokens -> Rk a b))
    (extractTopKeywords tokens topK).
Proof.
  intros H. unfold extractTopKeywords.
  apply StronglySorted_map.
  apply sort_desc_sorted in H. apply (StronglySorted_firstn topK) in H.
  eapply StronglySorted_impl_In; [|exact H].
  assert (Hocc : forall e, In e (firstn topK (sort_desc (Obj.entries (buildFrequency tokens))))
                           -> snd e = occ (fst e) tokens).
  { intros e He. apply In_firstn in He.
    apply (Permutation_in _ (sort_desc_perm _)) in He.
    apply (Permutation_in _ (entries_perm _)) in He.
    destruct (buildFrequency_spec tokens) as [_ Hv].
    rewrite Forall_forall in Hv. exact (Hv _ He). }
  intros a b Ha Hb [Hle Htie].
  rewrite <- (Hocc _ Ha), <- (Hocc _ Hb). split; assumption.
Qed.

Lemma extractTopKeywords_keys (tokens : list jsstring) :
  Permutation (map fst (sort_desc (Obj.entries (buildFrequency tokens)))) (Set_of tokens).
Proof.
  destruct (buildFrequency_spec tokens) as [Hk _]. rewrite <- Hk.
  apply Permutation_map. rewrite sort_desc_perm. apply entries_perm.
Qed.

Lemma extractTopKeywords_basic (tokens : list jsstring) (topK : nat) :
  length (extractTopKeywords tokens topK) = min topK (length (Set_of tokens))
  /\ NoDup (extractTopKeywords tokens topK)
  /\ (forall k, In k (extractTopKeywords tokens topK) -> In k tokens).
Proof.
  pose proof (extractTopKeywords_keys tokens) as Hp.
  unfold extractTopKeywords. rewrite <- firstn_map.
  split; [|split].
  - rewrite length_firstn, (Permutation_length Hp). reflexivity.
  - apply NoDup_firstn. eapply Permutation_NoDup.
    + apply Permutation_sym. exact Hp.
    + apply Set_of_NoDup.
  - intros k Hk. apply In_firstn in Hk.
    apply (Permutation_in _ Hp) in Hk. apply Set_of_In. exact Hk.
Qed.

Lemma all_digits_array_index (t : jsstring) :
  all_digits t = false -> Obj.array_index t = None.
Proof.
  destruct t as [|c t]; [reflexivity|].
  unfold all_digits, Obj.array_index. cbn [nonempty andb].
  intros ->. reflexivity.
Qed.

Lemma tokenize_no_array_index
  (toLowerCase : jsstring -> jsstring) (s : jsstring) (opts : option nat) :
  exists tokens,
    tokenize toLowerCase (VString s) opts = Ok tokens /\ no_array_index tokens.
Proof.
  destruct (tokenize_string toLowerCase s opts) as (y & _ & _ & Htok).
  eexists. split; [exact Htok|].
  apply Forall_forall. intros t Ht. apply filter_In in Ht as [_ Hk].
  apply keep_token_true in Hk as (_ & _ & Hd).
  apply all_digits_array_index. exact Hd.
Qed.

Lemma extractTopKeywords_ranked (tokens : list jsstring) (topK : nat) :
  no_array_index tokens ->
  StronglySorted (ranked tokens) (extractTopKeywords tokens topK).
Proof.
  intros Hnamed.
  apply (extractTopKeywords_sorted
           (fun a b => first_index a tokens < first_index b tokens)).
  destruct (buildFrequency_spec tokens) as [Hk _].
  rewrite entries_named.
  - apply (@StronglySorted_unmap _ _ fst
             (fun a b => first_index a tokens < first_index b tokens)).
    rewrite Hk. apply Set_of_first_index.
  - apply Forall_forall. intros e He.
    unfold no_array_index in Hnamed. rewrite Forall_forall in Hnamed.
    apply Hnamed. apply Set_of_In. rewrite <- Hk. apply in_map. exact He.
Qed.

(** C8.  [extractTopKeywords] returns at most [topK] distinct tokens of the
    sequence, in order of non-increasing frequency.  The sequences it
    receives are those the tokenizer emits; they hold no array index, and
    for them tokens of equal frequency keep their first-occurrence order.
    The handler asks for 200 keywords of the job description and 400 of
    the resume. *)
Theorem extractTopKeywords_ranking :
  (forall tokens topK,
      length (extractTopKeywords tokens topK) <= topK
      /\ NoDup (extractTopKeywords tokens topK)
      /\ (forall k, In k (extractTopKeywords tokens topK) -> In k tokens)
      /\ StronglySorted (fun a b => occ b tokens <= occ a tokens)
           (extractTopKeywords tokens topK))
  /\ (forall tokens topK,
         no_array_index tokens ->
         StronglySorted (ranked tokens) (extractTopKeywords tokens topK))
  /\ (forall toLowerCase s opts,
         exists tokens,
           tokenize toLowerCase (VString s) opts = Ok tokens
           /\ no_array_index tokens)
  /\ (forall toLowerCase s opts tokens topK,
         tokenize toLowerCase (VString s) opts = Ok tokens ->
         StronglySorted (ranked tokens) (extractTopKeywords tokens topK))
  /\ (forall toLowerCase F (num : Number F) jd resume,
         exists jdTokens resumeTokens r,
           tokenize toLowerCase (VString jd) (Some 2) = Ok jdTokens
           /\ tokenize toLowerCase (VString resume) (Some 2) = Ok resumeTokens
           /\ pipeline toLowerCase (VString jd) (VString resume) = Ok r
           /\ skills_matched r
              = matched (matchKeywords (extractTopKeywords jdTokens 200)
                           (extractTopKeywords resumeTokens 400))
           /\ missing_skills r
              = missing (matchKeywords (extractTopKeywords jdTokens 200)
                           (extractTopKeywords resumeTokens 400))).
Proof.
  split; [|split; [|split; [|split]]].
  - intros tokens topK.
    destruct (extractTopKeywords_basic tokens topK) as (Hlen & Hnd & Hin).
    split; [rewrite Hlen; apply Nat.le_min_l|].
    split; [exact Hnd|]. split; [exact Hin|].
    eapply StronglySorted_impl_In;
      [|apply (extractTopKeywords_sorted (fun _ _ => True)); apply StronglySorted_True].
    intros a b _ _ [H _]. exact H.
  - intros tokens topK. apply extractTopKeywords_ranked.
  - intros toLowerCase s opts. apply tokenize_no_array_index.
  - intros toLowerCase s opts tokens topK Htok.
    destruct (tokenize_no_array_index toLowerCase s opts) as (t & Ht & Hn).
    rewrite Htok in Ht. injection Ht as <-.
    apply extractTopKeywords_ranked. exact Hn.
  - intros toLowerCase F num jd resume.
    destruct (tokenize_string toLowerCase jd (Some 2)) as (y1 & _ & _ & H1).
    destruct (tokenize_string toLowerCase resume (Some 2)) as (y2 & _ & _ & H2).
    do 3 eexists. split; [exact H1|]. split; [exact H2|].
    unfold pipeline. rewrite H1, H2. cbn [bind].
    split; [reflexivity|]. split; reflexivity.
Qed.

(** Outside the pipeline: in ["b", "1"] both tokens occur once and "b"
    comes first, yet "1" is returned first, because it is an array index
    and those precede every other key of the frequency object.  The
    tokenizer drops all-digit tokens, so the handler never passes one. *)
Lemma extractTopKeywords_array_index_first :
  let tokens := [utf16 "b"; utf16 "1"] in
  extractTopKeywords tokens 2 = [utf16 "1"; utf16 "b"]
  /\ occ (utf16 "1") tokens = occ (utf16 "b") tokens
  /\ first_index (utf16 "b") tokens < first_index (utf16 "1") tokens.
Proof.
  cbv zeta. split; [reflexivity|]. split; [reflexivity|].
  cbn. lia.
Qed.

(** ** Keyword matching *)

Section Matching.

Context {F : Type} {num : Number F}.

Lemma classify_fold (resumeSet l m0 mi0 : list jsstring) :
  fold_left
    (fun '(matched, missing) k =>
       if has resumeSet k then (matched ++ [k], missing)
       else (matched, missing ++ [k]))
    l (m0, mi0)
  = (m0 ++ filter (has resumeSet) l,
     mi0 ++ filter (fun k => negb (has resumeSet k)) l).
Proof.
  revert m0 mi0. induction l as [|k l IH]; intros m0 mi0; simpl.
  - rewrite !app_nil_r. reflexivity.
  - destruct (has resumeSet k); simpl; rewrite IH, <- app_assoc; reflexivity.
Qed.

Lemma matchKeywords_fields (jdKeywords resumeKeywords : list jsstring) :
  let r := matchKeywords jdKeywords resumeKeywords in
  matched r = filter (has (Set_of resumeKeywords)) (Set_of jdKeywords)
  /\ missing r = filter (fun k => negb (has (Set_of resumeKeywords) k)) (Set_of jdKeywords)
  /\ jdCount r = length (Set_of jdKeywords)
  /\ resumeCount r = length (Set_of resumeKeywords)
  /\ overlapPct r
     = if length (Set_of jdKeywords) =? 0 then of_nat 0
       else mul (div (of_nat (length (matched r))) (of_nat (length (Set_of jdKeywords))))
              (of_nat 100).
Proof.
  unfold matchKeywords. rewrite classify_fold. cbn. repeat split; reflexivity.
Qed.

End Matching.

(** ** Feedback *)

Lemma SFcompare_antisym (a b : spec_float) :
  SFcompare b a = option_map CompOpp (SFcompare a b).
Proof.
  destruct a as [sa|sa| |sa ma ea], b as [sb|sb| |sb mb eb]; simpl;
    try reflexivity;
    try (destruct sa; reflexivity);
    try (destruct sb; reflexivity);
    try (destruct sa, sb; reflexivity).
  assert (Hm : Pos.compare_cont Eq mb ma = CompOpp (Pos.compare_cont Eq ma mb))
    by (symmetry; apply (Pos.compare_cont_antisym ma mb Eq)).
  destruct sa, sb; try reflexivity; rewrite (Z.compare_antisym ea eb), Hm;
    destruct (ea ?= eb)%Z; simpl; try reflexivity;
    destruct (Pos.compare_cont Eq ma mb); reflexivity.
Qed.

(** On binary64, [x < y] excludes [x >= y]. *)
Lemma ltb_not_geb (x y : float) :
  PrimFloat.ltb x y = true -> PrimFloat.leb y x = false.
Proof.
  rewrite ltb_spec, leb_spec. unfold SFltb, SFleb.
  rewrite (SFcompare_antisym (Prim2SF x) (Prim2SF y)).
  destruct (SFcompare (Prim2SF x) (Prim2SF y)) as [[| |]|]; simpl; congruence.
Qed.

(** [x < c1] excludes [x >= c2] for positive constants [c1 <= c2]. *)
Lemma ltb_below_not_geb (c1 c2 x : float) (m1 m2 : positive) (e1 e2 : Z) :
  Prim2SF c1 = S754_finite false m1 e1 ->
  Prim2SF c2 = S754_finite false m2 e2 ->
  ((e1 <? e2)%Z || ((e1 =? e2)%Z && (m1 <=? m2)%positive)) = true ->
  PrimFloat.ltb x c1 = true -> PrimFloat.leb c2 x = false.
Proof.
  intros H1 H2 Hc. rewrite ltb_spec, leb_spec, H1, H2. unfold SFltb, SFleb.
  destruct (Prim2SF x) as [s|s| |s m e]; simpl;
    try discriminate; try reflexivity; try (destruct s; (discriminate || reflexivity)).
  destruct s; [reflexivity|].
  apply orb_true_iff in Hc.
  rewrite andb_true_iff, Z.ltb_lt, Z.eqb_eq, Pos.leb_le in Hc.
  change (Pos.compare_cont Eq m m1) with (m ?= m1)%positive.
  change (Pos.compare_cont Eq m2 m) with (m2 ?= m)%positive.
  destruct (e ?= e1)%Z eqn:E1; try discriminate.
  - apply Z.compare_eq in E1. subst e.
    destruct (m ?= m1)%positive eqn:M1; try discriminate. intros _.
    rewrite Pos.compare_lt_iff in M1.
    destruct (e2 ?= e1)%Z eqn:E2.
    + apply Z.compare_eq in E2.
      assert (M2 : (m2 ?= m)%positive = Gt) by (apply Pos.compare_gt_iff; lia).
      rewrite M2. reflexivity.
    + rewrite Z.compare_lt_iff in E2. lia.
    + reflexivity.
  - intros _. rewrite Z.compare_lt_iff in E1.
    assert (E2 : (e2 ?= e)%Z = Gt) by (apply Z.compare_gt_iff; lia).
    rewrite E2. reflexivity.
Qed.

Lemma generateFeedback_cases (score overlapPct : float) (missing : list jsstring) :
  exists tier gaps advice,
    generateFeedback score overlapPct missing = [tier; gaps; advice]
    /\ (PrimFloat.leb 85 score = true -> tier = Messages.excellent_fit)
    /\ (PrimFloat.leb 65 score = true -> PrimFloat.ltb score 85 = true ->
        tier = Messages.good_fit)
    /\ (PrimFloat.leb 40 score = true -> PrimFloat.ltb score 65 = true ->
        tier = Messages.partial_fit)
    /\ (PrimFloat.ltb score 40 = true -> tier = Messages.low_fit)
    /\ (missing = [] -> gaps = Messages.no_gaps)
    /\ (1 <= length missing <= 8 -> gaps = Messages.missing_all missing)
    /\ (8 < length missing ->
        gaps = Messages.missing_top (length missing) (firstn 8 missing))
    /\ (PrimFloat.ltb score 85 = true -> advice = Messages.tailoring)
    /\ (PrimFloat.ltb score 85 = false -> advice = Messages.interview_ready).
Proof.
  exists (if PrimFloat.leb 85 score then Messages.excellent_fit
          else if PrimFloat.leb 65 score then Messages.good_fit
          else if PrimFloat.leb 40 score then Messages.partial_fit
          else Messages.low_fit),
         (if (0 <? length missing) && (length missing <=? 8)
          then Messages.missing_all missing
          else if 8 <? length missing
          then Messages.missing_top (length missing) (firstn 8 missing)
          else Messages.no_gaps),
         (if PrimFloat.ltb score 85 then Messages.tailoring
          else Messages.interview_ready).
  split.
  { unfold generateFeedback. cbn [geb ltb binary64 app].
    change (@of_nat float binary64 85) with 85%float.
    change (@of_nat float binary64 65) with 65%float.
    change (@of_nat float binary64 40) with 40%float.
    unfold Messages.excellent_fit, Messages.good_fit, Messages.partial_fit,
      Messages.low_fit, Messages.missing_all, Messages.missing_top,
      Messages.no_gaps, Messages.tailoring, Messages.interview_ready.
    destruct (PrimFloat.ltb score 85);
      destruct ((0 <? length missing) && (length missing <=? 8));
      destruct (8 <? length missing);
      destruct (PrimFloat.leb 85 score);
      destruct (PrimFloat.leb 65 score);
      destruct (PrimFloat.leb 40 score); reflexivity. }
  split; [|split; [|split; [|split]]].
  - intros ->. reflexivity.
  - intros H65 H85. rewrite (ltb_not_geb H85), H65. reflexivity.
  - intros H40 H65.
    rewrite (@ltb_below_not_geb 65 85 score _ _ _ _ eq_refl eq_refl eq_refl H65).
    rewrite (ltb_not_geb H65), H40. reflexivity.
  - intros H40.
    rewrite (@ltb_below_not_geb 40 85 score _ _ _ _ eq_refl eq_refl eq_refl H40).
    rewrite (@ltb_below_not_geb 40 65 score _ _ _ _ eq_refl eq_refl eq_refl H40).
    rewrite (ltb_not_geb H40). reflexivity.
  - split; [|split; [|split; [|split]]].
    + intros ->. reflexivity.
    + intros [H1 H8]. apply Nat.ltb_lt in H1. apply Nat.leb_le in H8.
      rewrite H1, H8. reflexivity.
    + intros H8.
      assert (H8' : (length missing <=? 8) = false) by (apply Nat.leb_gt; exact H8).
      apply Nat.ltb_lt in H8. rewrite H8, H8', andb_false_r. reflexivity.
    + intros ->. reflexivity.
    + intros ->. reflexivity.
Qed.

(** C3.  [generateFeedback] returns three messages.  The first is chosen by
    the score: at least 85 excellent fit, in [65, 85) good fit, in [40, 65)
    partial fit, below 40 low fit; so 85 itself is an excellent fit and
    84.99 a good fit.  The second reports no gaps for an empty list, the
    whole list joined by commas for one to eight items, and the count with
    the first eight items for more.  The third is the tailoring advice below
    85 and the interview message otherwise. *)
Theorem generateFeedback_messages (score overlapPct : float) (missing : list jsstring) :
  (exists tier gaps advice,
      generateFeedback score overlapPct missing = [tier; gaps; advice]
      /\ (PrimFloat.leb 85 score = true -> tier = Messages.excellent_fit)
      /\ (PrimFloat.leb 65 score = true -> PrimFloat.ltb score 85 = true ->
          tier = Messages.good_fit)
      /\ (PrimFloat.leb 40 score = true -> PrimFloat.ltb score 65 = true ->
          tier = Messages.partial_fit)
      /\ (PrimFloat.ltb score 40 = true -> tier = Messages.low_fit)
      /\ (missing = [] -> gaps = Messages.no_gaps)
      /\ (1 <= length missing <= 8 -> gaps = Messages.missing_all missing)
      /\ (8 < length missing ->
          gaps = Messages.missing_top (length missing) (firstn 8 missing))
      /\ (PrimFloat.ltb score 85 = true -> advice = Messages.tailoring)
      /\ (PrimFloat.ltb score 85 = false -> advice = Messages.interview_ready))
  /\ hd_error (generateFeedback 85%float overlapPct missing)
     = Some Messages.excellent_fit
  /\ hd_error (generateFeedback 0x1.53f5c28f5c28fp+6%float overlapPct missing)
     = Some Messages.good_fit.
Proof.
  split; [apply generateFeedback_cases|].
  split.
  - destruct (generateFeedback_cases 85 overlapPct missing)
      as (tier & gaps & advice & -> & H & _).
    rewrite (H eq_refl). reflexivity.
  - destruct (generateFeedback_cases 0x1.53f5c28f5c28fp+6 overlapPct missing)
      as (tier & gaps & advice & -> & _ & H & _).
    rewrite (H eq_refl eq_refl). reflexivity.
Qed.

(** ** The sums of the cosine similarity *)

Section Sums.

Context {F : Type} {num : Number F}.

Variables freqA freqB : Obj.obj.

Let a_of := a_of freqA.
Let b_of := b_of freqB.
Let cosine_keys := cosine_keys freqA freqB.

Lemma cosine_sums_fold (keys : list jsstring) (dot normA normB : F) :
  fold_left
    (fun '(dot, normA, normB) k =>
       let a := of_nat (Obj.get_or_0 freqA k) in
       let b := of_nat (Obj.get_or_0 freqB k) in
       (add dot (mul a b), add normA (mul a a), add normB (mul b b)))
    keys (dot, normA, normB)
  = (fold_left add (map (fun k => mul (of_nat (a_of k)) (of_nat (b_of k))) keys) dot,
     fold_left add (map (fun k => mul (of_nat (a_of k)) (of_nat (a_of k))) keys) normA,
     fold_left add (map (fun k => mul (of_nat (b_of k)) (of_nat (b_of k))) keys) normB).
Proof.
  revert dot normA normB. induction keys as [|k keys IH]; intros; [reflexivity|].
  cbn [fold_left map]. rewrite IH. reflexivity.
Qed.

(** Each of the three accumulators is the sum, in the program's
    arithmetic and in the order of the keys, of its own products. *)
Lemma cosine_sums_eq :
  cosine_sums freqA freqB
  = (sum_in num (map (fun k => mul (of_nat (a_of k)) (of_nat (b_of k))) cosine_keys),
     sum_in num (map (fun k => mul (of_nat (a_of k)) (of_nat (a_of k))) cosine_keys),
     sum_in num (map (fun k => mul (of_nat (b_of k)) (of_nat (b_of k))) cosine_keys)).
Proof. unfold cosine_sums. rewrite cosine_sums_fold. reflexivity. Qed.

End Sums.

Lemma am_gm (x y : Z) : (4 * (x * y) <= (x + y) * (x + y))%Z.
Proof. pose proof (Z.square_nonneg (x - y)). nia. Qed.

Lemma cauchy_schwarz_step (d na nb a b : Z) :
  (0 <= d -> 0 <= na -> 0 <= nb -> 0 <= a -> 0 <= b ->
   d * d <= na * nb ->
   (d + a * b) * (d + a * b) <= (na + a * a) * (nb + b * b))%Z.
Proof.
  intros Hd Hna Hnb Ha Hb H.
  assert (H2 : (2 * (d * (a * b)) <= na * (b * b) + nb * (a * a))%Z).
  { apply Z.square_le_simpl_nonneg; [nia|].
    pose proof (am_gm (na * (b * b)) (nb * (a * a))) as G.
    assert (K : ((d * d) * ((a * b) * (a * b)) <= (na * nb) * ((a * b) * (a * b)))%Z).
    { apply Z.mul_le_mono_nonneg_r; [nia | exact H]. }
    nia. }
  nia.
Qed.

(** Cauchy-Schwarz for the integer sums. *)
Lemma cauchy_schwarz (f g : jsstring -> nat) (keys : list jsstring) :
  list_sum (map (fun k => f k * g k) keys) * list_sum (map (fun k => f k * g k) keys)
  <= list_sum (map (fun k => f k * f k) keys) * list_sum (map (fun k => g k * g k) keys).
Proof.
  induction keys as [|k keys IH]; simpl; [lia|].
  set (d := list_sum (map (fun k => f k * g k) keys)) in *.
  set (na := list_sum (map (fun k => f k * f k) keys)) in *.
  set (nb := list_sum (map (fun k => g k * g k) keys)) in *.
  pose proof (@cauchy_schwarz_step (Z.of_nat d) (Z.of_nat na) (Z.of_nat nb)
                (Z.of_nat (f k)) (Z.of_nat (g k))) as H.
  nia.
Qed.

Lemma exact_sums_cauchy_schwarz (freqA freqB : Obj.obj) :
  let '(dot, normA, normB) := exact_sums freqA freqB in
  dot * dot <= normA * normB.
Proof.
  unfold exact_sums.
  pose proof (cauchy_schwarz (a_of freqA) (b_of freqB) (cosine_keys freqA freqB)) as H.
  exact H.
Qed.

Lemma list_sum_In (f : jsstring -> nat) (keys : list jsstring) (k : jsstring) :
  In k keys -> f k <= list_sum (map f keys).
Proof.
  induction keys as [|x keys IH]; simpl; [intros []|].
  intros [->|H]; [lia|]. apply IH in H. lia.
Qed.

Lemma list_sum_zero (f : jsstring -> nat) (keys : list jsstring) :
  (forall k, f k = 0) -> list_sum (map f keys) = 0.
Proof.
  intros H. induction keys as [|x keys IH]; simpl; [reflexivity|].
  rewrite H, IH. reflexivity.
Qed.

Lemma keys_buildFrequency (tokens : list jsstring) (t : jsstring) :
  In t tokens -> In t (Obj.keys (buildFrequency tokens)).
Proof.
  intros H. unfold Obj.keys.
  apply (Permutation_in _ (Permutation_sym (Permutation_map fst (entries_perm _)))).
  destruct (buildFrequency_spec tokens) as [Hk _]. rewrite Hk.
  apply Set_of_In. exact H.
Qed.

(** A document with at least one token has a non-zero norm. *)
Lemma exact_sums_self (tokens : list jsstring) :
  tokens <> [] ->
  exists n, 1 <= n
            /\ exact_sums (buildFrequency tokens) (buildFrequency tokens) = (n, n, n).
Proof.
  intros Hne.
  destruct tokens as [|t tokens]; [congruence|].
  set (l := t :: tokens) in *.
  unfold exact_sums. eexists. split; [|reflexivity].
  assert (Hin : In t (cosine_keys (buildFrequency l) (buildFrequency l))).
  { unfold cosine_keys. apply Set_of_In. apply in_or_app. left.
    apply keys_buildFrequency. left. reflexivity. }
  apply (list_sum_In (fun k => b_of (buildFrequency l) k * b_of (buildFrequency l) k)) in Hin.
  cbv beta in Hin.
  assert (Hb : b_of (buildFrequency l) t = occ t l) by apply buildFrequency_get.
  rewrite Hb in Hin.
  assert (Ho : 1 <= occ t l) by (apply occ_pos; left; reflexivity).
  nia.
Qed.

(** An empty frequency map contributes the count 0 at every key. *)
Lemma get_or_0_nil (k : jsstring) : Obj.get_or_0 [] k = 0.
Proof. reflexivity. Qed.

(** ** Arithmetic under the standard model *)

Unset Implicit Arguments.

Module Bounds.

Import Rounded.

Local Open Scope R_scope.

Lemma u_le_eps : u <= eps.
Proof. unfold u, eps. apply Rinv_le_contravar; lra. Qed.

Lemma eps_pos : 0 < eps.
Proof. unfold eps. apply Rinv_0_lt_compat. lra. Qed.

(** Bernoulli's inequality and its companion for small [n * x]. *)
Lemma pow_lower (x : R) (n : nat) : 0 <= x <= 1 -> 1 - INR n * x <= (1 - x) ^ n.
Proof.
  intros Hx. induction n as [|n IH]; [simpl; lra|].
  rewrite S_INR. cbn [pow].
  assert (Hp : 0 <= (1 - x) ^ n) by (apply pow_le; lra).
  pose proof (pos_INR n) as Hn.
  destruct (Rle_dec (INR n * x) 1) as [H1|H1].
  - apply Rle_trans with ((1 - x) * (1 - INR n * x)).
    + assert (0 <= INR n * x * x) by (apply Rmult_le_pos; [apply Rmult_le_pos|]; lra).
      lra.
    + apply Rmult_le_compat_l; lra.
  - assert (0 <= (1 - x) * (1 - x) ^ n) by (apply Rmult_le_pos; lra). lra.
Qed.

Lemma pow_upper (x : R) (n : nat) :
  0 <= x -> INR n * x <= / 2 -> (1 + x) ^ n <= 1 + 2 * INR n * x.
Proof.
  intros Hx. induction n as [|n IH]; intros Hn; [simpl; lra|].
  rewrite S_INR in *. cbn [pow].
  pose proof (pos_INR n) as Hn0.
  assert (Hnx : 0 <= INR n * x) by (apply Rmult_le_pos; lra).
  assert (IH' : (1 + x) ^ n <= 1 + 2 * INR n * x) by (apply IH; lra).
  apply Rle_trans with ((1 + x) * (1 + 2 * INR n * x)).
  - apply Rmult_le_compat_l; lra.
  - assert (H2 : INR n * x * x <= / 2 * x) by (apply Rmult_le_compat_r; lra).
    lra.
Qed.

Lemma pow_ge_1 (x : R) (n : nat) : 0 <= x -> 1 <= (1 + x) ^ n.
Proof. intros H. apply pow_R1_Rle. lra. Qed.

Lemma pow_le_1 (x : R) (n : nat) : 0 <= x <= 1 -> 0 <= (1 - x) ^ n <= 1.
Proof.
  intros H. induction n as [|n IH]; cbn [pow]; [lra|].
  split; [apply Rmult_le_pos; lra|].
  apply Rle_trans with (1 * (1 - x) ^ n); [apply Rmult_le_compat_r; lra | lra].
Qed.

Section Model.

Variable rnd : R -> R.
Hypothesis Hstd : StandardModel rnd.

Lemma rnd_Z (n : Z) : (Z.abs n <= 2 ^ 53)%Z -> rnd (IZR n) = IZR n.
Proof. apply (rnd_integer Hstd). Qed.

Lemma rnd_0 : rnd 0 = 0.
Proof. apply (rnd_Z 0). vm_compute. discriminate. Qed.

Lemma rnd_1 : rnd 1 = 1.
Proof. apply (rnd_Z 1). vm_compute. discriminate. Qed.

Lemma rnd_100 : rnd 100 = 100.
Proof. apply (rnd_Z 100). vm_compute. discriminate. Qed.

Lemma rnd_nonneg (x : R) : 0 <= x -> 0 <= rnd x.
Proof. intros H. rewrite <- rnd_0. apply (rnd_monotone Hstd). exact H. Qed.

Lemma rnd_near (x : R) : / 4 <= x -> x * (1 - eps) <= rnd x <= x * (1 + eps).
Proof.
  intros Hx. pose proof (rnd_error Hstd Hx) as He.
  pose proof u_le_eps as Hu.
  assert (Hux : u * x <= eps * x) by (apply Rmult_le_compat_r; lra).
  unfold Rabs in He. destruct (Rcase_abs (rnd x - x)); lra.
Qed.

Lemma rnd_up (x b : R) : x <= b -> / 4 <= b -> rnd x <= b * (1 + eps).
Proof.
  intros Hxb Hb. pose proof (rnd_monotone Hstd Hxb).
  pose proof (rnd_near b Hb). lra.
Qed.

Lemma rnd_lo (x b : R) : b <= x -> / 4 <= b -> b * (1 - eps) <= rnd x.
Proof.
  intros Hxb Hb. pose proof (rnd_monotone Hstd Hxb).
  pose proof (rnd_near b Hb). lra.
Qed.

Lemma rnd_ge_1 (x : R) : 1 <= x -> 1 <= rnd x.
Proof. intros H. rewrite <- rnd_1. apply (rnd_monotone Hstd). exact H. Qed.

(** A number that is 0 or at least 1 is rounded with a small relative
    error to a number that is 0 or at least 1. *)
Lemma rnd_near_01 (x : R) :
  x = 0 \/ 1 <= x ->
  x * (1 - eps) <= rnd x <= x * (1 + eps) /\ (rnd x = 0 \/ 1 <= rnd x).
Proof.
  intros [->|H].
  - rewrite rnd_0. split; [lra | left; reflexivity].
  - split; [apply rnd_near; lra | right; apply rnd_ge_1; exact H].
Qed.

Lemma rnd_INR (n : nat) : (Z.of_nat n <= 2 ^ 53)%Z -> rnd (INR n) = INR n.
Proof. intros H. rewrite INR_IZR_INZ. apply rnd_Z. lia. Qed.

(** With the small-error clause the rounding error is bounded on every
    interval [0, b]. *)
Lemma rnd_within (x b : R) :
  SmallError rnd -> 0 <= x <= b -> / 4 <= b -> Rabs (rnd x - x) <= eps * b.
Proof.
  intros Hsmall Hx Hb. pose proof u_le_eps as Hu.
  assert (Hu0 : 0 < u) by (unfold u; apply Rinv_0_lt_compat; lra).
  destruct (Rle_dec x (/ 4)) as [H|H].
  - apply Rle_trans with (u * / 4); [apply Hsmall; lra|].
    apply Rmult_le_compat; lra.
  - apply Rle_trans with (u * x); [apply (rnd_error Hstd); lra|].
    apply Rmult_le_compat; lra.
Qed.

End Model.

End Bounds.

(** ** Sums accumulated with rounding *)

Section RoundedSums.

Import Rounded Bounds.

Local Open Scope R_scope.

Variable rnd : R -> R.
Hypothesis Hstd : StandardModel rnd.

Lemma rounded_sum_fold (l : list nat) (acc : R) :
  fold_left (add (Number := Rounded.number rnd)) (map (fun n => rnd (INR n)) l) acc
  = fold_left (fun a n => rnd (a + rnd (INR n))) l acc.
Proof.
  revert acc. induction l as [|n l IH]; intros acc; [reflexivity|].
  cbn [map fold_left]. rewrite IH. reflexivity.
Qed.

Lemma INR_0_or_ge_1 (n : nat) : INR n = 0 \/ 1 <= INR n.
Proof.
  destruct n as [|n]; [left; reflexivity|right].
  change 1 with (INR 1). apply le_INR. lia.
Qed.

(** One step of the accumulation costs two roundings. *)
Lemma rounded_step (acc : R) (A n e : nat) :
  INR A * (1 - eps) ^ e <= acc <= INR A * (1 + eps) ^ e ->
  acc = 0 \/ 1 <= acc ->
  let acc' := rnd (acc + rnd (INR n)) in
  INR (A + n) * (1 - eps) ^ (e + 2) <= acc' <= INR (A + n) * (1 + eps) ^ (e + 2)
  /\ (acc' = 0 \/ 1 <= acc').
Proof.
  intros Hacc H01 acc'.
  pose proof eps_pos as He. assert (He1 : eps <= / 10 ^ 15) by (unfold eps; lra).
  destruct (rnd_near_01 rnd Hstd (INR n) (INR_0_or_ge_1 n)) as [Ht Ht01].
  set (t := rnd (INR n)) in *.
  pose proof (pos_INR n) as Hn. pose proof (pos_INR A) as HA.
  assert (Ht0 : 0 <= t) by (destruct Ht01; lra).
  assert (Hacc0 : 0 <= acc) by (destruct H01; lra).
  assert (Hx01 : acc + t = 0 \/ 1 <= acc + t).
  { destruct H01 as [->|H1]; [destruct Ht01 as [->|H2]|]; [left|right|right]; lra. }
  destruct (rnd_near_01 rnd Hstd (acc + t) Hx01) as [Hx Hx01'].
  split; [|exact Hx01'].
  rewrite plus_INR, !pow_add. cbn [pow]. rewrite !Rmult_1_r.
  pose proof (pow_ge_1 eps e (Rlt_le _ _ He)) as Hh.
  pose proof (pow_le_1 eps e ltac:(lra)) as Hl.
  set (h := (1 + eps) ^ e) in *. set (l := (1 - eps) ^ e) in *.
  fold acc'.
  assert (HAl : 0 <= INR A * l) by (apply Rmult_le_pos; lra).
  assert (HAh : 0 <= INR A * h) by (apply Rmult_le_pos; lra).
  split.
  - apply Rle_trans with ((acc + t) * (1 - eps)); [|apply Hx].
    apply Rle_trans with ((INR A * l + INR n * (1 - eps)) * (1 - eps)).
    + assert (H1 : INR A * l * ((1 - eps) * (1 - eps)) <= INR A * l * (1 - eps)).
      { apply Rmult_le_compat_l; [exact HAl|]. nra. }
      assert (H2 : INR n * ((1 - eps) * (1 - eps)) * l
                   <= INR n * ((1 - eps) * (1 - eps)) * 1).
      { apply Rmult_le_compat_l; [|lra]. apply Rmult_le_pos; [lra|nra]. }
      replace ((INR A + INR n) * (l * ((1 - eps) * (1 - eps))))
        with (INR A * l * ((1 - eps) * (1 - eps))
              + INR n * ((1 - eps) * (1 - eps)) * l) by ring.
      lra.
    + apply Rmult_le_compat_r; lra.
  - apply Rle_trans with ((acc + t) * (1 + eps)); [apply Hx|].
    apply Rle_trans with ((INR A * h + INR n * (1 + eps)) * (1 + eps)).
    + apply Rmult_le_compat_r; lra.
    + assert (H1 : INR A * h * (1 + eps) <= INR A * h * ((1 + eps) * (1 + eps))).
      { apply Rmult_le_compat_l; [exact HAh|]. nra. }
      assert (H2 : INR n * ((1 + eps) * (1 + eps)) * 1
                   <= INR n * ((1 + eps) * (1 + eps)) * h).
      { apply Rmult_le_compat_l; [|lra]. apply Rmult_le_pos; [lra|nra]. }
      replace ((INR A + INR n) * (h * ((1 + eps) * (1 + eps))))
        with (INR A * h * ((1 + eps) * (1 + eps))
              + INR n * ((1 + eps) * (1 + eps)) * h) by ring.
      lra.
Qed.

Lemma rounded_fold_bounds (l : list nat) :
  forall (acc : R) (A e : nat),
    INR A * (1 - eps) ^ e <= acc <= INR A * (1 + eps) ^ e ->
    acc = 0 \/ 1 <= acc ->
    let r := fold_left (fun a n => rnd (a + rnd (INR n))) l acc in
    INR (A + list_sum l) * (1 - eps) ^ (e + 2 * length l) <= r
    <= INR (A + list_sum l) * (1 + eps) ^ (e + 2 * length l)
    /\ (r = 0 \/ 1 <= r).
Proof.
  induction l as [|n l IH]; intros acc A e Hacc H01.
  - cbn [fold_left list_sum length]. rewrite Nat.add_0_r, Nat.mul_0_r, Nat.add_0_r.
    split; assumption.
  - cbn [fold_left list_sum length].
    destruct (rounded_step acc A n e Hacc H01) as [Hacc' H01'].
    specialize (IH _ _ _ Hacc' H01').
    change (list_sum (n :: l)) with (n + list_sum l)%nat.
    replace (A + (n + list_sum l))%nat with (A + n + list_sum l)%nat by lia.
    replace (e + 2 * S (length l))%nat with (e + 2 + 2 * length l)%nat by lia.
    exact IH.
Qed.

(** The rounded sum of [k] integers lies within a factor
    [(1 - eps)^(2k)] .. [(1 + eps)^(2k)] of the exact sum, and it is 0 or at
    least 1 according to whether the exact sum is. *)
Lemma rounded_sum_bounds (l : list nat) :
  let r := rounded_sum rnd l in
  INR (list_sum l) * (1 - eps) ^ (2 * length l) <= r
  <= INR (list_sum l) * (1 + eps) ^ (2 * length l)
  /\ (list_sum l = 0%nat -> r = 0)
  /\ (list_sum l <> 0%nat -> 1 <= r).
Proof.
  intros r. unfold rounded_sum, sum_in in r. subst r.
  rewrite rounded_sum_fold.
  destruct (rounded_fold_bounds l (INR 0) 0 0) as [Hb H01].
  { cbn [INR pow]. lra. }
  { left. reflexivity. }
  cbn [plus] in Hb. cbv zeta in Hb, H01.
  change (of_nat (Number := Rounded.number rnd) 0) with (INR 0).
  set (r := fold_left _ l (INR 0)) in *.
  split; [exact Hb|].
  pose proof eps_pos as He. assert (He1 : eps <= / 10 ^ 15) by (unfold eps; lra).
  split.
  - intros Hz. rewrite Hz in Hb. cbn [INR] in Hb. lra.
  - intros Hnz. destruct H01 as [H0|H1]; [|exact H1].
    exfalso. rewrite H0 in Hb.
    assert (Hp : 0 < (1 - eps) ^ (2 * length l)) by (apply pow_lt; lra).
    assert (Hs : 1 <= INR (list_sum l)).
    { change 1 with (INR 1). apply le_INR. lia. }
    assert (0 < INR (list_sum l) * (1 - eps) ^ (2 * length l))
      by (apply Rmult_lt_0_compat; lra).
    lra.
Qed.

(** No rounding takes place while the sum stays within 2^53. *)
Lemma rounded_sum_exact (l : list nat) :
  (Z.of_nat (list_sum l) <= 2 ^ 53)%Z -> rounded_sum rnd l = INR (list_sum l).
Proof.
  unfold rounded_sum, sum_in. rewrite rounded_sum_fold.
  change (of_nat (Number := Rounded.number rnd) 0) with (INR 0).
  assert (H : forall (A : nat),
             (Z.of_nat (A + list_sum l) <= 2 ^ 53)%Z ->
             fold_left (fun a n => rnd (a + rnd (INR n))) l (INR A)
             = INR (A + list_sum l)).
  { induction l as [|n l IH]; intros A HA; cbn [fold_left].
    - cbn. rewrite Nat.add_0_r. reflexivity.
    - change (list_sum (n :: l)) with (n + list_sum l)%nat in *.
      rewrite (rnd_INR rnd Hstd n) by lia.
      rewrite <- plus_INR, (rnd_INR rnd Hstd (A + n)) by lia.
      rewrite IH by lia. f_equal. lia. }
  intros Hl. apply (H 0%nat). exact Hl.
Qed.

End RoundedSums.

(** ** The cosine similarity under the standard model *)

Section CosineModel.

Import Rounded Bounds.

Local Open Scope R_scope.

Variable rnd : R -> R.
Hypothesis Hstd : StandardModel rnd.

Let NR : Number R := Rounded.number rnd.

#[local] Existing Instance NR.

Lemma sqrt_ge_1 (x : R) : 1 <= x -> 1 <= R_sqrt.sqrt x.
Proof.
  intros Hx. rewrite <- sqrt_1. apply sqrt_le_1; lra.
Qed.

Lemma INR_dot_le (dot normA normB : nat) :
  (dot * dot <= normA * normB)%nat ->
  INR dot <= R_sqrt.sqrt (INR normA) * R_sqrt.sqrt (INR normB).
Proof.
  intros H. apply le_INR in H. rewrite !mult_INR in H.
  rewrite <- sqrt_mult by apply pos_INR.
  rewrite <- (sqrt_square (INR dot)) by apply pos_INR.
  apply sqrt_le_1; [| |exact H].
  - apply Rmult_le_pos; apply pos_INR.
  - apply Rmult_le_pos; apply pos_INR.
Qed.

(** The three accumulators are the rounded sums of the integer products. *)
Lemma cosine_sums_model (freqA freqB : Obj.obj) :
  cosine_sums freqA freqB
  = (rounded_sum rnd (map (fun k => a_of freqA k * b_of freqB k)%nat
                        (cosine_keys freqA freqB)),
     rounded_sum rnd (map (fun k => a_of freqA k * a_of freqA k)%nat
                        (cosine_keys freqA freqB)),
     rounded_sum rnd (map (fun k => b_of freqB k * b_of freqB k)%nat
                        (cosine_keys freqA freqB))).
Proof.
  rewrite cosine_sums_eq. unfold rounded_sum. rewrite !map_map.
  f_equal; [f_equal|]; f_equal; apply map_ext; intros k;
    cbn [mul of_nat NR number]; rewrite mult_INR; reflexivity.
Qed.

Lemma eqb_zero (x : R) : eqb x (of_nat 0) = true <-> x = 0.
Proof.
  cbn [eqb of_nat NR number INR].
  destruct (Req_dec_T x 0); split; congruence.
Qed.

Lemma eqb_nonzero (x : R) : 1 <= x -> eqb x (of_nat 0) = false.
Proof.
  intros H. destruct (eqb x (of_nat 0)) eqn:E; [|reflexivity].
  apply eqb_zero in E. lra.
Qed.

(** The divisor of the cosine similarity is at least 1 whenever the
    division is reached. *)
Lemma cosine_denominator_positive (normA normB : R) :
  1 <= normA -> 1 <= normB -> 1 <= mul (sqrt normA) (sqrt normB).
Proof.
  intros HA HB. cbn [mul sqrt NR number].
  apply (rnd_ge_1 rnd Hstd).
  pose proof (rnd_ge_1 rnd Hstd _ (sqrt_ge_1 normA HA)).
  pose proof (rnd_ge_1 rnd Hstd _ (sqrt_ge_1 normB HB)).
  nra.
Qed.

(** The quotient, for a dot product within a factor [kappa] of the product
    of the square roots of the norms. *)
Lemma quotient_range (dot normA normB kappa : R) :
  0 <= dot -> 1 <= normA -> 1 <= normB -> 1 <= kappa <= 2 ->
  dot <= kappa * (R_sqrt.sqrt normA * R_sqrt.sqrt normB) ->
  0 <= div dot (mul (sqrt normA) (sqrt normB)) <= kappa * ((1 + 4 * eps) * (1 + eps)).
Proof.
  intros Hdot0 HA HB Hk Hdot. cbn [div mul sqrt NR number].
  pose proof eps_pos as He. assert (He' : eps <= / 10 ^ 15) by (unfold eps; lra).
  pose proof (sqrt_ge_1 normA HA) as Ha.
  pose proof (sqrt_ge_1 normB HB) as Hb.
  set (a := R_sqrt.sqrt normA) in *.
  set (b := R_sqrt.sqrt normB) in *.
  assert (HsA : a * (1 - eps) <= rnd a) by (apply (rnd_lo rnd Hstd); lra).
  assert (HsB : b * (1 - eps) <= rnd b) by (apply (rnd_lo rnd Hstd); lra).
  pose proof (rnd_ge_1 rnd Hstd a Ha) as HsA1.
  pose proof (rnd_ge_1 rnd Hstd b Hb) as HsB1.
  assert (HP : a * b * ((1 - eps) * (1 - eps)) <= rnd a * rnd b).
  { replace (a * b * ((1 - eps) * (1 - eps))) with ((a * (1 - eps)) * (b * (1 - eps))) by ring.
    apply Rmult_le_compat; nra. }
  assert (HP1 : 1 <= rnd a * rnd b) by nra.
  set (P := rnd a * rnd b) in *.
  assert (Hd : P * (1 - eps) <= rnd P) by (apply (rnd_lo rnd Hstd); lra).
  pose proof (rnd_ge_1 rnd Hstd P HP1) as Hd1.
  set (d := rnd P) in *.
  assert (Hab : 0 <= a * b) by nra.
  assert (Hd3 : a * b * ((1 - eps) * (1 - eps) * (1 - eps)) <= d).
  { apply Rle_trans with (P * (1 - eps)); [|exact Hd].
    replace (a * b * ((1 - eps) * (1 - eps) * (1 - eps)))
      with (a * b * ((1 - eps) * (1 - eps)) * (1 - eps)) by ring.
    apply Rmult_le_compat_r; lra. }
  assert (Hq0 : 0 <= dot / d).
  { apply Rmult_le_pos; [exact Hdot0|].
    apply Rlt_le, Rinv_0_lt_compat. lra. }
  assert (Hq : dot / d <= kappa * (1 + 4 * eps)).
  { apply Rmult_le_reg_r with d; [lra|].
    unfold Rdiv. rewrite Rmult_assoc, Rinv_l, Rmult_1_r by lra.
    assert (Hc : 1 <= (1 + 4 * eps) * ((1 - eps) * (1 - eps) * (1 - eps))) by nra.
    apply Rle_trans with (kappa * (a * b)); [exact Hdot|].
    rewrite Rmult_assoc. apply Rmult_le_compat_l; [lra|].
    apply Rle_trans with ((1 + 4 * eps) * (a * b * ((1 - eps) * (1 - eps) * (1 - eps)))).
    - replace ((1 + 4 * eps) * (a * b * ((1 - eps) * (1 - eps) * (1 - eps))))
        with (a * b * ((1 + 4 * eps) * ((1 - eps) * (1 - eps) * (1 - eps)))) by ring.
      rewrite <- (Rmult_1_r (a * b)) at 1.
      apply Rmult_le_compat_l; [exact Hab | exact Hc].
    - apply Rmult_le_compat_l; lra. }
  split.
  - apply (rnd_nonneg rnd Hstd). exact Hq0.
  - rewrite <- Rmult_assoc. apply (rnd_up rnd Hstd); [exact Hq | nra].
Qed.

(** What [cosineSimilarity] computes, by the exact sums: 0 when a norm
    is 0, and otherwise the rounded quotient of the rounded sums, whose
    norms are at least 1. *)
Lemma cosineSimilarity_cases (freqA freqB : Obj.obj) :
  forall D NA NB d na nb,
    exact_sums freqA freqB = (D, NA, NB) ->
    cosine_sums freqA freqB = (d, na, nb) ->
    (NA = 0%nat \/ NB = 0%nat -> cosineSimilarity freqA freqB = 0)
    /\ (NA <> 0%nat -> NB <> 0%nat ->
        1 <= na /\ 1 <= nb
        /\ cosineSimilarity freqA freqB = div d (mul (sqrt na) (sqrt nb))).
Proof.
  intros D NA NB d na nb Hex Hs.
  rewrite cosine_sums_model in Hs. unfold exact_sums in Hex.
  injection Hex as HD HNA HNB. injection Hs as Hd Hna Hnb.
  destruct (rounded_sum_bounds rnd Hstd
              (map (fun k => a_of freqA k * a_of freqA k)%nat (cosine_keys freqA freqB)))
    as (_ & HA0 & HA1).
  destruct (rounded_sum_bounds rnd Hstd
              (map (fun k => b_of freqB k * b_of freqB k)%nat (cosine_keys freqA freqB)))
    as (_ & HB0 & HB1).
  cbv zeta in HA0, HA1, HB0, HB1. rewrite HNA, Hna in HA0, HA1. rewrite HNB, Hnb in HB0, HB1.
  assert (Hu : cosineSimilarity freqA freqB
               = if eqb na (of_nat 0) || eqb nb (of_nat 0) then of_nat 0
                 else div d (mul (sqrt na) (sqrt nb))).
  { unfold cosineSimilarity. rewrite cosine_sums_model, Hd, Hna, Hnb. reflexivity. }
  split.
  - intros [H|H]; rewrite Hu.
    + rewrite (proj2 (eqb_zero na) (HA0 H)). reflexivity.
    + rewrite (proj2 (eqb_zero nb) (HB0 H)), orb_true_r. reflexivity.
  - intros HA HB. specialize (HA1 HA). specialize (HB1 HB).
    split; [exact HA1|]. split; [exact HB1|].
    rewrite Hu, (eqb_nonzero na HA1), (eqb_nonzero nb HB1). reflexivity.
Qed.

Lemma exact_sums_dot_le (freqA freqB : Obj.obj) (D NA NB : nat) :
  exact_sums freqA freqB = (D, NA, NB) ->
  INR D <= R_sqrt.sqrt (INR NA) * R_sqrt.sqrt (INR NB).
Proof.
  intros H. pose proof (exact_sums_cauchy_schwarz freqA freqB) as Hcs.
  rewrite H in Hcs. apply INR_dot_le. exact Hcs.
Qed.

(** With at most 2^33 keys the accumulated rounding errors stay small:
    the similarity exceeds 1 by less than 6e-5. *)
Lemma cosine_range (freqA freqB : Obj.obj) :
  INR (length (cosine_keys freqA freqB)) <= 2 ^ 33 ->
  0 <= cosineSimilarity freqA freqB <= 1 + 6 / 10 ^ 5.
Proof.
  intros Hk.
  destruct (exact_sums freqA freqB) as [[D NA] NB] eqn:Hex.
  destruct (cosine_sums freqA freqB) as [[d na] nb] eqn:Hs.
  destruct (cosineSimilarity_cases freqA freqB D NA NB d na nb Hex Hs) as [Hz Hnz].
  destruct (Nat.eq_dec NA 0) as [HA|HA]; [rewrite Hz by (left; exact HA); lra|].
  destruct (Nat.eq_dec NB 0) as [HB|HB]; [rewrite Hz by (right; exact HB); lra|].
  destruct (Hnz HA HB) as (Hna1 & Hnb1 & ->). clear Hz Hnz.
  pose proof (exact_sums_dot_le freqA freqB D NA NB Hex) as Hdot.
  rewrite cosine_sums_model in Hs. unfold exact_sums in Hex.
  injection Hex as HD HNA HNB. injection Hs as Hd Hna Hnb.
  set (keys := cosine_keys freqA freqB) in *.
  pose proof eps_pos as He. assert (He' : eps <= / 10 ^ 15) by (unfold eps; lra).
  set (e := (2 * length keys)%nat).
  assert (He2 : INR e <= 2 ^ 34).
  { unfold e. rewrite mult_INR. change (INR 2) with 2. lra. }
  pose proof (pos_INR e) as He0.
  assert (Hee : INR e * eps <= 2 ^ 34 * / 10 ^ 15).
  { apply Rmult_le_compat; lra. }
  assert (HH : (1 + eps) ^ e <= 1 + 344 / 10 ^ 7).
  { apply Rle_trans with (1 + 2 * INR e * eps); [apply pow_upper; lra | lra]. }
  assert (HL : 1 - 172 / 10 ^ 7 <= (1 - eps) ^ e).
  { apply Rle_trans with (1 - INR e * eps); [lra | apply pow_lower; lra]. }
  pose proof (pow_le_1 eps e ltac:(lra)) as HL1.
  pose proof (pow_ge_1 eps e (Rlt_le _ _ He)) as HH1.
  set (H := (1 + eps) ^ e) in *. set (L := (1 - eps) ^ e) in *.
  destruct (rounded_sum_bounds rnd Hstd (map (fun k => a_of freqA k * b_of freqB k)%nat keys))
    as ([Hd_lo Hd_hi] & _ & _).
  destruct (rounded_sum_bounds rnd Hstd (map (fun k => a_of freqA k * a_of freqA k)%nat keys))
    as ([Ha_lo _] & _ & _).
  destruct (rounded_sum_bounds rnd Hstd (map (fun k => b_of freqB k * b_of freqB k)%nat keys))
    as ([Hb_lo _] & _ & _).
  cbv zeta in Hd_lo, Hd_hi, Ha_lo, Hb_lo.
  rewrite length_map in Hd_lo, Hd_hi, Ha_lo, Hb_lo. fold e H L in Hd_lo, Hd_hi, Ha_lo, Hb_lo.
  rewrite HD, Hd in Hd_lo, Hd_hi. rewrite HNA, Hna in Ha_lo. rewrite HNB, Hnb in Hb_lo.
  pose proof (pos_INR D) as HD0. pose proof (pos_INR NA) as HNA0.
  pose proof (pos_INR NB) as HNB0.
  assert (Hd0 : 0 <= d).
  { apply Rle_trans with (INR D * L); [apply Rmult_le_pos; lra | exact Hd_lo]. }
  set (S := R_sqrt.sqrt (INR NA) * R_sqrt.sqrt (INR NB)) in *.
  assert (HS0 : 0 <= S) by (apply Rmult_le_pos; apply sqrt_pos).
  assert (Hroots : S * L <= R_sqrt.sqrt na * R_sqrt.sqrt nb).
  { rewrite <- (sqrt_sqrt L) at 1 by lra.
    replace (S * (R_sqrt.sqrt L * R_sqrt.sqrt L))
      with ((R_sqrt.sqrt (INR NA) * R_sqrt.sqrt L) * (R_sqrt.sqrt (INR NB) * R_sqrt.sqrt L))
      by (unfold S; ring).
    rewrite <- !sqrt_mult by lra.
    apply Rmult_le_compat; try apply sqrt_pos.
    - apply sqrt_le_1; [apply Rmult_le_pos; lra | lra | exact Ha_lo].
    - apply sqrt_le_1; [apply Rmult_le_pos; lra | lra | exact Hb_lo]. }
  set (kappa := 1 + 52 / 10 ^ 6).
  assert (Hkap : d <= kappa * (R_sqrt.sqrt na * R_sqrt.sqrt nb)).
  { apply Rle_trans with (INR D * H); [exact Hd_hi|].
    apply Rle_trans with (S * (1 + 344 / 10 ^ 7)).
    { apply Rmult_le_compat; lra. }
    apply Rle_trans with (kappa * (S * L)).
    { apply Rle_trans with (kappa * (S * (1 - 172 / 10 ^ 7))).
      - unfold kappa. nra.
      - apply Rmult_le_compat_l; [unfold kappa; lra|].
        apply Rmult_le_compat_l; lra. }
    apply Rmult_le_compat_l; [unfold kappa; lra | exact Hroots]. }
  destruct (quotient_range d na nb kappa Hd0 Hna1 Hnb1 ltac:(unfold kappa; lra) Hkap)
    as [Hq0 Hq1].
  split; [exact Hq0|].
  apply Rle_trans with (kappa * ((1 + 4 * eps) * (1 + eps))); [exact Hq1|].
  unfold kappa. nra.
Qed.

(** While the norms stay within 2^53 the three sums are exact, and the
    similarity exceeds 1 by a few units of roundoff at most. *)
Lemma cosine_range_exact (freqA freqB : Obj.obj) (D NA NB : nat) :
  exact_sums freqA freqB = (D, NA, NB) ->
  (Z.of_nat NA <= 2 ^ 53)%Z -> (Z.of_nat NB <= 2 ^ 53)%Z ->
  cosine_sums freqA freqB = (INR D, INR NA, INR NB)
  /\ 0 <= cosineSimilarity freqA freqB <= (1 + 4 * eps) * (1 + eps).
Proof.
  intros Hex HA HB.
  pose proof (exact_sums_cauchy_schwarz freqA freqB) as Hcs. rewrite Hex in Hcs.
  assert (HD : (Z.of_nat D <= 2 ^ 53)%Z).
  { apply Z.square_le_simpl_nonneg; [lia|].
    apply Z.le_trans with (Z.of_nat NA * Z.of_nat NB)%Z; [nia|].
    apply Z.mul_le_mono_nonneg; lia. }
  pose proof (exact_sums_dot_le freqA freqB D NA NB Hex) as Hdot.
  assert (Hs : cosine_sums freqA freqB = (INR D, INR NA, INR NB)).
  { rewrite cosine_sums_model. unfold exact_sums in Hex. injection Hex as <- <- <-.
    rewrite !(rounded_sum_exact rnd Hstd) by assumption. reflexivity. }
  split; [exact Hs|].
  destruct (cosineSimilarity_cases freqA freqB D NA NB _ _ _ Hex Hs) as [Hz Hnz].
  pose proof eps_pos as He. assert (He' : eps <= / 10 ^ 15) by (unfold eps; lra).
  destruct (Nat.eq_dec NA 0) as [HA0|HA0]; [rewrite Hz by (left; exact HA0); nra|].
  destruct (Nat.eq_dec NB 0) as [HB0|HB0]; [rewrite Hz by (right; exact HB0); nra|].
  destruct (Hnz HA0 HB0) as (Hna1 & Hnb1 & ->).
  destruct (quotient_range (INR D) (INR NA) (INR NB) 1 (pos_INR D) Hna1 Hnb1
              ltac:(lra) ltac:(lra)) as [Hq0 Hq1].
  split; [exact Hq0 | lra].
Qed.

End CosineModel.

(** ** The score under the standard model *)

Section ScoreModel.

Import Rounded Bounds.

Local Open Scope R_scope.

Variable rnd : R -> R.
Hypothesis Hstd : StandardModel rnd.

Let NR : Number R := Rounded.number rnd.

#[local] Existing Instance NR.

Lemma INR_100 : INR 100 = 100.
Proof. rewrite INR_IZR_INZ. reflexivity. Qed.

Lemma overlap_range (jdKeywords resumeKeywords : list jsstring) :
  0 <= overlapPct (matchKeywords jdKeywords resumeKeywords) <= 100.
Proof.
  destruct (matchKeywords_fields (num := NR) jdKeywords resumeKeywords)
    as (Hm & _ & _ & _ & Ho).
  cbv zeta in Hm, Ho. rewrite Ho, Hm.
  set (j := length (Set_of jdKeywords)).
  set (m := length (filter (has (Set_of resumeKeywords)) (Set_of jdKeywords))).
  assert (Hmj : (m <= j)%nat) by apply filter_length_le.
  destruct (j =? 0)%nat eqn:E; [cbn; lra|].
  apply Nat.eqb_neq in E. cbn [mul div of_nat NR number]. rewrite INR_100.
  assert (Hj : 0 < INR j) by (apply lt_0_INR; lia).
  assert (Hq : 0 <= INR m / INR j <= 1).
  { split.
    - apply Rmult_le_pos; [apply pos_INR | apply Rlt_le, Rinv_0_lt_compat; exact Hj].
    - apply Rmult_le_reg_r with (INR j); [exact Hj|].
      unfold Rdiv. rewrite Rmult_assoc, Rinv_l, Rmult_1_r, Rmult_1_l by lra.
      apply le_INR. exact Hmj. }
  assert (Hr : 0 <= rnd (INR m / INR j) <= 1).
  { split; [apply (rnd_nonneg rnd Hstd); lra|].
    rewrite <- (rnd_1 rnd Hstd). apply (rnd_monotone Hstd). lra. }
  split; [apply (rnd_nonneg rnd Hstd); nra|].
  rewrite <- (rnd_100 rnd Hstd) at 2. apply (rnd_monotone Hstd). nra.
Qed.

Lemma semanticWeight_near :
  0.6 * (1 - eps) <= semanticWeight <= 0.6 * (1 + eps).
Proof.
  unfold semanticWeight. cbn.
  replace (6 / 10) with 0.6 by lra. apply (rnd_near rnd Hstd). lra.
Qed.

Lemma keywordWeight_near :
  0.4 * (1 - eps) <= keywordWeight <= 0.4 * (1 + eps).
Proof.
  unfold keywordWeight. cbn.
  replace (4 / 10) with 0.4 by lra. apply (rnd_near rnd Hstd). lra.
Qed.

Lemma Int_part_between (y : R) (lo hi : Z) :
  IZR lo <= y -> y < IZR hi + 1 -> (lo <= Int_part y <= hi)%Z.
Proof.
  intros Hlo Hhi. destruct (base_Int_part y) as [H1 H2].
  split.
  - assert (H : IZR lo < IZR (Int_part y + 1)) by (rewrite plus_IZR; lra).
    apply lt_IZR in H. lia.
  - assert (H : IZR (Int_part y) < IZR (hi + 1)) by (rewrite plus_IZR; lra).
    apply lt_IZR in H. lia.
Qed.

Lemma mul_bounds (x y X Y : R) :
  0 <= x <= X -> 0 <= y <= Y -> 0 <= x * y <= X * Y.
Proof.
  intros Hx Hy. split.
  - apply Rmult_le_pos; lra.
  - apply Rmult_le_compat; lra.
Qed.

Lemma mul_lower (x y X Y : R) :
  0 <= X <= x -> 0 <= Y <= y -> X * Y <= x * y.
Proof. intros Hx Hy. apply Rmult_le_compat; lra. Qed.

Lemma scaled_range (sem ov : R) :
  0 <= sem <= 1 + 6 / 10 ^ 5 -> 0 <= ov <= 100 ->
  0 <= scaled rnd sem ov < 10000 + / 2.
Proof.
  intros Hsem Hov. unfold scaled, finalScore.
  pose proof semanticWeight_near as H6. pose proof keywordWeight_near as H4.
  set (w6 := semanticWeight) in *. set (w4 := keywordWeight) in *.
  cbn [mul add of_nat NR number]. rewrite INR_100.
  assert (He : 0 < eps <= / 10 ^ 15) by (pose proof eps_pos; unfold eps in *; lra).
  set (S1 := 1 + 6 / 10 ^ 5) in *.
  assert (HS1 : 1 <= S1 <= 1 + 6 / 10 ^ 5) by (unfold S1; lra).
  (* sem * 100 *)
  assert (Hp1 : 0 <= rnd (sem * 100) <= 100 * S1 * (1 + eps)).
  { split; [apply (rnd_nonneg rnd Hstd); lra|].
    apply (rnd_up rnd Hstd); lra. }
  set (p1 := rnd (sem * 100)) in *.
  assert (Hm2 : 0 <= p1 * w6 <= 100 * S1 * (1 + eps) * (0.6 * (1 + eps))).
  { apply mul_bounds; lra. }
  assert (Hp2 : 0 <= rnd (p1 * w6) <= 100 * S1 * (1 + eps) * (0.6 * (1 + eps)) * (1 + eps)).
  { split; [apply (rnd_nonneg rnd Hstd); lra|].
    apply (rnd_up rnd Hstd); [lra|nra]. }
  set (p2 := rnd (p1 * w6)) in *.
  assert (Hm3 : 0 <= ov * w4 <= 100 * (0.4 * (1 + eps))).
  { apply mul_bounds; lra. }
  assert (Hp3 : 0 <= rnd (ov * w4) <= 100 * (0.4 * (1 + eps)) * (1 + eps)).
  { split; [apply (rnd_nonneg rnd Hstd); lra|].
    apply (rnd_up rnd Hstd); [lra|nra]. }
  set (p3 := rnd (ov * w4)) in *.
  assert (Hf : 0 <= rnd (p2 + p3) <= 100 + 37 / 10 ^ 4).
  { split; [apply (rnd_nonneg rnd Hstd); lra|].
    apply Rle_trans with ((100 + 361 / 10 ^ 5) * (1 + eps)); [|nra].
    apply (rnd_up rnd Hstd); [|lra]. nra. }
  set (f := rnd (p2 + p3)) in *.
  split; [apply (rnd_nonneg rnd Hstd); lra|].
  apply Rle_lt_trans with ((10000 + 37 / 10 ^ 2) * (1 + eps)); [|nra].
  apply (rnd_up rnd Hstd); lra.
Qed.

Lemma matchScore_range (sem ov : R) :
  0 <= sem <= 1 + 6 / 10 ^ 5 -> 0 <= ov <= 100 ->
  exists n : Z,
    (0 <= n <= 10000)%Z
    /\ n = Int_part (scaled rnd sem ov + / 2)
    /\ matchScore sem ov = rnd (IZR n / 100)
    /\ 0 <= matchScore sem ov <= 100.
Proof.
  intros Hsem Hov. pose proof (scaled_range sem ov Hsem Hov) as Hs.
  unfold matchScore.
  change (mul (finalScore sem ov) (of_nat 100)) with (scaled rnd sem ov).
  cbn [round div of_nat NR number]. unfold Math_round. rewrite INR_100.
  destruct (Int_part_between (scaled rnd sem ov + / 2) 0 10000) as [Hlo Hhi]; [lra|lra|].
  exists (Int_part (scaled rnd sem ov + / 2)).
  split; [lia|]. split; [reflexivity|]. split; [reflexivity|].
  apply IZR_le in Hlo, Hhi.
  set (n := IZR (Int_part (scaled rnd sem ov + / 2))) in *.
  split; [apply (rnd_nonneg rnd Hstd); lra|].
  apply Rle_trans with (rnd 100); [|rewrite (rnd_100 rnd Hstd); lra].
  apply (rnd_monotone Hstd). lra.
Qed.

(** *** Distance to the exact values *)

Hypothesis Hsmall : SmallError rnd.

Lemma rnd_about (x b : R) :
  0 <= x <= b -> / 4 <= b -> x - eps * b <= rnd x <= x + eps * b.
Proof.
  intros Hx Hb. pose proof (rnd_within rnd Hstd x b Hsmall Hx Hb) as H.
  unfold Rabs in H. destruct (Rcase_abs (rnd x - x)); lra.
Qed.

Lemma Rabs_both (x y : R) : Rabs x <= y -> - y <= x <= y.
Proof. unfold Rabs. destruct (Rcase_abs x); lra. Qed.

Lemma mul_about (x d X D : R) :
  0 <= x <= X -> - D <= d <= D -> - (X * D) <= x * d <= X * D.
Proof.
  intros Hx Hd.
  assert (HD : 0 <= D) by lra.
  assert (H1 : x * d <= x * D) by (apply Rmult_le_compat_l; lra).
  assert (H2 : x * (- D) <= x * d) by (apply Rmult_le_compat_l; lra).
  assert (H3 : x * D <= X * D) by (apply Rmult_le_compat_r; lra).
  lra.
Qed.

Lemma weights_about :
  0.6 - eps <= semanticWeight <= 0.6 + eps /\ 0.4 - eps <= keywordWeight <= 0.4 + eps.
Proof.
  unfold semanticWeight, keywordWeight. cbn.
  replace (6 / 10) with 0.6 by lra. replace (4 / 10) with 0.4 by lra.
  pose proof (rnd_about 0.6 1 ltac:(lra) ltac:(lra)).
  pose proof (rnd_about 0.4 1 ltac:(lra) ltac:(lra)). lra.
Qed.

(** [finalScore] is within 5e-13 of the exact weighted sum. *)
Lemma finalScore_about (sem ov : R) :
  0 <= sem <= 1 + 6 / 10 ^ 5 -> 0 <= ov <= 100 ->
  0 <= finalScore sem ov
  /\ Rabs (finalScore sem ov - (sem * 100 * 0.6 + ov * 0.4)) <= 5 / 10 ^ 13.
Proof.
  intros Hsem Hov. unfold finalScore.
  destruct weights_about as [H6 H4].
  set (w6 := semanticWeight) in *. set (w4 := keywordWeight) in *.
  cbn [mul add of_nat NR number]. rewrite INR_100.
  assert (He : 0 < eps <= / 10 ^ 15) by (pose proof eps_pos; unfold eps in *; lra).
  pose proof (rnd_about (sem * 100) 101 ltac:(lra) ltac:(lra)) as Hp1.
  assert (Hp1' : 0 <= rnd (sem * 100)) by (apply (rnd_nonneg rnd Hstd); lra).
  set (p1 := rnd (sem * 100)) in *.
  pose proof (mul_about p1 (w6 - 0.6) 101 eps ltac:(lra) ltac:(lra)) as Hm2.
  replace (p1 * (w6 - 0.6)) with (p1 * w6 - p1 * 0.6) in Hm2 by ring.
  assert (Hm2' : 0 <= p1 * w6) by (apply Rmult_le_pos; lra).
  pose proof (rnd_about (p1 * w6) 62 ltac:(lra) ltac:(lra)) as Hp2.
  assert (Hp2' : 0 <= rnd (p1 * w6)) by (apply (rnd_nonneg rnd Hstd); lra).
  set (p2 := rnd (p1 * w6)) in *.
  pose proof (mul_about ov (w4 - 0.4) 100 eps ltac:(lra) ltac:(lra)) as Hm3.
  replace (ov * (w4 - 0.4)) with (ov * w4 - ov * 0.4) in Hm3 by ring.
  assert (Hm3' : 0 <= ov * w4) by (apply Rmult_le_pos; lra).
  pose proof (rnd_about (ov * w4) 41 ltac:(lra) ltac:(lra)) as Hp3.
  assert (Hp3' : 0 <= rnd (ov * w4)) by (apply (rnd_nonneg rnd Hstd); lra).
  set (p3 := rnd (ov * w4)) in *.
  pose proof (rnd_about (p2 + p3) 103 ltac:(lra) ltac:(lra)) as Hf.
  split; [apply (rnd_nonneg rnd Hstd); lra|].
  apply Rabs_le. lra.
Qed.

(** [matchScore] is the rounding of [n / 100] for an integer [n] from 0
    to 10000 such that [n / 100] is within 0.005 + 1e-12 of the exact
    weighted sum. *)
Lemma matchScore_about (sem ov : R) :
  0 <= sem <= 1 + 6 / 10 ^ 5 -> 0 <= ov <= 100 ->
  exists n : Z,
    (0 <= n <= 10000)%Z
    /\ matchScore sem ov = rnd (IZR n / 100)
    /\ Rabs (IZR n / 100 - (sem * 100 * 0.6 + ov * 0.4)) <= / 200 + / 10 ^ 12
    /\ Rabs (matchScore sem ov - IZR n / 100) <= / 10 ^ 12
    /\ 0 <= matchScore sem ov <= 100.
Proof.
  intros Hsem Hov.
  destruct (matchScore_range sem ov Hsem Hov) as (n & Hn & Hnd & Hms & Hr).
  exists n. split; [exact Hn|]. split; [exact Hms|].
  destruct (finalScore_about sem ov Hsem Hov) as [Hf0 Hf].
  apply Rabs_both in Hf.
  assert (He : 0 < eps <= / 10 ^ 15) by (pose proof eps_pos; unfold eps in *; lra).
  unfold scaled in Hnd. cbn [mul of_nat NR number] in Hnd. rewrite INR_100 in Hnd.
  set (f := finalScore sem ov) in *.
  pose proof (rnd_about (f * 100) 10001 ltac:(lra) ltac:(lra)) as Hs.
  set (s := rnd (f * 100)) in *.
  destruct (base_Int_part (s + / 2)) as [H1 H2]. rewrite <- Hnd in H1, H2.
  destruct Hn as [Hn0 Hn1]. apply IZR_le in Hn0, Hn1.
  split; [apply Rabs_le; lra|]. split; [|exact Hr].
  rewrite Hms.
  pose proof (rnd_about (IZR n / 100) 100 ltac:(lra) ltac:(lra)) as Hq.
  apply Rabs_le. lra.
Qed.

(** [overlapPct] is within 3e-13 of [100 * m / j]. *)
Lemma overlap_about (m j : nat) :
  (m <= j)%nat -> j <> 0%nat ->
  Rabs (mul (div (of_nat m) (of_nat j)) (of_nat 100) - 100 * INR m / INR j)
  <= 3 / 10 ^ 13.
Proof.
  intros Hmj Hj0. cbn [mul div of_nat NR number]. rewrite INR_100.
  assert (He : 0 < eps <= / 10 ^ 15) by (pose proof eps_pos; unfold eps in *; lra).
  assert (Hj : 0 < INR j) by (apply lt_0_INR; lia).
  assert (Hq : 0 <= INR m / INR j <= 1).
  { split.
    - apply Rmult_le_pos; [apply pos_INR | apply Rlt_le, Rinv_0_lt_compat; exact Hj].
    - apply Rmult_le_reg_r with (INR j); [exact Hj|].
      unfold Rdiv. rewrite Rmult_assoc, Rinv_l, Rmult_1_r, Rmult_1_l by lra.
      apply le_INR. exact Hmj. }
  replace (100 * INR m / INR j) with (INR m / INR j * 100) by (unfold Rdiv; ring).
  set (q := INR m / INR j) in *.
  pose proof (rnd_about q 1 ltac:(lra) ltac:(lra)) as Hr.
  assert (Hr0 : 0 <= rnd q) by (apply (rnd_nonneg rnd Hstd); lra).
  pose proof (rnd_about (rnd q * 100) 101 ltac:(lra) ltac:(lra)) as Ho.
  apply Rabs_le. lra.
Qed.

End ScoreModel.

(** ** The pipeline on two strings *)

Lemma pipeline_string
  (F : Type) (num : Number F) (toLowerCase : jsstring -> jsstring)
  (jd resume : jsstring) :
  exists jdTokens resumeTokens,
    tokenize toLowerCase (VString jd) (Some 2%nat) = Ok jdTokens
    /\ tokenize toLowerCase (VString resume) (Some 2%nat) = Ok resumeTokens
    /\ pipeline (num := num) toLowerCase (VString jd) (VString resume)
       = let m := matchKeywords (extractTopKeywords jdTokens 200)
                    (extractTopKeywords resumeTokens 400) in
         let sem := cosineSimilarity (buildFrequency jdTokens)
                      (buildFrequency resumeTokens) in
         Ok {| match_score := matchScore sem (overlapPct m);
               semantic_similarity := sem;
               overlap_pct := overlapPct m;
               skills_matched := matched m;
               missing_skills := missing m;
               jd_skill_count := jdCount m;
               resume_skill_count := resumeCount m;
               feedback := generateFeedback (matchScore sem (overlapPct m))
                             (overlapPct m) (missing m) |}.
Proof.
  destruct (tokenize_string toLowerCase jd (Some 2%nat)) as (y1 & _ & _ & H1).
  destruct (tokenize_string toLowerCase resume (Some 2%nat)) as (y2 & _ & _ & H2).
  do 2 eexists. split; [exact H1|]. split; [exact H2|].
  unfold pipeline. rewrite H1, H2. reflexivity.
Qed.

(** A POST request is not a preflight request. *)
Lemma matchJDandResume_POST
  (F : Type) (num : Number F) (toLowerCase : jsstring -> jsstring) (req : request) :
  method req = utf16 "POST" ->
  matchJDandResume (num := num) toLowerCase req = onRequest (pipeline toLowerCase) req.
Proof.
  intros H. unfold matchJDandResume, cors, is_preflight. rewrite H. reflexivity.
Qed.

Lemma matchJDandResume_post
  (F : Type) (num : Number F) (toLowerCase : jsstring -> jsstring)
  (jd resume : jsstring) (r : response F) :
  jd <> [] -> resume <> [] ->
  pipeline toLowerCase (VString jd) (VString resume) = Ok r ->
  matchJDandResume (num := num) toLowerCase
    {| method := utf16 "POST";
       body := Some {| jd_text := VString jd; resume_text := VString resume |} |}
  = {| status := 200; json := ResultBody r |}.
Proof.
  intros Hjd Hres Hp. rewrite matchJDandResume_POST by reflexivity.
  unfold onRequest.
  cbn [method body jd_text resume_text]. rewrite str_eqb_refl. cbn [negb].
  destruct jd; [congruence|]. destruct resume; [congruence|].
  cbn [truthy negb orb]. rewrite Hp. reflexivity.
Qed.

(** The keys visited by the loop of [cosineSimilarity] are at most as many
    as the tokens of the two documents. *)
Lemma Set_of_length (l : list jsstring) : length (Set_of l) <= length l.
Proof.
  apply NoDup_incl_length; [apply Set_of_NoDup|].
  intros k Hk. apply Set_of_In. exact Hk.
Qed.

Lemma keys_length (tokens : list jsstring) :
  length (Obj.keys (buildFrequency tokens)) <= length tokens.
Proof.
  unfold Obj.keys. rewrite length_map, (Permutation_length (entries_perm _)).
  destruct (buildFrequency_spec tokens) as [Hk _].
  rewrite <- (length_map fst), Hk. apply Set_of_length.
Qed.

Lemma cosine_keys_length (tokensA tokensB : list jsstring) :
  length (cosine_keys (buildFrequency tokensA) (buildFrequency tokensB))
  <= length tokensA + length tokensB.
Proof.
  unfold cosine_keys.
  pose proof (Set_of_length (Obj.keys (buildFrequency tokensA)
                             ++ Obj.keys (buildFrequency tokensB))) as H.
  rewrite length_app in H.
  pose proof (keys_length tokensA). pose proof (keys_length tokensB). lia.
Qed.

(** ** Rounding operators that meet the model *)

Lemma exact_standard_model : Rounded.StandardModel (fun x => x).
Proof.
  constructor.
  - intros x y H. exact H.
  - intros n _. reflexivity.
  - intros x Hx. rewrite Rminus_diag, Rabs_R0.
    apply Rmult_le_pos; [|lra].
    unfold Rounded.u. apply Rlt_le, Rinv_0_lt_compat. lra.
Qed.

Lemma exact_small_error : Rounded.SmallError (fun x => x).
Proof.
  intros x _. rewrite Rminus_diag, Rabs_R0. unfold Rounded.u. lra.
Qed.

Lemma Int_part_le (x y : R) : (x <= y)%R -> (Int_part x <= Int_part y)%Z.
Proof.
  intros H. unfold Int_part.
  destruct (archimed x) as [Hx1 Hx2]. destruct (archimed y) as [Hy1 Hy2].
  assert (Hup : (up x < up y + 1)%Z); [|lia].
  apply lt_IZR. rewrite plus_IZR. lra.
Qed.

Lemma fixed_point_near (x : R) : (Rabs (fixed_point x - x) <= / 2 ^ 61)%R.
Proof.
  unfold fixed_point.
  destruct (base_Int_part (x * 2 ^ 60 + / 2)) as [H1 H2].
  set (n := IZR (Int_part (x * 2 ^ 60 + / 2))) in *.
  apply Rabs_le. lra.
Qed.

Lemma pow2_60 : (2 ^ 60)%R = IZR (2 ^ 60).
Proof. rewrite (pow_IZR 2 60). reflexivity. Qed.

Lemma fixed_point_standard_model : Rounded.StandardModel fixed_point.
Proof.
  constructor.
  - intros x y H. unfold fixed_point.
    apply Rmult_le_compat_r; [lra|].
    apply IZR_le, Int_part_le. lra.
  - intros n _. unfold fixed_point.
    replace (Int_part (IZR n * 2 ^ 60 + / 2)) with (n * 2 ^ 60)%Z.
    + rewrite mult_IZR, <- pow2_60. field.
    + apply Int_part_spec. rewrite mult_IZR, <- pow2_60. lra.
  - intros x Hx. pose proof (fixed_point_near x) as H.
    unfold Rounded.u. lra.
Qed.

Lemma fixed_point_small_error : Rounded.SmallError fixed_point.
Proof.
  intros x _. pose proof (fixed_point_near x) as H. unfold Rounded.u. lra.
Qed.

(** ** The match score *)

(** C1 (as amended).  Under the standard model of floating-point
    arithmetic, a POST request with two non-empty strings (documents of
    fewer than 2^32 tokens each, as every JavaScript array is) is answered
    with a report whose [match_score] is the number nearest to [n / 100]
    for an integer [n] from 0 to 10000; [n / 100] is within 0.005 + 1e-12
    of the weighted sum [semantic_similarity * 100 * 0.6 + overlap_pct * 0.4]
    of the two reported values, so it is that sum rounded to two decimals
    up to the rounding errors of the arithmetic; and [match_score] lies in
    [0, 100]. *)
Theorem match_score_rounded_in_range
  (rnd : R -> R) (toLowerCase : jsstring -> jsstring) (jd resume : jsstring)
  (jdTokens resumeTokens : list jsstring) :
  Rounded.StandardModel rnd -> Rounded.SmallError rnd ->
  jd <> [] -> resume <> [] ->
  tokenize toLowerCase (VString jd) (Some 2) = Ok jdTokens ->
  tokenize toLowerCase (VString resume) (Some 2) = Ok resumeTokens ->
  (Z.of_nat (length jdTokens) < 2 ^ 32)%Z ->
  (Z.of_nat (length resumeTokens) < 2 ^ 32)%Z ->
  exists (r : response R) (n : Z),
    matchJDandResume (num := Rounded.number rnd) toLowerCase
      {| method := utf16 "POST";
         body := Some {| jd_text := VString jd; resume_text := VString resume |} |}
    = {| status := 200; json := ResultBody r |}
    /\ (0 <= n <= 10000)%Z
    /\ match_score r = rnd (IZR n / 100)%R
    /\ (Rabs (IZR n / 100
              - (semantic_similarity r * 100 * 0.6 + overlap_pct r * 0.4))
        <= / 200 + / 10 ^ 12)%R
    /\ (Rabs (match_score r - IZR n / 100) <= / 10 ^ 12)%R
    /\ (0 <= match_score r <= 100)%R.
Proof.
  intros Hstd Hsmall Hjd Hres Ht1 Ht2 Hl1 Hl2.
  destruct (pipeline_string R (Rounded.number rnd) toLowerCase jd resume)
    as (t1 & t2 & H1 & H2 & Hp).
  rewrite Ht1 in H1. rewrite Ht2 in H2. injection H1 as <-. injection H2 as <-.
  cbv zeta in Hp.
  assert (Hsem : (0 <= cosineSimilarity (num := Rounded.number rnd)
                         (buildFrequency jdTokens) (buildFrequency resumeTokens)
                  <= 1 + 6 / 10 ^ 5)%R).
  { apply (cosine_range rnd Hstd).
    pose proof (cosine_keys_length jdTokens resumeTokens) as Hk.
    rewrite INR_IZR_INZ, (pow_IZR 2 33). apply IZR_le.
    change (Z.pow 2 (Z.of_nat 33)) with (2 ^ 33)%Z. lia. }
  pose proof (overlap_range rnd Hstd (extractTopKeywords jdTokens 200)
                (extractTopKeywords resumeTokens 400)) as Hov.
  destruct (matchScore_about rnd Hstd Hsmall _ _ Hsem Hov)
    as (n & Hn & Hms & Hclose & Hnear & Hrange).
  eexists. exists n.
  split; [apply matchJDandResume_post; eassumption|].
  cbn [match_score semantic_similarity overlap_pct].
  split; [exact Hn|]. split; [exact Hms|]. split; [exact Hclose|].
  split; [exact Hnear | exact Hrange].
Qed.

Lemma match_score_rounded_in_range_witness :
  exists (r : response R) (n : Z),
    matchJDandResume (num := Rounded.number fixed_point) toLowerCase_ascii
      (post "Looking for a Python developer with AWS experience"
            "Experienced Python developer skilled in AWS and Docker")
    = {| status := 200; json := ResultBody r |}
    /\ (0 <= n <= 10000)%Z
    /\ match_score r = fixed_point (IZR n / 100)%R
    /\ (Rabs (IZR n / 100
              - (semantic_similarity r * 100 * 0.6 + overlap_pct r * 0.4))
        <= / 200 + / 10 ^ 12)%R
    /\ (Rabs (match_score r - IZR n / 100) <= / 10 ^ 12)%R
    /\ (0 <= match_score r <= 100)%R.
Proof.
  apply (match_score_rounded_in_range fixed_point toLowerCase_ascii
           (utf16 "Looking for a Python developer with AWS experience")
           (utf16 "Experienced Python developer skilled in AWS and Docker")
           (map utf16 ["looking"; "for"; "python"; "developer"; "with"; "aws";
                       "experience"]%string)
           (map utf16 ["experienced"; "python"; "developer"; "skilled"; "in"; "aws";
                       "and"; "docker"]%string)
           fixed_point_standard_model fixed_point_small_error).
  - vm_compute. discriminate.
  - vm_compute. discriminate.
  - vm_compute. reflexivity.
  - vm_compute. reflexivity.
  - vm_compute. reflexivity.
  - vm_compute. reflexivity.
Defined.

(** C1 (counterexample).  On binary64 the score is not always the weighted
    sum rounded to two decimals.  A job description of 200 distinct words
    and a resume of 128 distinct words, 3 of them shared: the similarity is
    0.018749999999999996 and the overlap 1.5; the weighted sum of these two
    values is below 1.725, and so is the program's [finalScore],
    1.7249999999999999; but [finalScore * 100] rounds to 172.5, which
    [Math.round] takes to 173, and the score is 1.73 instead of 1.72. *)
Lemma match_score_double_rounding :
  exists r : response float,
    matchJDandResume toLowerCase_ascii
      (post_texts (words "k" 0 200)
                  (words "k" 0 3 ++ utf16 " " ++ words "r" 0 125))
    = {| status := 200; json := ResultBody r |}
    /\ semantic_similarity r = 0x1.3333333333332p-6%float
    /\ overlap_pct r = 0x1.8p+0%float
    /\ finalScore (semantic_similarity r) (overlap_pct r) = 0x1.b999999999999p+0%float
    /\ mul (finalScore (semantic_similarity r) (overlap_pct r)) (of_nat 100)
       = 0x1.59p+7%float
    /\ match_score r = 0x1.bae147ae147aep+0%float
    /\ (to_Q (finalScore (semantic_similarity r) (overlap_pct r)) < 1725 # 1000)%Q
    /\ (to_Q (semantic_similarity r) * 100 * (6 # 10) + to_Q (overlap_pct r) * (4 # 10)
        < 1725 # 1000)%Q
    /\ (1725 # 1000 < to_Q (match_score r))%Q.
Proof.
  eexists. split; [vm_compute; reflexivity|].
  repeat split; vm_compute; reflexivity.
Qed.

(** ** The keyword overlap *)

Lemma binary64_overlap_check :
  forallb
    (fun j =>
       forallb
         (fun m =>
            Qle_bool
              (Qabs (to_Q (mul (div (of_nat m) (of_nat j)) (of_nat 100))
                     - (100 * Z.of_nat m # Pos.of_nat j)))
              ((100 * Z.of_nat m # Pos.of_nat j) * (1 # 2 ^ 52)))
         (seq 0 (S j)))
    (seq 1 200)
  = true.
Proof. vm_compute. reflexivity. Qed.

(** On binary64, with at most 200 keywords, [(m / j) * 100] is within a
    relative error of 2^-52 of [100 * m / j]. *)
Lemma binary64_overlap_close (m j : nat) :
  1 <= j <= 200 -> m <= j ->
  (Qabs (to_Q (mul (div (of_nat m) (of_nat j)) (of_nat 100))
         - (100 * Z.of_nat m # Pos.of_nat j))
   <= (100 * Z.of_nat m # Pos.of_nat j) * (1 # 2 ^ 52))%Q.
Proof.
  intros Hj Hm. pose proof binary64_overlap_check as H.
  rewrite forallb_forall in H.
  specialize (H j ltac:(apply in_seq; lia)). cbv beta in H.
  rewrite forallb_forall in H.
  specialize (H m ltac:(apply in_seq; lia)). cbv beta in H.
  apply Qle_bool_iff in H. exact H.
Qed.

(** C6 (as amended).  [matched] and [missing] partition the distinct
    job-description keywords: every keyword of the list is in exactly one
    of them, a keyword is matched exactly when the resume list has it, and
    neither list has a repetition.  [overlapPct] is 0 for an empty keyword
    set.  Otherwise it is the quotient [|matched| / |jdSet|], rounded, times
    100, rounded again: under the standard model it lies in [0, 100] within
    3e-13 of [100 * |matched| / |jdSet|], and on binary64, for up to 200
    keywords (the pipeline passes no more), within a relative error of
    2^-52 of it. *)
Theorem matchKeywords_partition :
  (forall F (num : Number F) (jdKeywords resumeKeywords : list jsstring),
      let r := matchKeywords jdKeywords resumeKeywords in
      (forall k, In k (matched r) \/ In k (missing r) <-> In k jdKeywords)
      /\ (forall k, ~ (In k (matched r) /\ In k (missing r)))
      /\ (forall k, In k (matched r) <-> In k jdKeywords /\ In k resumeKeywords)
      /\ NoDup (matched r) /\ NoDup (missing r)
      /\ jdCount r = length (matched r) + length (missing r)
      /\ jdCount r = length (Set_of jdKeywords)
      /\ (jdCount r = 0 -> overlapPct r = of_nat 0))
  /\ (forall (rnd : R -> R) (jdKeywords resumeKeywords : list jsstring),
         Rounded.StandardModel rnd -> Rounded.SmallError rnd ->
         let r := matchKeywords (num := Rounded.number rnd) jdKeywords resumeKeywords in
         jdCount r <> 0 ->
         (0 <= overlapPct r <= 100)%R
         /\ (Rabs (overlapPct r - 100 * INR (length (matched r)) / INR (jdCount r))
             <= 3 / 10 ^ 13)%R)
  /\ (forall jdKeywords resumeKeywords : list jsstring,
         let r := matchKeywords (num := binary64) jdKeywords resumeKeywords in
         1 <= jdCount r <= 200 ->
         (Qabs (to_Q (overlapPct r)
                - (100 * Z.of_nat (length (matched r)) # Pos.of_nat (jdCount r)))
          <= (100 * Z.of_nat (length (matched r)) # Pos.of_nat (jdCount r))
             * (1 # 2 ^ 52))%Q).
Proof.
  split; [|split].
  - intros F num jd resume r.
    destruct (matchKeywords_fields (num := num) jd resume)
      as (Hm & Hmi & Hj & _ & Ho).
    fold r in Hm, Hmi, Hj, Ho. rewrite Hm, Hmi, Hj.
    split; [|split; [|split; [|split; [|split; [|split; [|split]]]]]].
    + intros k. rewrite !filter_In, Set_of_In.
      destruct (has (Set_of resume) k); simpl; intuition congruence.
    + intros k. rewrite !filter_In.
      destruct (has (Set_of resume) k); simpl; intuition congruence.
    + intros k. rewrite filter_In, has_In, !Set_of_In. reflexivity.
    + apply NoDup_filter, Set_of_NoDup.
    + apply NoDup_filter, Set_of_NoDup.
    + generalize (Set_of jd). intros l. induction l as [|a l IH]; [reflexivity|].
      simpl. destruct (has (Set_of resume) a); simpl; lia.
    + reflexivity.
    + intros Hz. rewrite Ho, Hz. reflexivity.
  - intros rnd jd resume Hstd Hsmall r Hj0.
    split; [apply (overlap_range rnd Hstd)|].
    destruct (matchKeywords_fields (num := Rounded.number rnd) jd resume)
      as (Hm & _ & Hj & _ & Ho).
    fold r in Hm, Hj, Ho. rewrite Ho, Hj in *.
    destruct (length (Set_of jd) =? 0) eqn:E; [apply Nat.eqb_eq in E; contradiction|].
    apply (overlap_about rnd Hstd Hsmall); [|exact Hj0].
    rewrite Hm. apply filter_length_le.
  - intros jd resume r Hj.
    destruct (matchKeywords_fields (num := binary64) jd resume)
      as (Hm & _ & Hj' & _ & Ho).
    fold r in Hm, Hj', Ho. rewrite Ho, Hj' in *.
    destruct (length (Set_of jd) =? 0) eqn:E; [apply Nat.eqb_eq in E; lia|].
    apply binary64_overlap_close; [exact Hj|].
    rewrite Hm. apply filter_length_le.
Qed.

(** C6 (counterexample).  On binary64 [overlapPct] is not always
    [100 * |matched| / |jdSet|]: with 7 of 25 keywords matched the quotient
    0.28 is rounded before it is multiplied, and the result is
    28.000000000000004, while [100 * 7 / 25] is 28.  The handler reports the
    value as [overlap_pct]. *)
Lemma overlapPct_rounds_twice :
  let jdKeywords := map (fun i => utf16 "k" ++ nat_to_string i) (seq 0 25) in
  let resumeKeywords := map (fun i => utf16 "k" ++ nat_to_string i) (seq 0 7) in
  let m := matchKeywords (num := binary64) jdKeywords resumeKeywords in
  length (matched m) = 7 /\ jdCount m = 25
  /\ overlapPct m = 0x1.c000000000001p+4%float
  /\ (28 < to_Q (overlapPct m))%Q
  /\ PrimFloat.div (PrimFloat.mul 100 7) 25 = 28%float
  /\ exists r : response float,
       matchJDandResume toLowerCase_ascii
         (post_texts (words "k" 0 25) (words "k" 0 7))
       = {| status := 200; json := ResultBody r |}
       /\ jd_skill_count r = 25
       /\ length (skills_matched r) = 7
       /\ overlap_pct r = 0x1.c000000000001p+4%float.
Proof.
  cbv zeta. split; [vm_compute; reflexivity|]. split; [vm_compute; reflexivity|].
  split; [vm_compute; reflexivity|]. split; [vm_compute; reflexivity|].
  split; [vm_compute; reflexivity|].
  eexists. split; [vm_compute; reflexivity|].
  repeat split; vm_compute; reflexivity.
Qed.

(** ** A document compared with itself *)

Lemma generateFeedback_excellent
  (F : Type) (num : Number F) (score overlapPct : F) (missing : list jsstring) :
  geb score (of_nat 85) = true ->
  hd_error (generateFeedback score overlapPct missing) = Some Messages.excellent_fit.
Proof.
  intros H. unfold generateFeedback. rewrite H.
  unfold Messages.excellent_fit. cbn [app].
  destruct ((0 <? length missing) && (length missing <=? 8))%nat;
    destruct (8 <? length missing)%nat;
    destruct (ltb score (of_nat 85)); reflexivity.
Qed.

Lemma extractTopKeywords_prefix (tokens : list jsstring) (k : jsstring) :
  In k (extractTopKeywords tokens 200) -> In k (extractTopKeywords tokens 400).
Proof.
  unfold extractTopKeywords. rewrite !in_map_iff.
  intros (e & He & Hin). exists e. split; [exact He|].
  set (l := sort_desc (Obj.entries (buildFrequency tokens))) in *.
  replace (firstn 200 l) with (firstn 200 (firstn 400 l)) in Hin
    by (rewrite firstn_firstn; reflexivity).
  eapply In_firstn. exact Hin.
Qed.

Lemma filter_all (A : Type) (p : A -> bool) (l : list A) :
  (forall x, In x l -> p x = true) -> filter p l = l.
Proof.
  induction l as [|a l IH]; intros H; simpl; [reflexivity|].
  rewrite (H a (or_introl eq_refl)). f_equal. apply IH.
  intros x Hx. apply H. right. exact Hx.
Qed.

Lemma filter_none (A : Type) (p : A -> bool) (l : list A) :
  (forall x, In x l -> p x = false) -> filter p l = [].
Proof.
  induction l as [|a l IH]; intros H; simpl; [reflexivity|].
  rewrite (H a (or_introl eq_refl)). apply IH.
  intros x Hx. apply H. right. exact Hx.
Qed.

(** Every keyword of a document is matched against the document itself. *)
Lemma matchKeywords_self (F : Type) (num : Number F) (tokens : list jsstring) :
  tokens <> [] ->
  let m := matchKeywords (extractTopKeywords tokens 200) (extractTopKeywords tokens 400) in
  matched m = extractTopKeywords tokens 200
  /\ missing m = []
  /\ jdCount m <> 0
  /\ overlapPct m
     = mul (div (of_nat (jdCount m)) (of_nat (jdCount m))) (of_nat 100).
Proof.
  intros Hne m.
  destruct (matchKeywords_fields (num := num) (extractTopKeywords tokens 200)
              (extractTopKeywords tokens 400)) as (Hm & Hmi & Hj & _ & Ho).
  fold m in Hm, Hmi, Hj, Ho.
  destruct (extractTopKeywords_basic tokens 200) as (Hlen & Hnd & _).
  rewrite (Set_of_fixed Hnd) in *.
  assert (Hall : forall k, In k (extractTopKeywords tokens 200) ->
                           has (Set_of (extractTopKeywords tokens 400)) k = true).
  { intros k Hk. apply has_In, Set_of_In, extractTopKeywords_prefix. exact Hk. }
  rewrite (filter_all _ _ _ Hall) in Hm.
  rewrite filter_none in Hmi
    by (intros k Hk; rewrite (Hall k Hk); reflexivity).
  assert (Hj0 : jdCount m <> 0).
  { rewrite Hj, Hlen. destruct tokens as [|t tokens]; [congruence|].
    assert (Hin : In t (Set_of (t :: tokens))) by (apply Set_of_In; left; reflexivity).
    destruct (Set_of (t :: tokens)); [destruct Hin | simpl; lia]. }
  split; [exact Hm|]. split; [exact Hmi|]. split; [exact Hj0|].
  rewrite Ho, Hm, <- Hj.
  destruct (jdCount m =? 0) eqn:E; [apply Nat.eqb_eq in E; contradiction|].
  reflexivity.
Qed.

Section IdenticalDocuments.

Import Rounded Bounds.

Local Open Scope R_scope.

Variable rnd : R -> R.
Hypothesis Hstd : StandardModel rnd.

Let NR : Number R := Rounded.number rnd.

#[local] Existing Instance NR.

Lemma cosine_sums_self (tokens : list jsstring) :
  tokens <> [] ->
  exists n : R,
    1 <= n /\ cosine_sums (buildFrequency tokens) (buildFrequency tokens) = (n, n, n).
Proof.
  intros Hne. destruct (exact_sums_self Hne) as (N & HN & Hex).
  unfold exact_sums in Hex. injection Hex as _ _ HNB.
  rewrite (cosine_sums_model rnd). eexists. split; [|reflexivity].
  destruct (rounded_sum_bounds rnd Hstd
              (map (fun k => (b_of (buildFrequency tokens) k
                              * b_of (buildFrequency tokens) k)%nat)
                 (cosine_keys (buildFrequency tokens) (buildFrequency tokens))))
    as (_ & _ & H1).
  apply H1. rewrite HNB. lia.
Qed.

Lemma cosine_self (tokens : list jsstring) :
  tokens <> [] ->
  (1 - 4 * eps) * (1 - eps)
  <= cosineSimilarity (buildFrequency tokens) (buildFrequency tokens)
  <= (1 + 4 * eps) * (1 + eps)
  /\ ((forall x, rnd x = x) ->
      cosineSimilarity (buildFrequency tokens) (buildFrequency tokens) = 1).
Proof.
  intros Hne.
  destruct (cosine_sums_self tokens Hne) as (n & Hn & Hs).
  assert (Hu : cosineSimilarity (buildFrequency tokens) (buildFrequency tokens)
               = rnd (n / rnd (rnd (R_sqrt.sqrt n) * rnd (R_sqrt.sqrt n)))).
  { unfold cosineSimilarity. rewrite Hs. unfold NR.
    rewrite (eqb_nonzero rnd n Hn). reflexivity. }
  rewrite Hu.
  pose proof (sqrt_ge_1 n Hn) as Ha.
  assert (Hsq : R_sqrt.sqrt n * R_sqrt.sqrt n = n) by (apply sqrt_sqrt; lra).
  split; [split|].
  - pose proof eps_pos as He.
    assert (He' : eps <= / 10 ^ 15) by (unfold eps; lra).
    set (a := R_sqrt.sqrt n) in *.
    pose proof (rnd_near rnd Hstd a ltac:(lra)) as [HsL HsU].
    pose proof (rnd_ge_1 rnd Hstd a Ha) as Hs1.
    set (s := rnd a) in *.
    assert (HP : 1 <= s * s <= n * ((1 + eps) * (1 + eps))).
    { split; [nra|].
      replace (n * ((1 + eps) * (1 + eps))) with ((a * (1 + eps)) * (a * (1 + eps)))
        by (rewrite <- Hsq; ring).
      apply Rmult_le_compat; lra. }
    pose proof (rnd_near rnd Hstd (s * s) ltac:(lra)) as [_ HdU].
    pose proof (rnd_ge_1 rnd Hstd (s * s) ltac:(lra)) as Hd1.
    set (d := rnd (s * s)) in *.
    assert (Hd3 : d <= n * ((1 + eps) * (1 + eps) * (1 + eps))).
    { apply Rle_trans with (s * s * (1 + eps)); [exact HdU|].
      replace (n * ((1 + eps) * (1 + eps) * (1 + eps)))
        with (n * ((1 + eps) * (1 + eps)) * (1 + eps)) by ring.
      apply Rmult_le_compat_r; lra. }
    apply (rnd_lo rnd Hstd); [|nra].
    apply Rmult_le_reg_r with d; [lra|].
    unfold Rdiv. rewrite Rmult_assoc, Rinv_l, Rmult_1_r by lra.
    assert (Hc : (1 - 4 * eps) * ((1 + eps) * (1 + eps) * (1 + eps)) <= 1) by nra.
    apply Rle_trans with ((1 - 4 * eps) * (n * ((1 + eps) * (1 + eps) * (1 + eps)))).
    + apply Rmult_le_compat_l; [lra | exact Hd3].
    + replace ((1 - 4 * eps) * (n * ((1 + eps) * (1 + eps) * (1 + eps))))
        with (n * ((1 - 4 * eps) * ((1 + eps) * (1 + eps) * (1 + eps)))) by ring.
      rewrite <- (Rmult_1_r n) at 2.
      apply Rmult_le_compat_l; lra.
  - destruct (quotient_range rnd Hstd n n n 1 ltac:(lra) Hn Hn ltac:(lra)
                ltac:(rewrite Hsq; lra)) as [_ Hq].
    cbn [div mul sqrt Rounded.number] in Hq. lra.
  - intros Hid. rewrite !Hid, Hsq. field. lra.
Qed.

Lemma overlap_self (tokens : list jsstring) :
  tokens <> [] ->
  overlapPct (matchKeywords (extractTopKeywords tokens 200)
                (extractTopKeywords tokens 400)) = 100.
Proof.
  intros Hne.
  destruct (matchKeywords_self R NR tokens Hne) as (_ & _ & Hj & Ho).
  cbv zeta in Hj, Ho. fold NR. rewrite Ho.
  cbn [mul div of_nat NR number]. rewrite INR_100.
  replace (INR _ / INR _) with 1.
  - rewrite (rnd_1 rnd Hstd), Rmult_1_l. apply (rnd_100 rnd Hstd).
  - field. apply not_0_INR. exact Hj.
Qed.

Lemma scaled_full (sem : R) :
  (1 - 4 * eps) * (1 - eps) <= sem <= (1 + 4 * eps) * (1 + eps) ->
  10000 - / 2 < scaled rnd sem 100 < 10000 + / 2.
Proof.
  intros Hsem.
  split; [|apply (scaled_range rnd Hstd); unfold eps in *; lra].
  unfold scaled, finalScore.
  pose proof (semanticWeight_near rnd Hstd) as H6.
  pose proof (keywordWeight_near rnd Hstd) as H4.
  fold NR in H6, H4 |- *.
  set (w6 := semanticWeight) in *. set (w4 := keywordWeight) in *.
  cbn [mul add of_nat NR number]. rewrite INR_100.
  assert (Hp1 : 100 * ((1 - 4 * eps) * (1 - eps)) * (1 - eps) <= rnd (sem * 100)).
  { apply (rnd_lo rnd Hstd); unfold eps in *; lra. }
  set (p1 := rnd (sem * 100)) in *.
  assert (Hm2 : 100 * ((1 - 4 * eps) * (1 - eps)) * (1 - eps) * (0.6 * (1 - eps))
                <= p1 * w6).
  { apply mul_lower; unfold eps in *; lra. }
  assert (Hp2 : 100 * ((1 - 4 * eps) * (1 - eps)) * (1 - eps) * (0.6 * (1 - eps))
                * (1 - eps) <= rnd (p1 * w6)).
  { apply (rnd_lo rnd Hstd); [exact Hm2 | unfold eps; lra]. }
  set (p2 := rnd (p1 * w6)) in *.
  assert (Hm3 : 100 * (0.4 * (1 - eps)) <= 100 * w4) by lra.
  assert (Hp3 : 100 * (0.4 * (1 - eps)) * (1 - eps) <= rnd (100 * w4)).
  { apply (rnd_lo rnd Hstd); [exact Hm3 | unfold eps; lra]. }
  set (p3 := rnd (100 * w4)) in *.
  assert (Hf : (100 - / 10 ^ 11) * (1 - eps) <= rnd (p2 + p3)).
  { apply (rnd_lo rnd Hstd); unfold eps in *; lra. }
  set (f := rnd (p2 + p3)) in *.
  apply Rlt_le_trans with ((10000 - / 10 ^ 7) * (1 - eps)); [unfold eps; lra|].
  apply (rnd_lo rnd Hstd); unfold eps in *; lra.
Qed.

Lemma matchScore_full (sem : R) :
  (1 - 4 * eps) * (1 - eps) <= sem <= (1 + 4 * eps) * (1 + eps) ->
  matchScore sem 100 = 100.
Proof.
  intros Hsem. pose proof (scaled_full sem Hsem) as Hs.
  unfold matchScore.
  change (mul (finalScore sem 100) (of_nat 100)) with (scaled rnd sem 100).
  cbn [round div of_nat NR number]. unfold Math_round. rewrite INR_100.
  destruct (Int_part_between (scaled rnd sem 100 + / 2) 10000 10000) as [Hlo Hhi];
    [lra|lra|].
  replace (Int_part (scaled rnd sem 100 + / 2)) with 10000%Z by lia.
  replace (10000 / 100) with 100 by lra. apply (rnd_100 rnd Hstd).
Qed.

End IdenticalDocuments.

(** C2 (as amended).  When a text with at least one token is sent as both
    documents, every keyword is matched: [overlap_pct] is 100,
    [missing_skills] is empty, [match_score] is 100 and the first feedback
    message is the excellent-fit message.  [semantic_similarity] is 1 up to
    rounding, and exactly 1 when the arithmetic is exact. *)
Theorem identical_documents
  (rnd : R -> R) (toLowerCase : jsstring -> jsstring)
  (s : jsstring) (tokens : list jsstring) :
  Rounded.StandardModel rnd ->
  tokenize toLowerCase (VString s) (Some 2) = Ok tokens ->
  tokens <> [] ->
  exists r : response R,
    matchJDandResume (num := Rounded.number rnd) toLowerCase
      {| method := utf16 "POST";
         body := Some {| jd_text := VString s; resume_text := VString s |} |}
    = {| status := 200; json := ResultBody r |}
    /\ overlap_pct r = 100%R
    /\ missing_skills r = []
    /\ match_score r = 100%R
    /\ hd_error (feedback r) = Some Messages.excellent_fit
    /\ (Rabs (semantic_similarity r - 1) <= 6 * Rounded.eps)%R
    /\ ((forall x, rnd x = x) -> semantic_similarity r = 1%R).
Proof.
  intros Hstd Htok Hne.
  assert (Hs : s <> []).
  { intros ->. cbn in Htok. injection Htok as <-. congruence. }
  destruct (pipeline_string R (Rounded.number rnd) toLowerCase s s)
    as (t1 & t2 & H1 & H2 & Hp).
  rewrite Htok in H1, H2. injection H1 as <-. injection H2 as <-.
  cbv zeta in Hp.
  destruct (cosine_self rnd Hstd tokens Hne) as [Hsem Hexact].
  pose proof (overlap_self rnd Hstd tokens Hne) as Hov.
  destruct (matchKeywords_self R (Rounded.number rnd) tokens Hne) as (_ & Hmiss & _).
  cbv zeta in Hmiss.
  pose proof (matchScore_full rnd Hstd _ Hsem) as Hscore.
  eexists. split; [apply matchJDandResume_post; eassumption|].
  cbn [match_score semantic_similarity overlap_pct missing_skills feedback].
  rewrite Hov, Hmiss, Hscore.
  split; [reflexivity|]. split; [reflexivity|]. split; [reflexivity|].
  split; [|split; [|exact Hexact]].
  - apply generateFeedback_excellent. cbn [geb of_nat Rounded.number].
    destruct (Rle_dec (INR 85) 100) as [_|Hn]; [reflexivity|].
    exfalso. apply Hn. rewrite INR_IZR_INZ. cbn. lra.
  - pose proof Bounds.eps_pos as He.
    assert (He' : (Rounded.eps <= / 10 ^ 15)%R) by (unfold Rounded.eps; lra).
    apply Rabs_le. nra.
Qed.

Lemma identical_documents_witness :
  exists r : response R,
    matchJDandResume (num := Rounded.exact) toLowerCase_ascii
      (post "Python, AWS & Docker" "Python, AWS & Docker")
    = {| status := 200; json := ResultBody r |}
    /\ overlap_pct r = 100%R
    /\ missing_skills r = []
    /\ match_score r = 100%R
    /\ hd_error (feedback r) = Some Messages.excellent_fit
    /\ (Rabs (semantic_similarity r - 1) <= 6 * Rounded.eps)%R
    /\ ((forall x : R, (fun y : R => y) x = x) -> semantic_similarity r = 1%R).
Proof.
  apply (identical_documents (fun x => x) toLowerCase_ascii
           (utf16 "Python, AWS & Docker")
           [utf16 "python"; utf16 "aws"; utf16 "docker"]);
    [apply exact_standard_model | vm_compute; reflexivity | discriminate].
Defined.

(** C2 (counterexample).  "!" is a non-empty string without tokens: sent
    as both documents it yields similarity 0, overlap 0, score 0 and the
    low-fit message. *)
Lemma identical_documents_without_tokens :
  exists r : response float,
    matchJDandResume toLowerCase_ascii (post "!" "!")
    = {| status := 200; json := ResultBody r |}
    /\ semantic_similarity r = 0%float
    /\ overlap_pct r = 0%float
    /\ match_score r = 0%float
    /\ hd_error (feedback r) = Some Messages.low_fit.
Proof.
  eexists. split; [vm_compute; reflexivity|].
  repeat split; vm_compute; reflexivity.
Qed.

(** ** Cosine similarity on binary64 *)

(** C5 (evaluation at the failing input).  Three tokens occurring once
    each, compared with themselves: the sums are 3, [sqrt 3 * sqrt 3]
    rounds to 3 - 2^-51, and the quotient rounds to 1 + 2^-52, which is
    above 1.  The handler returns this value as [semantic_similarity]; the
    rounding of the score absorbs the excess. *)
Theorem cosineSimilarity_exceeds_one :
  let freq := buildFrequency [utf16 "python"; utf16 "aws"; utf16 "docker"] in
  cosine_sums freq freq = (3, 3, 3)%float
  /\ PrimFloat.mul (PrimFloat.sqrt 3) (PrimFloat.sqrt 3) = 0x1.7ffffffffffffp+1%float
  /\ cosineSimilarity freq freq = 0x1.0000000000001p+0%float
  /\ PrimFloat.ltb 1 (cosineSimilarity freq freq) = true
  /\ exists r : response float,
       matchJDandResume toLowerCase_ascii (post "python aws docker" "python aws docker")
       = {| status := 200; json := ResultBody r |}
       /\ semantic_similarity r = 0x1.0000000000001p+0%float
       /\ match_score r = 100%float.
Proof.
  cbv zeta. split; [vm_compute; reflexivity|].
  split; [vm_compute; reflexivity|].
  split; [vm_compute; reflexivity|].
  split; [vm_compute; reflexivity|].
  eexists. split; [vm_compute; reflexivity|].
  split; vm_compute; reflexivity.
Qed.

(** The guard of [cosineSimilarity] on binary64: an empty frequency map
    has the norm 0, whatever the other map is, and the result is 0. *)
Lemma sum_of_zeros (keys : list jsstring) :
  sum_in binary64 (map (fun _ => mul (of_nat 0) (of_nat 0)) keys) = 0%float.
Proof.
  unfold sum_in.
  change (of_nat (Number := binary64) 0) with 0%float.
  induction keys as [|k keys IH]; [reflexivity|].
  cbn [map fold_left].
  change (add (Number := binary64) 0%float (mul (Number := binary64) 0%float 0%float))
    with 0%float.
  exact IH.
Qed.

Lemma cosineSimilarity_zero_norm (freqA freqB : Obj.obj) :
  cosineSimilarity (num := binary64) [] freqB = 0%float
  /\ cosineSimilarity (num := binary64) freqA [] = 0%float.
Proof.
  unfold cosineSimilarity. rewrite !cosine_sums_eq. unfold a_of, b_of.
  split.
  - change (fun k => mul (of_nat (Obj.get_or_0 [] k)) (of_nat (Obj.get_or_0 [] k)))
      with (fun _ : jsstring => mul (Number := binary64) (of_nat 0) (of_nat 0)).
    rewrite sum_of_zeros. reflexivity.
  - change (fun k => mul (of_nat (Obj.get_or_0 [] k)) (of_nat (Obj.get_or_0 [] k)))
      with (fun _ : jsstring => mul (Number := binary64) (of_nat 0) (of_nat 0)).
    rewrite sum_of_zeros.
    change (eqb (Number := binary64) 0%float (of_nat 0)) with true.
    rewrite orb_true_r. reflexivity.
Qed.

(** ** Evaluation on concrete inputs *)

(** The decimal literals 0.6 and 0.4 as binary64 values. *)
Example weights_binary64 :
  semanticWeight = 0x1.3333333333333p-1%float
  /\ keywordWeight = 0x1.999999999999ap-2%float.
Proof. split; vm_compute; reflexivity. Qed.

(** A curly apostrophe becomes a plain one and then a space. *)
Example normalizeText_curly_quote :
  normalizeText toLowerCase_ascii (VString (utf16 "It’s C++/C#"))
  = Ok (utf16 "it s c++ c#").
Proof. vm_compute. reflexivity. Qed.

(** [Math.round] rounds halves towards +infinity. *)
Example Math_round_halves :
  map Binary64.Math_round [2.5; -2.5; 0x1.fffffffffffffp-2; 0x1.387ffffffffffp+13]%float
  = [3; -2; 0; 10000]%float.
Proof. vm_compute. reflexivity. Qed.

(** The first scenario of the specification on binary64.  The words "for"
    and "with" of the stopword list count as keywords of the job
    description. *)
Example scenario_A :
  exists r : response float,
    matchJDandResume toLowerCase_ascii
      (post "Looking for a Python developer with AWS experience"
            "Experienced Python developer skilled in AWS and Docker")
    = {| status := 200; json := ResultBody r |}
    /\ skills_matched r = [utf16 "python"; utf16 "developer"; utf16 "aws"]
    /\ missing_skills r
       = [utf16 "looking"; utf16 "for"; utf16 "with"; utf16 "experience"]
    /\ jd_skill_count r = 7 /\ resume_skill_count r = 8
    /\ overlap_pct r = 0x1.56db6db6db6dbp+5%float
    /\ match_score r = 0x1.499999999999ap+5%float
    /\ hd_error (feedback r) = Some Messages.partial_fit.
Proof.
  eexists. split; [vm_compute; reflexivity|].
  repeat split; vm_compute; reflexivity.
Qed.

(** Two tokens occurring once each, compared with themselves:
    [sqrt 2 * sqrt 2] rounds to 2 + 2^-51 and the similarity to 1 - 2^-52. *)
Example cosineSimilarity_two_tokens :
  let freq := buildFrequency [utf16 "python"; utf16 "aws"] in
  cosineSimilarity freq freq = 0x1.ffffffffffffep-1%float.
Proof. vm_compute. reflexivity. Qed.

(** * Further properties of the functions *)

(** ** Cosine similarity is symmetric *)

Lemma list_sum_perm (l l' : list nat) :
  Permutation l l' -> list_sum l = list_sum l'.
Proof.
  induction 1; simpl; lia.
Qed.

Lemma cosine_keys_perm (freqA freqB : Obj.obj) :
  Permutation (cosine_keys freqA freqB) (cosine_keys freqB freqA).
Proof.
  unfold cosine_keys. apply NoDup_Permutation; try apply Set_of_NoDup.
  intros k. rewrite !Set_of_In, !in_app_iff. tauto.
Qed.

Lemma exact_sums_swap (freqA freqB : Obj.obj) (dot normA normB : nat) :
  exact_sums freqA freqB = (dot, normA, normB) ->
  exact_sums freqB freqA = (dot, normB, normA).
Proof.
  unfold exact_sums. intros [= <- <- <-].
  pose proof (cosine_keys_perm freqB freqA) as Hp.
  f_equal; [f_equal|].
  - rewrite (list_sum_perm _ _ (Permutation_map _ Hp)).
    f_equal. apply map_ext. intros k. unfold a_of, b_of. apply Nat.mul_comm.
  - apply list_sum_perm, Permutation_map. exact Hp.
  - apply list_sum_perm, Permutation_map. exact Hp.
Qed.

(** In the model the result is determined by the three sums. *)
Lemma cosineSimilarity_of_sums
  (rnd : R -> R) (freqA freqB : Obj.obj) (dot normA normB : R) :
  cosine_sums (num := Rounded.number rnd) freqA freqB = (dot, normA, normB) ->
  cosineSimilarity (num := Rounded.number rnd) freqA freqB
  = if eqb (Number := Rounded.number rnd) normA 0%R
       || eqb (Number := Rounded.number rnd) normB 0%R
    then 0%R
    else rnd (dot / rnd (rnd (R_sqrt.sqrt normA) * rnd (R_sqrt.sqrt normB)))%R.
Proof.
  intros H. unfold cosineSimilarity. rewrite H. reflexivity.
Qed.

(** X1.  Under the standard model of floating point
    [cosineSimilarity(A, B)] and [cosineSimilarity(B, A)] are the same
    number whenever the two sums of squared counts are at most 2^53: the
    three sums are then computed without rounding, whatever the order of
    the keys, and the product of the square roots commutes. *)
Theorem cosineSimilarity_symmetric
  (rnd : R -> R) (freqA freqB : Obj.obj) (D NA NB : nat) :
  Rounded.StandardModel rnd ->
  exact_sums freqA freqB = (D, NA, NB) ->
  (Z.of_nat NA <= 2 ^ 53)%Z -> (Z.of_nat NB <= 2 ^ 53)%Z ->
  cosine_sums (num := Rounded.number rnd) freqA freqB = (INR D, INR NA, INR NB)
  /\ cosine_sums (num := Rounded.number rnd) freqB freqA = (INR D, INR NB, INR NA)
  /\ cosineSimilarity (num := Rounded.number rnd) freqA freqB
     = cosineSimilarity (num := Rounded.number rnd) freqB freqA.
Proof.
  intros Hstd Hex HA HB.
  destruct (cosine_range_exact rnd Hstd freqA freqB D NA NB Hex HA HB) as [H1 _].
  destruct (cosine_range_exact rnd Hstd freqB freqA D NB NA
              (exact_sums_swap _ _ _ _ _ Hex) HB HA) as [H2 _].
  split; [exact H1|]. split; [exact H2|].
  rewrite (cosineSimilarity_of_sums rnd _ _ _ _ _ H1),
    (cosineSimilarity_of_sums rnd _ _ _ _ _ H2).
  rewrite orb_comm, (Rmult_comm (rnd (R_sqrt.sqrt (INR NA)))). reflexivity.
Qed.

Lemma cosineSimilarity_symmetric_witness :
  let freqA := buildFrequency (map utf16 ["react"; "node"; "react"]%string) in
  let freqB := buildFrequency (map utf16 ["node"; "sql"]%string) in
  cosine_sums (num := Rounded.number fixed_point) freqA freqB = (INR 1, INR 5, INR 2)
  /\ cosine_sums (num := Rounded.number fixed_point) freqB freqA = (INR 1, INR 2, INR 5)
  /\ cosineSimilarity (num := Rounded.number fixed_point) freqA freqB
     = cosineSimilarity (num := Rounded.number fixed_point) freqB freqA.
Proof.
  apply (cosineSimilarity_symmetric fixed_point
           (buildFrequency (map utf16 ["react"; "node"; "react"]%string))
           (buildFrequency (map utf16 ["node"; "sql"]%string)) 1 5 2
           fixed_point_standard_model).
  - vm_compute. reflexivity.
  - vm_compute. discriminate.
  - vm_compute. discriminate.
Defined.

(** ** The frequency map counts occurrences *)

Lemma set_sum (o : Obj.obj) (k : jsstring) :
  list_sum (map snd (Obj.set o k (Obj.get_or_0 o k + 1)))
  = S (list_sum (map snd o)).
Proof.
  assert (Hc : forall a l, list_sum (a :: l) = a + list_sum l) by reflexivity.
  induction o as [|[k' v'] o IH]; [reflexivity|].
  unfold Obj.get_or_0 in *. cbn [Obj.set Obj.get].
  destruct (str_eqb k' k); cbn [map snd]; rewrite !Hc.
  - destruct (v' =? 0) eqn:Z; [apply Nat.eqb_eq in Z|]; lia.
  - rewrite IH. lia.
Qed.

Lemma buildFrequency_named (tokens : list jsstring) :
  no_array_index tokens ->
  Forall (fun e => Obj.array_index (fst e) = None) (buildFrequency tokens).
Proof.
  intros Hn. unfold no_array_index in Hn. rewrite Forall_forall in Hn |- *.
  intros e He. apply Hn. apply Set_of_In.
  destruct (buildFrequency_spec tokens) as [Hk _]. rewrite <- Hk.
  apply in_map. exact He.
Qed.

(** X2.  [buildFrequency] maps every token of the sequence to its number
    of occurrences and holds no other key.  [Object.keys] lists each
    distinct token once; when no token is an array index (the tokenizer
    emits none) it lists them in first-occurrence order.  The counts add
    up to the length of the sequence. *)
Theorem buildFrequency_counts (tokens : list jsstring) :
  (forall k, In k tokens ->
             Obj.get (buildFrequency tokens) k = Some (occ k tokens)
             /\ 1 <= occ k tokens)
  /\ (forall k, ~ In k tokens -> Obj.get (buildFrequency tokens) k = None)
  /\ NoDup (Obj.keys (buildFrequency tokens))
  /\ (forall k, In k (Obj.keys (buildFrequency tokens)) <-> In k tokens)
  /\ (no_array_index tokens -> Obj.keys (buildFrequency tokens) = Set_of tokens)
  /\ list_sum (map snd (Obj.entries (buildFrequency tokens))) = length tokens.
Proof.
  destruct (buildFrequency_spec tokens) as [Hk Hv].
  rewrite Forall_forall in Hv.
  assert (Hp : Permutation (Obj.keys (buildFrequency tokens)) (Set_of tokens)).
  { unfold Obj.keys. rewrite <- Hk. apply Permutation_map, entries_perm. }
  split; [|split; [|split; [|split; [|split]]]].
  - intros k Hin. split; [|apply occ_pos; exact Hin].
    destruct (Obj.get (buildFrequency tokens) k) as [v|] eqn:G.
    + apply get_In in G. apply Hv in G. simpl in G. subst v. reflexivity.
    + apply get_None in G. exfalso. apply G. rewrite Hk. apply Set_of_In. exact Hin.
  - intros k Hnot.
    destruct (Obj.get (buildFrequency tokens) k) as [v|] eqn:G; [|reflexivity].
    apply get_In in G. exfalso. apply Hnot. apply Set_of_In. rewrite <- Hk.
    change k with (fst (k, v)). apply in_map. exact G.
  - apply (Permutation_NoDup (Permutation_sym Hp)), Set_of_NoDup.
  - intros k. split; intros H.
    + apply Set_of_In. apply (Permutation_in _ Hp). exact H.
    + apply (Permutation_in _ (Permutation_sym Hp)). apply Set_of_In. exact H.
  - intros Hn. unfold Obj.keys.
    rewrite (entries_named (buildFrequency_named tokens Hn)). exact Hk.
  - rewrite (list_sum_perm _ _ (Permutation_map snd (entries_perm _))).
    clear Hk Hv Hp. induction tokens as [|x l IH] using rev_ind; [reflexivity|].
    rewrite buildFrequency_snoc, set_sum, IH, length_app. simpl. lia.
Qed.

(** ** What the tokenizer guarantees *)

Lemma split_ws_acc_space_free (toks : jsstring) :
  forall in_run cur t,
    Forall (fun c => is_space c = false) cur ->
    In t (split_ws_acc in_run cur toks) -> Forall (fun c => is_space c = false) t.
Proof.
  induction toks as [|a s IH]; intros in_run cur t Hcur Ht; simpl in Ht.
  - destruct Ht as [<-|[]]. apply Forall_rev. exact Hcur.
  - destruct (is_space a) eqn:E.
    + destruct in_run.
      * eapply IH; [|exact Ht]. constructor.
      * destruct Ht as [<-|Ht].
        -- apply Forall_rev. exact Hcur.
        -- eapply IH; [|exact Ht]. constructor.
    + eapply IH; [|exact Ht]. constructor; assumption.
Qed.

Lemma all_digits_false (t : jsstring) :
  t <> [] -> all_digits t = false -> exists c, In c t /\ is_digit c = false.
Proof.
  intros Hne H. unfold all_digits in H.
  assert (Hf : forallb is_digit t = false)
    by (destruct t; [congruence | exact H]).
  clear H Hne. induction t as [|c l IH]; [discriminate|].
  simpl in Hf. destruct (is_digit c) eqn:E.
  - destruct (IH Hf) as (x & Hx & Hd). exists x. split; [right; exact Hx | exact Hd].
  - exists c. split; [left; reflexivity | exact E].
Qed.

(** X3.  Every token [tokenize] emits is a non-empty piece of the
    normalised text without whitespace, at least [minLen] long (2 when the
    option is omitted), with at least one character that is not a digit. *)
Theorem tokenize_tokens
  (toLowerCase : jsstring -> jsstring) (s : jsstring) (opts : option nat) :
  exists y tokens,
    normalizeText toLowerCase (VString s) = Ok y
    /\ tokenize toLowerCase (VString s) opts = Ok tokens
    /\ Forall
         (fun t =>
            In t (split_ws y)
            /\ t <> []
            /\ match opts with Some m => m | None => 2 end <= length t
            /\ Forall (fun c => is_space c = false) t
            /\ exists c, In c t /\ is_digit c = false)
         tokens.
Proof.
  destruct (tokenize_string toLowerCase s opts) as (y & Hy & _ & Htok).
  exists y. eexists. split; [exact Hy|]. split; [exact Htok|].
  apply Forall_forall. intros t Ht.
  apply filter_In in Ht as [Ht Hk]. apply filter_In in Ht as [Ht Hne].
  apply keep_token_true in Hk as (Hlen & _ & Hd).
  assert (Hne' : t <> []) by (destruct t; [discriminate | congruence]).
  split; [exact Ht|]. split; [exact Hne'|]. split; [exact Hlen|]. split.
  - eapply split_ws_acc_space_free; [|exact Ht]. constructor.
  - apply all_digits_false; assumption.
Qed.

(** ** The stopword test *)

Lemma has_STOPWORDS_single (t : jsstring) :
  has STOPWORDS t = true -> length t = 1.
Proof.
  intros H. apply has_In in H. rewrite STOPWORDS_characters in H.
  apply in_map_iff in H as (c & <- & _). reflexivity.
Qed.

(** X4.  [STOPWORDS.has(t)] holds of one-character strings only, so from
    [minLen = 2] on the stopword test drops nothing: the tokens are exactly
    the non-empty pieces of the normalised text that are at least [minLen]
    long and not made of digits only. *)
Theorem tokenize_stopword_test_inert
  (toLowerCase : jsstring -> jsstring) (s : jsstring) (minLen : nat) :
  2 <= minLen ->
  (forall t, has STOPWORDS t = true -> length t = 1)
  /\ exists y,
       normalizeText toLowerCase (VString s) = Ok y
       /\ tokenize toLowerCase (VString s) (Some minLen)
          = Ok (filter (fun t => (minLen <=? length t) && negb (all_digits t))
                  (filter nonempty (split_ws y))).
Proof.
  intros Hmin. split; [exact has_STOPWORDS_single|].
  destruct (tokenize_string toLowerCase s (Some minLen)) as (y & Hy & _ & Htok).
  exists y. split; [exact Hy|]. rewrite Htok. f_equal.
  apply filter_ext. intros t. unfold keep_token.
  destruct (length t <? minLen) eqn:E1.
  - apply Nat.ltb_lt in E1.
    assert (E2 : (minLen <=? length t) = false) by (apply Nat.leb_gt; exact E1).
    rewrite E2. reflexivity.
  - apply Nat.ltb_ge in E1.
    assert (E2 : (minLen <=? length t) = true) by (apply Nat.leb_le; exact E1).
    rewrite E2. destruct (has STOPWORDS t) eqn:E3.
    + apply has_STOPWORDS_single in E3. lia.
    + destruct (all_digits t); reflexivity.
Qed.

Lemma tokenize_stopword_test_inert_witness :
  (forall t, has STOPWORDS t = true -> length t = 1)
  /\ exists y,
       normalizeText toLowerCase_ascii (VString (utf16 "The cat and the 2 dogs")) = Ok y
       /\ tokenize toLowerCase_ascii (VString (utf16 "The cat and the 2 dogs")) (Some 2)
          = Ok (filter (fun t => (2 <=? length t) && negb (all_digits t))
                  (filter nonempty (split_ws y))).
Proof.
  apply (tokenize_stopword_test_inert toLowerCase_ascii
           (utf16 "The cat and the 2 dogs") 2).
  lia.
Defined.

(** ** Tokenizing the joined tokens *)

Lemma split_ws_acc_word (t : jsstring) :
  Forall (fun c => is_space c = false) t ->
  forall cur rest,
    split_ws_acc false cur (t ++ rest) = split_ws_acc false (rev t ++ cur) rest.
Proof.
  induction 1 as [|c t Hc _ IH]; intros cur rest; [reflexivity|].
  cbn [app split_ws_acc rev]. rewrite Hc, IH, <- app_assoc. reflexivity.
Qed.

Lemma split_ws_acc_word_start (t : jsstring) (in_run : bool) (rest : jsstring) :
  t <> [] -> Forall (fun c => is_space c = false) t ->
  split_ws_acc in_run [] (t ++ rest) = split_ws_acc false (rev t) rest.
Proof.
  intros Hne Ht. destruct t as [|c t]; [congruence|].
  inversion Ht as [|? ? Hc Ht']; subst.
  cbn [app split_ws_acc rev]. rewrite Hc, (split_ws_acc_word t Ht').
  destruct in_run; reflexivity.
Qed.

Lemma split_ws_join (tokens : list jsstring) :
  Forall (fun t => t <> [] /\ Forall (fun c => is_space c = false) t) tokens ->
  tokens <> [] ->
  forall in_run, split_ws_acc in_run [] (join (utf16 " ") tokens) = tokens.
Proof.
  induction 1 as [|t ts [Hne Ht] Hts IH]; intros Hnil in_run;
    [exfalso; apply Hnil; reflexivity|].
  destruct ts as [|t2 rest].
  - cbn [join]. rewrite <- (app_nil_r t) at 1.
    rewrite (split_ws_acc_word_start t in_run [] Hne Ht).
    simpl. rewrite rev_involutive. reflexivity.
  - change (join (utf16 " ") (t :: t2 :: rest))
      with (t ++ utf16 " " ++ join (utf16 " ") (t2 :: rest)).
    rewrite (split_ws_acc_word_start t in_run _ Hne Ht).
    change (utf16 " ") with [32%N]. cbn [app split_ws_acc].
    change (is_space 32%N) with true. cbn iota.
    rewrite rev_involutive. f_equal.
    apply IH. discriminate.
Qed.

Lemma join_kept (tokens : list jsstring) :
  Forall (fun t => Forall (fun c => is_kept c = true) t) tokens ->
  Forall (fun c => is_kept c = true) (join (utf16 " ") tokens).
Proof.
  induction 1 as [|t ts Ht Hts IH]; [constructor|].
  destruct ts as [|t2 rest]; [exact Ht|].
  change (join (utf16 " ") (t :: t2 :: rest))
    with (t ++ utf16 " " ++ join (utf16 " ") (t2 :: rest)).
  apply Forall_app. split; [exact Ht|].
  apply Forall_app. split; [|exact IH].
  constructor; [reflexivity | constructor].
Qed.

(** X5.  Tokenizing is stable under a round trip through text: the tokens
    of a string, joined by single spaces and tokenized again with the same
    options, come back unchanged (for every lower-casing that leaves the
    kept characters alone). *)
Theorem tokenize_join_roundtrip
  (toLowerCase : jsstring -> jsstring) (s : jsstring) (opts : option nat)
  (tokens : list jsstring) :
  (forall x, Forall (fun c => is_kept c = true) x -> toLowerCase x = x) ->
  tokenize toLowerCase (VString s) opts = Ok tokens ->
  tokenize toLowerCase (VString (join (utf16 " ") tokens)) opts = Ok tokens.
Proof.
  intros Hlower Htok.
  destruct (tokenize_string toLowerCase s opts) as (y & _ & Hk & Htok').
  rewrite Htok in Htok'. injection Htok' as Htokens.
  set (m := match opts with Some m => m | None => 2 end) in *.
  assert (Hall : forall t, In t tokens ->
                   keep_token m t = true /\ t <> []
                   /\ Forall (fun c => is_space c = false) t
                   /\ Forall (fun c => is_kept c = true) t).
  { intros t Ht. rewrite Htokens in Ht. pose proof Ht as Ht0.
    apply filter_In in Ht as [Ht Hkeep]. apply filter_In in Ht as [Ht Hne].
    split; [exact Hkeep|]. split; [destruct t; [discriminate | congruence]|]. split.
    - eapply split_ws_acc_space_free; [|exact Ht]. constructor.
    - apply Forall_forall. intros c Hc. rewrite Forall_forall in Hk. apply Hk.
      eapply token_chars; eassumption. }
  assert (Hj : Forall (fun c => is_kept c = true) (join (utf16 " ") tokens)).
  { apply join_kept. apply Forall_forall. intros t Ht. apply Hall. exact Ht. }
  unfold tokenize. rewrite (@normalizeText_kept toLowerCase _ Hlower Hj).
  cbn [bind]. fold m. f_equal.
  destruct tokens as [|t0 ts] eqn:Et; [reflexivity|]. rewrite <- Et in *.
  unfold split_ws. rewrite split_ws_join.
  - rewrite (filter_all _ nonempty tokens).
    + apply filter_all. intros t Ht. apply Hall. exact Ht.
    + intros t Ht. destruct (Hall t Ht) as (_ & Hne & _).
      destruct t; [congruence | reflexivity].
  - apply Forall_forall. intros t Ht. destruct (Hall t Ht) as (_ & Hne & Hsp & _).
    split; assumption.
  - rewrite Et. discriminate.
Qed.

Lemma tokenize_join_roundtrip_witness :
  tokenize toLowerCase_ascii
    (VString (join (utf16 " ") [utf16 "senior"; utf16 "c++"; utf16 "developer"]))
    (Some 2)
  = Ok [utf16 "senior"; utf16 "c++"; utf16 "developer"].
Proof.
  apply (tokenize_join_roundtrip toLowerCase_ascii
           (utf16 "Senior C++ developer, 55!") (Some 2)
           [utf16 "senior"; utf16 "c++"; utf16 "developer"]
           toLowerCase_ascii_kept).
  vm_compute. reflexivity.
Defined.

(** ** The cut of the keyword list *)

Lemma StronglySorted_app_inv (A : Type) (R : A -> A -> Prop) (l1 l2 : list A) :
  StronglySorted R (l1 ++ l2) -> forall a b, In a l1 -> In b l2 -> R a b.
Proof.
  induction l1 as [|x l1 IH]; simpl; intros H a b Ha Hb; [contradiction|].
  inversion H as [|? ? Hl Hx]; subst.
  destruct Ha as [<-|Ha].
  - rewrite Forall_forall in Hx. apply Hx. apply in_or_app. right. exact Hb.
  - apply IH; assumption.
Qed.

Lemma extractTopKeywords_all (tokens : list jsstring) (topK : nat) :
  length (Set_of tokens) <= topK ->
  forall k, In k tokens -> In k (extractTopKeywords tokens topK).
Proof.
  intros Hd k Hk. pose proof (extractTopKeywords_keys tokens) as Hp.
  unfold extractTopKeywords. rewrite firstn_all2.
  - apply (Permutation_in _ (Permutation_sym Hp)). apply Set_of_In. exact Hk.
  - rewrite <- (length_map fst), (Permutation_length Hp). exact Hd.
Qed.

(** X6.  [extractTopKeywords] keeps the [topK] most frequent distinct
    tokens: it returns [min topK d] of the [d] distinct tokens, no token it
    leaves out is more frequent than one it returns, it returns every
    distinct token when there are at most [topK] of them, and the list for
    a smaller [topK] is a prefix of the list for a larger one. *)
Theorem extractTopKeywords_top (tokens : list jsstring) (topK : nat) :
  length (extractTopKeywords tokens topK) = min topK (length (Set_of tokens))
  /\ (forall a b,
        In a (extractTopKeywords tokens topK) ->
        In b tokens -> ~ In b (extractTopKeywords tokens topK) ->
        occ b tokens <= occ a tokens)
  /\ (length (Set_of tokens) <= topK ->
      forall k, In k (extractTopKeywords tokens topK) <-> In k tokens)
  /\ (forall k, k <= topK ->
        extractTopKeywords tokens k = firstn k (extractTopKeywords tokens topK)).
Proof.
  destruct (extractTopKeywords_basic tokens topK) as (Hlen & _ & Hsub).
  pose proof (extractTopKeywords_keys tokens) as Hp.
  destruct (buildFrequency_spec tokens) as [_ Hv]. rewrite Forall_forall in Hv.
  unfold extractTopKeywords in *.
  set (sorted := sort_desc (Obj.entries (buildFrequency tokens))) in *.
  assert (Hocc : forall e, In e sorted -> snd e = occ (fst e) tokens).
  { intros e He. apply Hv.
    apply (Permutation_in _ (entries_perm _)).
    apply (Permutation_in _ (sort_desc_perm _)). exact He. }
  split; [exact Hlen|]. split; [|split].
  - intros a b Ha Hb Hnot.
    apply in_map_iff in Ha as (ea & <- & Ha).
    assert (Hb' : In b (map fst sorted)).
    { apply (Permutation_in _ (Permutation_sym Hp)). apply Set_of_In. exact Hb. }
    apply in_map_iff in Hb' as (eb & <- & Hb').
    rewrite <- (firstn_skipn topK sorted) in Hb'.
    apply in_app_or in Hb' as [Hb'|Hb'].
    { exfalso. apply Hnot. apply in_map. exact Hb'. }
    assert (Hs : StronglySorted (desc_stable (fun _ _ => True)) sorted).
    { apply sort_desc_sorted. apply StronglySorted_True. }
    rewrite <- (firstn_skipn topK sorted) in Hs.
    destruct (StronglySorted_app_inv _ _ _ _ Hs ea eb Ha Hb') as [Hle _].
    rewrite <- (Hocc ea), <- (Hocc eb); [exact Hle | |].
    + rewrite <- (firstn_skipn topK sorted). apply in_or_app. right. exact Hb'.
    + eapply In_firstn. exact Ha.
  - intros Hd k. rewrite firstn_all2.
    + split; intros Hk.
      * apply Set_of_In. apply (Permutation_in _ Hp). exact Hk.
      * apply (Permutation_in _ (Permutation_sym Hp)). apply Set_of_In. exact Hk.
    + rewrite <- (length_map fst), (Permutation_length Hp). exact Hd.
  - intros k Hk. rewrite <- !firstn_map, firstn_firstn.
    rewrite (Nat.min_l k topK Hk). reflexivity.
Qed.

(** ** Order and extremes of the keyword match *)

Lemma StronglySorted_filter (A : Type) (R : A -> A -> Prop) (p : A -> bool) (l : list A) :
  StronglySorted R l -> StronglySorted R (filter p l).
Proof.
  induction 1 as [|a l Hl IH Ha]; simpl; [constructor|].
  destruct (p a); [|exact IH]. constructor; [exact IH|].
  rewrite Forall_forall in *. intros x Hx. apply Ha.
  apply filter_In in Hx. tauto.
Qed.

(** X7.  [matchKeywords] lists the matched and the missing keywords in the
    order of their first occurrence in [jdKeywords]; a keyword is missing
    exactly when it is a JD keyword that is no resume keyword, and
    [resumeCount] is at most the number of resume keywords, with equality
    when they are distinct. *)
Theorem matchKeywords_order
  (F : Type) (num : Number F) (jdKeywords resumeKeywords : list jsstring) :
  let r := matchKeywords (num := num) jdKeywords resumeKeywords in
  StronglySorted
    (fun a b => first_index a jdKeywords < first_index b jdKeywords) (matched r)
  /\ StronglySorted
       (fun a b => first_index a jdKeywords < first_index b jdKeywords) (missing r)
  /\ (forall k, In k (missing r) <-> In k jdKeywords /\ ~ In k resumeKeywords)
  /\ resumeCount r <= length resumeKeywords
  /\ (NoDup resumeKeywords -> resumeCount r = length resumeKeywords).
Proof.
  destruct (matchKeywords_fields (num := num) jdKeywords resumeKeywords)
    as (Hm & Hmi & _ & Hr & _).
  cbv zeta in *. rewrite Hm, Hmi, Hr.
  split; [|split; [|split; [|split]]].
  - apply StronglySorted_filter, Set_of_first_index.
  - apply StronglySorted_filter, Set_of_first_index.
  - intros k. rewrite filter_In, Set_of_In, negb_true_iff, has_not_In, Set_of_In.
    tauto.
  - apply NoDup_incl_length; [apply Set_of_NoDup|].
    intros k Hk. apply Set_of_In. exact Hk.
  - intros Hnd. rewrite (Set_of_fixed Hnd). reflexivity.
Qed.

(** X8.  Under the standard model of floating point [overlapPct] lies in
    [0, 100]; it is exactly 100 when every JD keyword is a resume keyword
    (and there is one), and exactly 0 when none is. *)
Theorem matchKeywords_overlap_extremes
  (rnd : R -> R) (jdKeywords resumeKeywords : list jsstring) :
  Rounded.StandardModel rnd ->
  let r := matchKeywords (num := Rounded.number rnd) jdKeywords resumeKeywords in
  (0 <= overlapPct r <= 100)%R
  /\ (jdKeywords <> [] ->
      (forall k, In k jdKeywords -> In k resumeKeywords) ->
      overlapPct r = 100%R /\ missing r = [])
  /\ ((forall k, In k jdKeywords -> ~ In k resumeKeywords) ->
      overlapPct r = 0%R /\ matched r = []).
Proof.
  intros Hstd r. split; [apply (overlap_range rnd Hstd)|].
  destruct (matchKeywords_fields (num := Rounded.number rnd) jdKeywords resumeKeywords)
    as (Hm & Hmi & _ & _ & Ho).
  fold r in Hm, Hmi, Ho. split.
  - intros Hne Hall.
    assert (Hin : forall k, In k (Set_of jdKeywords) ->
                            has (Set_of resumeKeywords) k = true).
    { intros k Hk. apply has_In, Set_of_In, Hall, Set_of_In. exact Hk. }
    rewrite filter_all in Hm by exact Hin.
    rewrite filter_none in Hmi by (intros k Hk; rewrite (Hin k Hk); reflexivity).
    split; [|exact Hmi].
    rewrite Ho, Hm.
    assert (Hj : length (Set_of jdKeywords) <> 0).
    { destruct jdKeywords as [|t l]; [congruence|].
      assert (Ht : In t (Set_of (t :: l))) by (apply Set_of_In; left; reflexivity).
      destruct (Set_of (t :: l)); [destruct Ht | discriminate]. }
    destruct (length (Set_of jdKeywords) =? 0) eqn:E;
      [apply Nat.eqb_eq in E; contradiction|].
    cbn [mul div of_nat Rounded.number]. rewrite INR_100.
    replace (INR _ / INR _)%R with 1%R.
    + rewrite (Bounds.rnd_1 rnd Hstd), Rmult_1_l. apply (Bounds.rnd_100 rnd Hstd).
    + field. apply not_0_INR. exact Hj.
  - intros Hnone.
    assert (Hin : forall k, In k (Set_of jdKeywords) ->
                            has (Set_of resumeKeywords) k = false).
    { intros k Hk. apply has_not_In. rewrite Set_of_In. apply Hnone, Set_of_In.
      exact Hk. }
    rewrite filter_none in Hm by exact Hin.
    split; [|exact Hm].
    rewrite Ho, Hm.
    destruct (length (Set_of jdKeywords) =? 0); [reflexivity|].
    cbn [mul div of_nat Rounded.number length INR].
    unfold Rdiv. rewrite Rmult_0_l, (Bounds.rnd_0 rnd Hstd), Rmult_0_l.
    apply (Bounds.rnd_0 rnd Hstd).
Qed.

Lemma matchKeywords_overlap_extremes_witness :
  let r := matchKeywords (num := Rounded.exact)
             [utf16 "python"; utf16 "sql"] [utf16 "sql"; utf16 "python"; utf16 "go"] in
  (0 <= overlapPct r <= 100)%R
  /\ ([utf16 "python"; utf16 "sql"] <> [] ->
      (forall k, In k [utf16 "python"; utf16 "sql"] ->
                 In k [utf16 "sql"; utf16 "python"; utf16 "go"]) ->
      overlapPct r = 100%R /\ missing r = [])
  /\ ((forall k, In k [utf16 "python"; utf16 "sql"] ->
                 ~ In k [utf16 "sql"; utf16 "python"; utf16 "go"]) ->
      overlapPct r = 0%R /\ matched r = []).
Proof.
  exact (matchKeywords_overlap_extremes (fun x => x)
           [utf16 "python"; utf16 "sql"] [utf16 "sql"; utf16 "python"; utf16 "go"]
           exact_standard_model).
Defined.

(** ** Values that are not strings *)

Lemma truthy_non_string_throws
  (toLowerCase : jsstring -> jsstring) (v : jsval) (opts : option nat) :
  truthy v = true ->
  (exists s, v = VString s)
  \/ tokenize toLowerCase v opts
     = Throw (TypeError (utf16 "text.toLowerCase is not a function")).
Proof.
  intros H. unfold tokenize, normalizeText. rewrite H.
  destruct v; try (right; reflexivity).
  left. exists s. reflexivity.
Qed.

(** X9.  [tokenize] by the type of its argument: a falsy value (undefined,
    null, false, 0, NaN, the empty string) has no tokens; a truthy value
    that is not a string makes [normalizeText] throw the TypeError of the
    call [text.toLowerCase()], which [tokenize] passes on; a string always
    has a token list. *)
Theorem tokenize_by_type
  (toLowerCase : jsstring -> jsstring) (v : jsval) (opts : option nat) :
  (truthy v = false ->
   normalizeText toLowerCase v = Ok []
   /\ tokenize toLowerCase v opts = Ok [])
  /\ (truthy v = true -> (forall s, v <> VString s) ->
      normalizeText toLowerCase v
      = Throw (TypeError (utf16 "text.toLowerCase is not a function"))
      /\ tokenize toLowerCase v opts
         = Throw (TypeError (utf16 "text.toLowerCase is not a function")))
  /\ (forall s, v = VString s ->
      exists tokens, tokenize toLowerCase v opts = Ok tokens).
Proof.
  split; [|split].
  - intros H. unfold tokenize, normalizeText. rewrite H. split; reflexivity.
  - intros H Hs. unfold tokenize, normalizeText. rewrite H.
    destruct v; try (split; reflexivity).
    exfalso. apply (Hs s). reflexivity.
  - intros s ->.
    destruct (tokenize_string toLowerCase s opts) as (y & _ & _ & Htok).
    eexists. exact Htok.
Qed.

(** ** The outcomes of the handler *)

Lemma pipeline_strings
  (F : Type) (num : Number F) (toLowerCase : jsstring -> jsstring)
  (jd resume : jsstring) :
  exists r, pipeline (num := num) toLowerCase (VString jd) (VString resume) = Ok r.
Proof.
  destruct (tokenize_string toLowerCase jd (Some 2)) as (y1 & _ & _ & H1).
  destruct (tokenize_string toLowerCase resume (Some 2)) as (y2 & _ & _ & H2).
  unfold pipeline. rewrite H1, H2. eexists. reflexivity.
Qed.

Lemma pipeline_throws
  (F : Type) (num : Number F) (toLowerCase : jsstring -> jsstring)
  (v1 v2 : jsval) :
  truthy v1 = true -> truthy v2 = true ->
  (forall jd resume, ~ (v1 = VString jd /\ v2 = VString resume)) ->
  pipeline (num := num) toLowerCase v1 v2
  = Throw (TypeError (utf16 "text.toLowerCase is not a function")).
Proof.
  intros H1 H2 Hns.
  destruct (truthy_non_string_throws toLowerCase v1 (Some 2) H1) as [(s1 & ->)|E1].
  - destruct (truthy_non_string_throws toLowerCase v2 (Some 2) H2) as [(s2 & ->)|E2].
    + exfalso. apply (Hns s1 s2). split; reflexivity.
    + destruct (tokenize_string toLowerCase s1 (Some 2)) as (y1 & _ & _ & T1).
      unfold pipeline. rewrite T1, E2. reflexivity.
  - unfold pipeline. rewrite E1. reflexivity.
Qed.

Lemma preflight_not_POST (req : request) :
  is_preflight req = true -> method req <> utf16 "POST".
Proof.
  intros H E. unfold is_preflight in H. rewrite E in H. discriminate.
Qed.

(** X10.  What the exported function answers.  A preflight request
    (method OPTIONS) is answered 204 without a body by [cors] and the
    handler does not run.  Any other request that is not a POST gets the
    fixed 405, whatever its body holds.  A POST carrying two non-empty
    strings gets 200 with the report of the pipeline, which never throws
    on strings.  A POST whose two fields are truthy but not both strings
    gets 500 with the fixed error and, as details, the message of the
    TypeError that [normalizeText] throws. *)
Theorem matchJDandResume_outcomes
  (F : Type) (num : Number F) (toLowerCase : jsstring -> jsstring) (req : request) :
  let r := matchJDandResume (num := num) toLowerCase req in
  (method req = utf16 "OPTIONS" -> r = no_content)
  /\ (is_preflight req = false -> method req <> utf16 "POST" ->
      r = method_not_allowed F)
  /\ (forall jd resume,
        method req = utf16 "POST" ->
        body req = Some {| jd_text := VString jd; resume_text := VString resume |} ->
        jd <> [] -> resume <> [] ->
        exists resp,
          pipeline toLowerCase (VString jd) (VString resume) = Ok resp
          /\ r = {| status := 200; json := ResultBody resp |})
  /\ (forall b,
        method req = utf16 "POST" -> body req = Some b ->
        truthy (jd_text b) = true -> truthy (resume_text b) = true ->
        (forall jd resume,
            ~ (jd_text b = VString jd /\ resume_text b = VString resume)) ->
        r = {| status := 500;
               json := ErrorBody (utf16 "Internal error computing match.")
                         (Some (utf16 "text.toLowerCase is not a function")) |}).
Proof.
  intros r. subst r.
  split; [|split; [|split]].
  - intros Hm. unfold matchJDandResume, cors, is_preflight. rewrite Hm. reflexivity.
  - intros Hpre Hm. unfold matchJDandResume, cors. rewrite Hpre.
    unfold onRequest. apply str_eqb_neq in Hm. rewrite Hm. reflexivity.
  - intros jd resume Hm Hb Hjd Hres.
    rewrite (matchJDandResume_POST F num toLowerCase req Hm).
    unfold onRequest. rewrite Hm, str_eqb_refl, Hb.
    cbn [negb jd_text resume_text].
    destruct jd; [congruence|]. destruct resume; [congruence|].
    cbn [truthy negb orb].
    destruct (pipeline_strings F num toLowerCase (c :: jd) (c0 :: resume)) as (resp & Hp).
    exists resp. split; [exact Hp|]. rewrite Hp. reflexivity.
  - intros b Hm Hb H1 H2 Hns.
    rewrite (matchJDandResume_POST F num toLowerCase req Hm).
    unfold onRequest. rewrite Hm, str_eqb_refl, Hb, H1, H2.
    cbn [negb orb].
    rewrite (pipeline_throws F num toLowerCase _ _ H1 H2 Hns). reflexivity.
Qed.

(** ** Cosine similarity and the order of the words *)

Lemma occ_perm (k : jsstring) (l l' : list jsstring) :
  Permutation l l' -> occ k l = occ k l'.
Proof.
  intros H. unfold occ. apply Permutation_length.
  induction H; simpl.
  - constructor.
  - destruct (str_eqb k x); [constructor|]; assumption.
  - destruct (str_eqb k x), (str_eqb k y); try constructor;
      try apply Permutation_refl.
  - eapply Permutation_trans; eassumption.
Qed.

Lemma In_keys_buildFrequency (tokens : list jsstring) (t : jsstring) :
  In t (Obj.keys (buildFrequency tokens)) <-> In t tokens.
Proof.
  split; [|apply keys_buildFrequency].
  intros H. unfold Obj.keys in H.
  apply (Permutation_in _ (Permutation_map fst (entries_perm _))) in H.
  destruct (buildFrequency_spec tokens) as [Hk _]. rewrite Hk in H.
  apply Set_of_In. exact H.
Qed.

(** The exact sums of two documents, by occurrences. *)
Lemma exact_sums_tokens (tokensA tokensB : list jsstring) :
  exists keys,
    NoDup keys
    /\ (forall k, In k keys <-> In k tokensA \/ In k tokensB)
    /\ exact_sums (buildFrequency tokensA) (buildFrequency tokensB)
       = (list_sum (map (fun k => occ k tokensA * occ k tokensB) keys),
          list_sum (map (fun k => occ k tokensA * occ k tokensA) keys),
          list_sum (map (fun k => occ k tokensB * occ k tokensB) keys)).
Proof.
  exists (cosine_keys (buildFrequency tokensA) (buildFrequency tokensB)).
  split; [apply Set_of_NoDup|]. split.
  - intros k. unfold cosine_keys.
    rewrite Set_of_In, in_app_iff, !In_keys_buildFrequency. tauto.
  - unfold exact_sums, a_of, b_of.
    f_equal; [f_equal|]; f_equal; apply map_ext; intros k;
      rewrite ?buildFrequency_get; reflexivity.
Qed.

Lemma exact_sums_perm (tokensA tokensA' tokensB tokensB' : list jsstring) :
  Permutation tokensA tokensA' -> Permutation tokensB tokensB' ->
  exact_sums (buildFrequency tokensA) (buildFrequency tokensB)
  = exact_sums (buildFrequency tokensA') (buildFrequency tokensB').
Proof.
  intros HA HB.
  destruct (exact_sums_tokens tokensA tokensB) as (keys & Hnd & Hin & ->).
  destruct (exact_sums_tokens tokensA' tokensB') as (keys' & Hnd' & Hin' & ->).
  assert (Hp : Permutation keys keys').
  { apply NoDup_Permutation; [exact Hnd | exact Hnd'|].
    intros k. rewrite Hin, Hin'.
    split; intros [H|H];
      [left; apply (Permutation_in _ HA) | right; apply (Permutation_in _ HB)
      |left; apply (Permutation_in _ (Permutation_sym HA))
      |right; apply (Permutation_in _ (Permutation_sym HB))]; exact H. }
  f_equal; [f_equal|];
    rewrite (list_sum_perm _ _ (Permutation_map _ Hp));
    f_equal; apply map_ext; intros k;
    rewrite ?(occ_perm k _ _ HA), ?(occ_perm k _ _ HB); reflexivity.
Qed.

(** X11.  Under the standard model of floating point the similarity of
    two documents does not depend on the order of their words, as long as
    the two sums of squared counts are at most 2^53: permuting the tokens
    of either document leaves the three sums, which are then computed
    without rounding, and so the result unchanged. *)
Theorem cosineSimilarity_word_order
  (rnd : R -> R) (tokensA tokensA' tokensB tokensB' : list jsstring)
  (D NA NB : nat) :
  Rounded.StandardModel rnd ->
  Permutation tokensA tokensA' -> Permutation tokensB tokensB' ->
  exact_sums (buildFrequency tokensA) (buildFrequency tokensB) = (D, NA, NB) ->
  (Z.of_nat NA <= 2 ^ 53)%Z -> (Z.of_nat NB <= 2 ^ 53)%Z ->
  cosine_sums (num := Rounded.number rnd)
    (buildFrequency tokensA) (buildFrequency tokensB)
  = cosine_sums (num := Rounded.number rnd)
      (buildFrequency tokensA') (buildFrequency tokensB')
  /\ cosineSimilarity (num := Rounded.number rnd)
       (buildFrequency tokensA) (buildFrequency tokensB)
     = cosineSimilarity (num := Rounded.number rnd)
         (buildFrequency tokensA') (buildFrequency tokensB').
Proof.
  intros Hstd HA HB Hex HNA HNB.
  pose proof Hex as Hex'. rewrite (exact_sums_perm _ _ _ _ HA HB) in Hex'.
  destruct (cosine_range_exact rnd Hstd _ _ D NA NB Hex HNA HNB) as [H1 _].
  destruct (cosine_range_exact rnd Hstd _ _ D NA NB Hex' HNA HNB) as [H2 _].
  split; [rewrite H1, H2; reflexivity|].
  unfold cosineSimilarity. rewrite H1, H2. reflexivity.
Qed.

Lemma cosineSimilarity_word_order_witness :
  cosine_sums (num := Rounded.number fixed_point)
    (buildFrequency (map utf16 ["react"; "node"; "react"]%string))
    (buildFrequency (map utf16 ["node"; "sql"]%string))
  = cosine_sums (num := Rounded.number fixed_point)
      (buildFrequency (map utf16 ["node"; "react"; "react"]%string))
      (buildFrequency (map utf16 ["sql"; "node"]%string))
  /\ cosineSimilarity (num := Rounded.number fixed_point)
       (buildFrequency (map utf16 ["react"; "node"; "react"]%string))
       (buildFrequency (map utf16 ["node"; "sql"]%string))
     = cosineSimilarity (num := Rounded.number fixed_point)
         (buildFrequency (map utf16 ["node"; "react"; "react"]%string))
         (buildFrequency (map utf16 ["sql"; "node"]%string)).
Proof.
  apply (cosineSimilarity_word_order fixed_point
           (map utf16 ["react"; "node"; "react"]%string)
           (map utf16 ["node"; "react"; "react"]%string)
           (map utf16 ["node"; "sql"]%string) (map utf16 ["sql"; "node"]%string)
           1 5 2 fixed_point_standard_model).
  - apply perm_swap.
  - apply perm_swap.
  - vm_compute. reflexivity.
  - vm_compute. discriminate.
  - vm_compute. discriminate.
Defined.

(** ** Range of the similarity and documents without a common token *)

(** X12.  Under the standard model of floating point, for two token
    sequences of fewer than 2^32 tokens each: the similarity lies between
    0 and 1.00006 (the three sums accumulate rounding errors); it is at
    most (1 + 4 eps)(1 + eps) when the two sums of squared counts are at
    most 2^53; it is exactly 0 when the sequences share no token; and when
    both sequences are non-empty both norms are at least 1 and so is the
    divisor, so the division is never by zero. *)
Theorem cosineSimilarity_model
  (rnd : R -> R) (tokensA tokensB : list jsstring) :
  Rounded.StandardModel rnd ->
  (Z.of_nat (length tokensA) < 2 ^ 32)%Z ->
  (Z.of_nat (length tokensB) < 2 ^ 32)%Z ->
  let sim := cosineSimilarity (num := Rounded.number rnd)
               (buildFrequency tokensA) (buildFrequency tokensB) in
  (0 <= sim <= 1 + 6 / 10 ^ 5)%R
  /\ (forall D NA NB,
        exact_sums (buildFrequency tokensA) (buildFrequency tokensB) = (D, NA, NB) ->
        (Z.of_nat NA <= 2 ^ 53)%Z -> (Z.of_nat NB <= 2 ^ 53)%Z ->
        (sim <= (1 + 4 * Rounded.eps) * (1 + Rounded.eps))%R)
  /\ ((forall t, In t tokensA -> ~ In t tokensB) -> sim = 0%R)
  /\ (tokensA <> [] -> tokensB <> [] ->
      exists dot normA normB,
        cosine_sums (num := Rounded.number rnd)
          (buildFrequency tokensA) (buildFrequency tokensB)
        = (dot, normA, normB)
        /\ (1 <= normA)%R /\ (1 <= normB)%R
        /\ (1 <= mul (Number := Rounded.number rnd)
                   (sqrt (Number := Rounded.number rnd) normA)
                   (sqrt (Number := Rounded.number rnd) normB))%R
        /\ sim = div (Number := Rounded.number rnd) dot
                   (mul (Number := Rounded.number rnd)
                      (sqrt (Number := Rounded.number rnd) normA)
                      (sqrt (Number := Rounded.number rnd) normB))).
Proof.
  intros Hstd HlA HlB sim.
  split; [|split; [|split]].
  - apply (cosine_range rnd Hstd).
    pose proof (cosine_keys_length tokensA tokensB) as Hk.
    rewrite INR_IZR_INZ, (pow_IZR 2 33). apply IZR_le.
    change (Z.pow 2 (Z.of_nat 33)) with (2 ^ 33)%Z. lia.
  - intros D NA NB Hex HNA HNB.
    apply (cosine_range_exact rnd Hstd _ _ D NA NB Hex HNA HNB).
  - intros Hdis. subst sim.
    destruct (exact_sums (buildFrequency tokensA) (buildFrequency tokensB))
      as [[D NA] NB] eqn:Hex.
    destruct (cosine_sums (num := Rounded.number rnd)
                (buildFrequency tokensA) (buildFrequency tokensB))
      as [[d na] nb] eqn:Hs.
    destruct (cosineSimilarity_cases rnd Hstd _ _ D NA NB d na nb Hex Hs) as [Hz Hnz].
    destruct (Nat.eq_dec NA 0) as [HA|HA]; [apply Hz; left; exact HA|].
    destruct (Nat.eq_dec NB 0) as [HB|HB]; [apply Hz; right; exact HB|].
    destruct (Hnz HA HB) as (Hna & Hnb & ->).
    assert (HD : D = 0).
    { destruct (exact_sums_tokens tokensA tokensB) as (keys & _ & _ & Hex').
      rewrite Hex in Hex'. injection Hex' as -> _ _.
      apply list_sum_zero. intros k.
      destruct (occ k tokensA) eqn:EA; [reflexivity|].
      destruct (occ k tokensB) eqn:EB; [apply Nat.mul_0_r|].
      exfalso. apply (Hdis k); apply occ_pos; lia. }
    assert (Hd : d = 0%R).
    { rewrite (cosine_sums_model rnd) in Hs. injection Hs as Hd _ _.
      unfold exact_sums in Hex. injection Hex as HD' _ _.
      destruct (rounded_sum_bounds rnd Hstd
                  (map (fun k => (a_of (buildFrequency tokensA) k
                                  * b_of (buildFrequency tokensB) k)%nat)
                     (cosine_keys (buildFrequency tokensA) (buildFrequency tokensB))))
        as (_ & H0 & _).
      rewrite <- Hd. apply H0. rewrite HD'. exact HD. }
    rewrite Hd. cbn [div Rounded.number]. unfold Rdiv. rewrite Rmult_0_l.
    apply (Bounds.rnd_0 rnd Hstd).
  - intros HA HB.
    destruct (exact_sums (buildFrequency tokensA) (buildFrequency tokensB))
      as [[D NA] NB] eqn:Hex.
    destruct (cosine_sums (num := Rounded.number rnd)
                (buildFrequency tokensA) (buildFrequency tokensB))
      as [[d na] nb] eqn:Hs.
    destruct (cosineSimilarity_cases rnd Hstd _ _ D NA NB d na nb Hex Hs) as [_ Hnz].
    destruct (exact_sums_tokens tokensA tokensB) as (keys & _ & Hin & Hex').
    rewrite Hex in Hex'. injection Hex' as _ HNA HNB.
    assert (Hpos : forall (l : list jsstring) (f : jsstring -> nat),
               l <> [] -> (forall k, In k l -> In k keys) ->
               (forall k, In k l -> 1 <= f k) ->
               list_sum (map (fun k => f k * f k) keys) <> 0).
    { intros l f Hl Hk Hf. destruct l as [|t l]; [congruence|].
      pose proof (list_sum_In (fun k => f k * f k) keys t
                    (Hk t (or_introl eq_refl))) as Hle.
      pose proof (Hf t (or_introl eq_refl)). cbv beta in Hle. nia. }
    assert (HnA : NA <> 0).
    { rewrite HNA. apply (Hpos tokensA (fun k => occ k tokensA) HA).
      - intros k Hk. apply Hin. left. exact Hk.
      - intros k Hk. apply occ_pos. exact Hk. }
    assert (HnB : NB <> 0).
    { rewrite HNB. apply (Hpos tokensB (fun k => occ k tokensB) HB).
      - intros k Hk. apply Hin. right. exact Hk.
      - intros k Hk. apply occ_pos. exact Hk. }
    destruct (Hnz HnA HnB) as (Hna & Hnb & Hsim).
    exists d, na, nb. split; [reflexivity|]. split; [exact Hna|]. split; [exact Hnb|].
    split; [apply (cosine_denominator_positive rnd Hstd); assumption | exact Hsim].
Qed.

Lemma cosineSimilarity_model_witness :
  let tokensA := map utf16 ["python"; "sql"]%string in
  let tokensB := map utf16 ["java"]%string in
  let sim := cosineSimilarity (num := Rounded.number fixed_point)
               (buildFrequency tokensA) (buildFrequency tokensB) in
  (0 <= sim <= 1 + 6 / 10 ^ 5)%R
  /\ (forall D NA NB,
        exact_sums (buildFrequency tokensA) (buildFrequency tokensB) = (D, NA, NB) ->
        (Z.of_nat NA <= 2 ^ 53)%Z -> (Z.of_nat NB <= 2 ^ 53)%Z ->
        (sim <= (1 + 4 * Rounded.eps) * (1 + Rounded.eps))%R)
  /\ ((forall t, In t tokensA -> ~ In t tokensB) -> sim = 0%R)
  /\ (tokensA <> [] -> tokensB <> [] ->
      exists dot normA normB,
        cosine_sums (num := Rounded.number fixed_point)
          (buildFrequency tokensA) (buildFrequency tokensB)
        = (dot, normA, normB)
        /\ (1 <= normA)%R /\ (1 <= normB)%R
        /\ (1 <= mul (Number := Rounded.number fixed_point)
                   (sqrt (Number := Rounded.number fixed_point) normA)
                   (sqrt (Number := Rounded.number fixed_point) normB))%R
        /\ sim = div (Number := Rounded.number fixed_point) dot
                   (mul (Number := Rounded.number fixed_point)
                      (sqrt (Number := Rounded.number fixed_point) normA)
                      (sqrt (Number := Rounded.number fixed_point) normB))).
Proof.
  apply (cosineSimilarity_model fixed_point
           (map utf16 ["python"; "sql"]%string) (map utf16 ["java"]%string)
           fixed_point_standard_model).
  - vm_compute. reflexivity.
  - vm_compute. reflexivity.
Defined.

(** ** The score as a function of its two inputs *)

(** X13.  Under the standard model of floating point the score is monotone
    in both inputs: a higher similarity or a higher keyword overlap never
    lowers [finalScore] or the rounded [matchScore]. *)
Theorem matchScore_monotone (rnd : R -> R) (sem sem' ov ov' : R) :
  Rounded.StandardModel rnd ->
  (sem <= sem')%R -> (ov <= ov')%R ->
  (finalScore (num := Rounded.number rnd) sem ov
   <= finalScore (num := Rounded.number rnd) sem' ov')%R
  /\ (matchScore (num := Rounded.number rnd) sem ov
      <= matchScore (num := Rounded.number rnd) sem' ov')%R.
Proof.
  intros Hstd Hsem Hov.
  pose proof (semanticWeight_near rnd Hstd) as H6.
  pose proof (keywordWeight_near rnd Hstd) as H4.
  pose proof Bounds.eps_pos as He.
  assert (He' : (Rounded.eps <= / 10 ^ 15)%R) by (unfold Rounded.eps; lra).
  assert (Hf : (finalScore (num := Rounded.number rnd) sem ov
                <= finalScore (num := Rounded.number rnd) sem' ov')%R).
  { unfold finalScore.
    set (w6 := semanticWeight) in *. set (w4 := keywordWeight) in *.
    cbn [mul add of_nat Rounded.number]. rewrite INR_100.
    apply (Rounded.rnd_monotone Hstd). apply Rplus_le_compat.
    - apply (Rounded.rnd_monotone Hstd). apply Rmult_le_compat_r; [nra|].
      apply (Rounded.rnd_monotone Hstd). lra.
    - apply (Rounded.rnd_monotone Hstd). apply Rmult_le_compat_r; [nra|]. exact Hov. }
  split; [exact Hf|].
  unfold matchScore.
  set (f := finalScore sem ov) in *. set (f' := finalScore sem' ov') in *.
  cbn [mul div round of_nat Rounded.number]. unfold Rounded.Math_round.
  rewrite INR_100.
  apply (Rounded.rnd_monotone Hstd). apply Rmult_le_compat_r; [lra|].
  apply IZR_le, Int_part_le. apply Rplus_le_compat_r.
  apply (Rounded.rnd_monotone Hstd). lra.
Qed.

Lemma matchScore_monotone_witness :
  (finalScore (num := Rounded.exact) (1 / 2) 25
   <= finalScore (num := Rounded.exact) 1 100)%R
  /\ (matchScore (num := Rounded.exact) (1 / 2) 25
      <= matchScore (num := Rounded.exact) 1 100)%R.
Proof.
  apply (matchScore_monotone (fun x => x) (1 / 2) 1 25 100 exact_standard_model); lra.
Defined.

(** ** The report of the pipeline *)

Lemma generateFeedback_length
  (F : Type) (num : Number F) (score overlapPct : F) (missing : list jsstring) :
  length (generateFeedback score overlapPct missing) = 3.
Proof.
  unfold generateFeedback.
  destruct (geb score (of_nat 85)), (geb score (of_nat 65)), (geb score (of_nat 40)),
    ((0 <? length missing) && (length missing <=? 8)), (8 <? length missing),
    (ltb score (of_nat 85));
    rewrite !length_app; reflexivity.
Qed.

Lemma filter_lengths (A : Type) (p : A -> bool) (l : list A) :
  length (filter p l) + length (filter (fun a => negb (p a)) l) = length l.
Proof.
  rewrite <- (Permutation_length (filter_partition_perm p l)), length_app. lia.
Qed.

(** X15.  The report for two strings: the keyword counts are the numbers
    of distinct tokens capped at 200 (JD) and 400 (resume); matched and
    missing skills add up to the JD count; a matched skill is a token of
    both documents and a missing one a token of the JD; when the resume has
    at most 400 distinct tokens a missing skill does not occur in it; and
    the feedback has three messages. *)
Theorem pipeline_report
  (F : Type) (num : Number F) (toLowerCase : jsstring -> jsstring)
  (jd resume : jsstring) :
  exists jdTokens resumeTokens r,
    tokenize toLowerCase (VString jd) (Some 2) = Ok jdTokens
    /\ tokenize toLowerCase (VString resume) (Some 2) = Ok resumeTokens
    /\ pipeline (num := num) toLowerCase (VString jd) (VString resume) = Ok r
    /\ jd_skill_count r = min 200 (length (Set_of jdTokens))
    /\ resume_skill_count r = min 400 (length (Set_of resumeTokens))
    /\ length (skills_matched r) + length (missing_skills r) = jd_skill_count r
    /\ (forall k, In k (skills_matched r) -> In k jdTokens /\ In k resumeTokens)
    /\ (forall k, In k (missing_skills r) -> In k jdTokens)
    /\ (length (Set_of resumeTokens) <= 400 ->
        forall k, In k (missing_skills r) -> ~ In k resumeTokens)
    /\ length (feedback r) = 3.
Proof.
  destruct (tokenize_string toLowerCase jd (Some 2)) as (y1 & _ & _ & H1).
  destruct (tokenize_string toLowerCase resume (Some 2)) as (y2 & _ & _ & H2).
  set (jdTokens := filter _ _) in H1. set (resumeTokens := filter _ _) in H2.
  exists jdTokens, resumeTokens. eexists.
  split; [exact H1|]. split; [exact H2|].
  split; [unfold pipeline; rewrite H1, H2; reflexivity|].
  cbn [jd_skill_count resume_skill_count skills_matched missing_skills feedback].
  destruct (matchKeywords_fields (num := num) (extractTopKeywords jdTokens 200)
              (extractTopKeywords resumeTokens 400)) as (Hm & Hmi & Hj & Hr & _).
  cbv zeta in Hm, Hmi, Hj, Hr.
  destruct (extractTopKeywords_basic jdTokens 200) as (Hl1 & Hn1 & Hs1).
  destruct (extractTopKeywords_basic resumeTokens 400) as (Hl2 & Hn2 & Hs2).
  rewrite (Set_of_fixed Hn1) in Hm, Hmi, Hj. rewrite (Set_of_fixed Hn2) in Hm, Hmi, Hr.
  rewrite Hm, Hmi, Hj, Hr, Hl1, Hl2.
  split; [reflexivity|]. split; [reflexivity|].
  split; [rewrite <- Hl1; apply filter_lengths|].
  split; [|split; [|split]].
  - intros k Hk. apply filter_In in Hk as [Hk1 Hk2]. apply has_In in Hk2. auto.
  - intros k Hk. apply filter_In in Hk as [Hk1 _]. auto.
  - intros Hd k Hk Hin. apply filter_In in Hk as [_ Hk].
    apply negb_true_iff, has_not_In in Hk. apply Hk.
    apply (extractTopKeywords_all resumeTokens 400 Hd). exact Hin.
  - apply generateFeedback_length.
Qed.

(** ** Documents without tokens *)

Lemma matchKeywords_nil_left
  (F : Type) (num : Number F) (resumeKeywords : list jsstring) :
  matchKeywords (num := num) [] resumeKeywords
  = {| matched := []; missing := []; jdCount := 0;
       resumeCount := length (Set_of resumeKeywords); overlapPct := of_nat 0 |}.
Proof. reflexivity. Qed.

(** X16.  A job description without tokens (punctuation, single
    characters or numbers only) is scored 0 against every resume: on
    binary64 the similarity, the overlap and the score are 0, no skill is
    matched or missing, and the feedback is the low-fit message, the
    message that no keyword is missing, and the tailoring advice. *)
Theorem pipeline_no_jd_tokens
  (toLowerCase : jsstring -> jsstring) (jd resume : jsstring) :
  tokenize toLowerCase (VString jd) (Some 2) = Ok [] ->
  exists r : response float,
    pipeline toLowerCase (VString jd) (VString resume) = Ok r
    /\ semantic_similarity r = 0%float
    /\ overlap_pct r = 0%float
    /\ match_score r = 0%float
    /\ skills_matched r = [] /\ missing_skills r = []
    /\ jd_skill_count r = 0
    /\ feedback r = [Messages.low_fit; Messages.no_gaps; Messages.tailoring].
Proof.
  intros H1.
  destruct (tokenize_string toLowerCase resume (Some 2)) as (y2 & _ & _ & H2).
  eexists. split; [unfold pipeline; rewrite H1, H2; reflexivity|].
  cbn [semantic_similarity overlap_pct match_score skills_matched missing_skills
         jd_skill_count feedback].
  change (extractTopKeywords [] 200) with (@nil jsstring).
  change (buildFrequency []) with (@nil (jsstring * nat)).
  rewrite matchKeywords_nil_left.
  cbn [matched missing jdCount overlapPct].
  destruct (cosineSimilarity_zero_norm [] (buildFrequency
              (filter (keep_token 2) (filter nonempty (split_ws y2)))))
    as [-> _].
  split; [reflexivity|]. split; [reflexivity|].
  split; [vm_compute; reflexivity|].
  split; [reflexivity|]. split; [reflexivity|]. split; [reflexivity|].
  vm_compute. reflexivity.
Qed.

Lemma pipeline_no_jd_tokens_witness :
  exists r : response float,
    pipeline toLowerCase_ascii (VString (utf16 "?! 42 a")) (VString (utf16 "Python developer"))
    = Ok r
    /\ semantic_similarity r = 0%float
    /\ overlap_pct r = 0%float
    /\ match_score r = 0%float
    /\ skills_matched r = [] /\ missing_skills r = []
    /\ jd_skill_count r = 0
    /\ feedback r = [Messages.low_fit; Messages.no_gaps; Messages.tailoring].
Proof.
  apply (pipeline_no_jd_tokens toLowerCase_ascii (utf16 "?! 42 a")
           (utf16 "Python developer")).
  vm_compute. reflexivity.
Defined.

Lemma binary64_zero_ratio_check :
  forallb
    (fun j =>
       match Prim2SF (PrimFloat.mul (PrimFloat.div (of_nat 0) (of_nat j)) (of_nat 100)) with
       | S754_zero false => true
       | _ => false
       end)
    (seq 1 200) = true.
Proof. vm_compute. reflexivity. Qed.

(** [0 / j * 100] is 0 on binary64 for every count the pipeline can reach. *)
Lemma binary64_zero_ratio (j : nat) :
  1 <= j <= 200 ->
  mul (div (of_nat 0) (of_nat j)) (of_nat 100) = 0%float.
Proof.
  intros Hj. pose proof binary64_zero_ratio_check as H.
  rewrite forallb_forall in H. specialize (H j).
  assert (Hin : In j (seq 1 200)) by (apply in_seq; lia).
  apply H in Hin. cbn [mul div binary64].
  apply Prim2SF_inj.
  destruct (Prim2SF (PrimFloat.mul (PrimFloat.div (of_nat 0) (of_nat j)) (of_nat 100)))
    as [[|]| | |]; try discriminate.
  reflexivity.
Qed.

Lemma matchKeywords_nil_right
  (F : Type) (num : Number F) (jdKeywords : list jsstring) :
  let r := matchKeywords (num := num) jdKeywords [] in
  matched r = [] /\ missing r = Set_of jdKeywords
  /\ resumeCount r = 0
  /\ overlapPct r
     = if length (Set_of jdKeywords) =? 0 then of_nat 0
       else mul (div (of_nat 0) (of_nat (length (Set_of jdKeywords)))) (of_nat 100).
Proof.
  destruct (matchKeywords_fields (num := num) jdKeywords []) as (Hm & Hmi & _ & Hr & Ho).
  cbv zeta in *.
  assert (Hm' : matched (matchKeywords (num := num) jdKeywords []) = []).
  { rewrite Hm. apply filter_none. reflexivity. }
  split; [exact Hm'|]. split; [|split].
  - rewrite Hmi. apply filter_all. reflexivity.
  - rewrite Hr. reflexivity.
  - rewrite Ho, Hm'. reflexivity.
Qed.

(** X17.  A resume without tokens is scored 0 against every job
    description: on binary64 the similarity, the overlap and the score are
    0, every JD keyword is missing, and the feedback opens with the low-fit
    message and closes with the tailoring advice. *)
Theorem pipeline_no_resume_tokens
  (toLowerCase : jsstring -> jsstring) (jd resume : jsstring) :
  tokenize toLowerCase (VString resume) (Some 2) = Ok [] ->
  exists (jdTokens : list jsstring) (r : response float) (gaps : jsstring),
    tokenize toLowerCase (VString jd) (Some 2) = Ok jdTokens
    /\ pipeline toLowerCase (VString jd) (VString resume) = Ok r
    /\ semantic_similarity r = 0%float
    /\ overlap_pct r = 0%float
    /\ match_score r = 0%float
    /\ skills_matched r = []
    /\ missing_skills r = extractTopKeywords jdTokens 200
    /\ resume_skill_count r = 0
    /\ feedback r = [Messages.low_fit; gaps; Messages.tailoring].
Proof.
  intros H2.
  destruct (tokenize_string toLowerCase jd (Some 2)) as (y1 & _ & _ & H1).
  set (jdTokens := filter _ _) in H1.
  destruct (matchKeywords_nil_right float binary64 (extractTopKeywords jdTokens 200))
    as (Hm & Hmi & Hr & Ho).
  cbv zeta in Hm, Hmi, Hr, Ho.
  destruct (extractTopKeywords_basic jdTokens 200) as (Hlen & Hnd & _).
  rewrite (Set_of_fixed Hnd) in Hmi, Ho.
  assert (Ho' : overlapPct (matchKeywords (num := binary64)
                              (extractTopKeywords jdTokens 200) []) = 0%float).
  { rewrite Ho. destruct (length (extractTopKeywords jdTokens 200) =? 0) eqn:E;
      [reflexivity|].
    apply Nat.eqb_neq in E. apply binary64_zero_ratio. lia. }
  destruct (cosineSimilarity_zero_norm (buildFrequency jdTokens) [])
    as [_ Hc].
  assert (Hs : matchScore (num := binary64) 0%float 0%float = 0%float)
    by (vm_compute; reflexivity).
  destruct (generateFeedback_cases 0%float 0%float (extractTopKeywords jdTokens 200))
    as (tier & gaps & advice & Hf & _ & _ & _ & Hlow & _ & _ & _ & Hadv & _).
  rewrite (Hlow eq_refl), (Hadv eq_refl) in Hf.
  exists jdTokens. eexists. exists gaps.
  split; [exact H1|].
  split; [unfold pipeline; rewrite H1, H2; reflexivity|].
  cbn [semantic_similarity overlap_pct match_score skills_matched missing_skills
         resume_skill_count feedback].
  change (extractTopKeywords [] 400) with (@nil jsstring).
  change (buildFrequency []) with (@nil (jsstring * nat)).
  rewrite Ho', Hm, Hmi, Hr.
  rewrite Hc, Hs.
  repeat (split; [reflexivity|]). exact Hf.
Qed.

Lemma pipeline_no_resume_tokens_witness :
  exists (jdTokens : list jsstring) (r : response float) (gaps : jsstring),
    tokenize toLowerCase_ascii (VString (utf16 "Python developer")) (Some 2) = Ok jdTokens
    /\ pipeline toLowerCase_ascii (VString (utf16 "Python developer")) (VString (utf16 "n/a"))
       = Ok r
    /\ semantic_similarity r = 0%float
    /\ overlap_pct r = 0%float
    /\ match_score r = 0%float
    /\ skills_matched r = []
    /\ missing_skills r = extractTopKeywords jdTokens 200
    /\ resume_skill_count r = 0
    /\ feedback r = [Messages.low_fit; gaps; Messages.tailoring].
Proof.
  apply (pipeline_no_resume_tokens toLowerCase_ascii (utf16 "Python developer")
           (utf16 "n/a")).
  vm_compute. reflexivity.
Defined.

(** ** The length threshold *)

Lemma keep_token_minLen (m m' : nat) (t : jsstring) :
  m <= m' -> keep_token m' t = (m' <=? length t) && keep_token m t.
Proof.
  intros H. unfold keep_token.
  destruct (length t <? m') eqn:E1.
  - apply Nat.ltb_lt in E1.
    replace (m' <=? length t) with false by (symmetry; apply Nat.leb_gt; exact E1).
    reflexivity.
  - apply Nat.ltb_ge in E1.
    replace (m' <=? length t) with true by (symmetry; apply Nat.leb_le; exact E1).
    replace (length t <? m) with false by (symmetry; apply Nat.ltb_ge; lia).
    reflexivity.
Qed.

Lemma filter_filter_and (A : Type) (p q : A -> bool) (l : list A) :
  filter p (filter q l) = filter (fun a => p a && q a) l.
Proof.
  induction l as [|a l IH]; simpl; [reflexivity|].
  destruct (q a); simpl; rewrite ?andb_true_r, ?andb_false_r.
  - destruct (p a); rewrite IH; reflexivity.
  - exact IH.
Qed.

(** X18.  Raising [minLen] only removes tokens: the tokens at a larger
    threshold are the tokens at a smaller one that are long enough, in the
    same order; and without the option the threshold is 2. *)
Theorem tokenize_minLen
  (toLowerCase : jsstring -> jsstring) (s : jsstring) (m m' : nat)
  (tokens : list jsstring) :
  m <= m' ->
  tokenize toLowerCase (VString s) (Some m) = Ok tokens ->
  tokenize toLowerCase (VString s) (Some m')
  = Ok (filter (fun t => m' <=? length t) tokens)
  /\ tokenize toLowerCase (VString s) None = tokenize toLowerCase (VString s) (Some 2).
Proof.
  intros Hm Htok. split; [|reflexivity].
  destruct (tokenize_string toLowerCase s (Some m)) as (y & Hy & _ & H1).
  destruct (tokenize_string toLowerCase s (Some m')) as (y' & Hy' & _ & H2).
  rewrite Hy in Hy'. injection Hy' as <-.
  rewrite Htok in H1. injection H1 as ->. rewrite H2. f_equal.
  rewrite (filter_filter_and _ (fun t => m' <=? length t) (keep_token m)).
  apply filter_ext. intros t. apply keep_token_minLen. exact Hm.
Qed.

Lemma tokenize_minLen_witness :
  tokenize toLowerCase_ascii (VString (utf16 "Go and SQL on AWS")) (Some 3)
  = Ok (filter (fun t => 3 <=? length t) [utf16 "go"; utf16 "and"; utf16 "sql"; utf16 "on"; utf16 "aws"])
  /\ tokenize toLowerCase_ascii (VString (utf16 "Go and SQL on AWS")) None
     = tokenize toLowerCase_ascii (VString (utf16 "Go and SQL on AWS")) (Some 2).
Proof.
  apply (tokenize_minLen toLowerCase_ascii (utf16 "Go and SQL on AWS") 2 3
           [utf16 "go"; utf16 "and"; utf16 "sql"; utf16 "on"; utf16 "aws"]).
  - lia.
  - vm_compute. reflexivity.
Defined.

(** ** The normaliser, character by character *)

Lemma replace_all_charwise (l : jsstring) :
  replace_all (fun c => negb (is_kept c)) (utf16 " ")
    (replace_all is_curly_quote (utf16 "'") l)
  = map (fun c => if is_kept c then c else 32%N) l.
Proof.
  change (utf16 " ") with [32%N]. change (utf16 "'") with [39%N].
  unfold replace_all.
  induction l as [|c l IH]; [reflexivity|].
  cbn [flat_map map]. rewrite flat_map_app, IH.
  destruct (is_curly_quote c) eqn:E.
  - destruct (is_kept c) eqn:K;
      [apply kept_not_curly in K; congruence | reflexivity].
  - cbn [flat_map app]. destruct (is_kept c); reflexivity.
Qed.

(** X19.  On a non-empty string [normalizeText] works character by
    character: every code unit of the lower-cased text that is not kept
    becomes one space and the others stay, so the result is as long as the
    lower-cased text, and the replacement of curly quotes by an apostrophe
    has no effect on the result. *)
Theorem normalizeText_charwise
  (toLowerCase : jsstring -> jsstring) (s : jsstring) :
  s <> [] ->
  normalizeText toLowerCase (VString s)
  = Ok (map (fun c => if is_kept c then c else 32%N) (toLowerCase s))
  /\ normalizeText toLowerCase (VString s)
     = Ok (replace_all (fun c => negb (is_kept c)) (utf16 " ") (toLowerCase s))
  /\ (forall y, normalizeText toLowerCase (VString s) = Ok y ->
                length y = length (toLowerCase s)).
Proof.
  intros Hne. destruct s as [|c s]; [congruence|].
  assert (H : normalizeText toLowerCase (VString (c :: s))
              = Ok (map (fun c => if is_kept c then c else 32%N)
                      (toLowerCase (c :: s)))).
  { unfold normalizeText. cbn [truthy negb]. rewrite replace_all_charwise.
    reflexivity. }
  split; [exact H|]. split.
  - rewrite H. f_equal. symmetry. clear H.
    change (utf16 " ") with [32%N]. unfold replace_all.
    generalize (toLowerCase (c :: s)). intros l.
    induction l as [|a l IH]; [reflexivity|].
    cbn [flat_map map]. rewrite IH. destruct (is_kept a); reflexivity.
  - intros y Hy. rewrite H in Hy. injection Hy as <-. apply length_map.
Qed.

Lemma normalizeText_charwise_witness :
  normalizeText toLowerCase_ascii (VString (utf16 "C#, Node.js & “Go”"))
  = Ok (map (fun c => if is_kept c then c else 32%N)
          (toLowerCase_ascii (utf16 "C#, Node.js & “Go”")))
  /\ normalizeText toLowerCase_ascii (VString (utf16 "C#, Node.js & “Go”"))
     = Ok (replace_all (fun c => negb (is_kept c)) (utf16 " ")
             (toLowerCase_ascii (utf16 "C#, Node.js & “Go”")))
  /\ (forall y, normalizeText toLowerCase_ascii (VString (utf16 "C#, Node.js & “Go”")) = Ok y ->
                length y = length (toLowerCase_ascii (utf16 "C#, Node.js & “Go”"))).
Proof.
  apply (normalizeText_charwise toLowerCase_ascii (utf16 "C#, Node.js & “Go”")).
  vm_compute. discriminate.
Defined.

(** ** The error log *)

(** X20.  The handler writes to the error log exactly when it answers
    500, that is on a POST whose two fields are truthy but not both
    strings; it then logs one entry, the TypeError whose message the
    response carries as [details].  The response is the one of
    [matchJDandResume]. *)
Theorem matchJDandResume_logged_spec
  (F : Type) (num : Number F) (toLowerCase : jsstring -> jsstring) (req : request) :
  let log := fst (matchJDandResume_logged (num := num) toLowerCase req) in
  let r := snd (matchJDandResume_logged (num := num) toLowerCase req) in
  r = matchJDandResume (num := num) toLowerCase req
  /\ (log = [] <-> status r <> 500)
  /\ (status r = 500 <->
      method req = utf16 "POST"
      /\ exists b, body req = Some b
                   /\ truthy (jd_text b) = true /\ truthy (resume_text b) = true
                   /\ forall jd resume,
                        ~ (jd_text b = VString jd /\ resume_text b = VString resume))
  /\ (status r = 500 ->
      log = [(utf16 "Error in matchJDandResume:",
              TypeError (utf16 "text.toLowerCase is not a function"))]
      /\ json r = ErrorBody (utf16 "Internal error computing match.")
                    (Some (utf16 "text.toLowerCase is not a function"))).
Proof.
  cbv zeta. unfold matchJDandResume_logged, matchJDandResume, cors.
  destruct (is_preflight req) eqn:Epre.
  { cbn [fst snd status no_content]. split; [reflexivity|].
    split; [split; [discriminate | reflexivity]|].
    split; [|discriminate].
    split; [discriminate|]. intros [Hm _]. exfalso.
    exact (preflight_not_POST req Epre Hm). }
  unfold onRequest_logged, onRequest.
  destruct (str_eqb (method req) (utf16 "POST")) eqn:Em; cbn [negb].
  2: { cbn [fst snd status]. split; [reflexivity|].
       split; [split; [discriminate | reflexivity]|].
       split; [|discriminate].
       split; [discriminate|]. intros [Hm _]. apply str_eqb_neq in Em. contradiction. }
  apply str_eqb_eq in Em.
  destruct (body req) as [b|];
    [destruct (truthy (jd_text b)) eqn:T1; [destruct (truthy (resume_text b)) eqn:T2|]|];
    cbn [negb orb truthy jd_text resume_text fst snd status].
  2,3,4: (split; [reflexivity|];
          split; [split; [discriminate | reflexivity]|];
          split; [|discriminate];
          split; [discriminate|];
          intros (_ & b' & Hb & T1' & T2' & _); try discriminate;
          injection Hb as <-; congruence).
  destruct (truthy_non_string_throws toLowerCase (jd_text b) (Some 2) T1) as [(jd & E1)|E1];
    [destruct (truthy_non_string_throws toLowerCase (resume_text b) (Some 2) T2)
       as [(resume & E2)|E2]|].
  - rewrite E1, E2.
    destruct (pipeline_strings F num toLowerCase jd resume) as (resp & ->).
    cbn [fst snd status]. split; [reflexivity|].
    split; [split; [discriminate | reflexivity]|].
    split; [|discriminate].
    split; [discriminate|].
    intros (_ & b' & Hb & _ & _ & Hns). injection Hb as <-.
    exfalso. apply (Hns jd resume). split; assumption.
  - assert (Hns : forall jd resume,
               ~ (jd_text b = VString jd /\ resume_text b = VString resume)).
    { intros x1 x2 [_ H]. unfold tokenize, normalizeText in E2.
      rewrite T2, H in E2. discriminate. }
    rewrite (pipeline_throws F num toLowerCase _ _ T1 T2 Hns).
    cbn [fst snd status json]. split; [reflexivity|].
    split; [split; [discriminate | intros H; exfalso; apply H; reflexivity]|].
    split; [|intros _; split; reflexivity].
    split; [|reflexivity]. intros _. split; [exact Em|].
    exists b. auto.
  - assert (Hns : forall jd resume,
               ~ (jd_text b = VString jd /\ resume_text b = VString resume)).
    { intros x1 x2 [H _]. unfold tokenize, normalizeText in E1.
      rewrite T1, H in E1. discriminate. }
    rewrite (pipeline_throws F num toLowerCase _ _ T1 T2 Hns).
    cbn [fst snd status json]. split; [reflexivity|].
    split; [split; [discriminate | intros H; exfalso; apply H; reflexivity]|].
    split; [|intros _; split; reflexivity].
    split; [|reflexivity]. intros _. split; [exact Em|].
    exists b. auto.
Qed.

(** ** Tokenizing a concatenation *)

Lemma split_ws_acc_after_space (y : jsstring) :
  filter nonempty (split_ws_acc true [] y) = filter nonempty (split_ws_acc false [] y).
Proof.
  destruct y as [|c y]; [reflexivity|].
  cbn [split_ws_acc]. destruct (is_space c); reflexivity.
Qed.

Lemma split_ws_acc_app (x y : jsstring) :
  forall in_run cur,
    (in_run = true -> cur = []) ->
    filter nonempty (split_ws_acc in_run cur (x ++ 32%N :: y))
    = filter nonempty (split_ws_acc in_run cur x) ++ filter nonempty (split_ws y).
Proof.
  unfold split_ws.
  induction x as [|c x IH]; intros in_run cur Hcur.
  - cbn [app split_ws_acc]. change (is_space 32%N) with true. cbn iota.
    destruct in_run.
    + rewrite (Hcur eq_refl). cbn [rev filter nonempty app].
      apply split_ws_acc_after_space.
    + cbn [filter]. destruct (nonempty (rev cur)); cbn [app];
        rewrite split_ws_acc_after_space; reflexivity.
  - cbn [app split_ws_acc]. destruct (is_space c).
    + destruct in_run.
      * apply IH. reflexivity.
      * cbn [filter]. rewrite (IH true []) by reflexivity.
        destruct (nonempty (rev cur)); reflexivity.
    + apply IH. discriminate.
Qed.

(** X21.  Tokenizing is local on ASCII text.  The built-in
    [toLowerCase] maps A-Z to a-z on ASCII text and changes nothing else
    there; for every lower-casing that does so, the tokens of two ASCII
    strings joined by a space are the tokens of the first followed by the
    tokens of the second. *)
Theorem tokenize_concat
  (toLowerCase : jsstring -> jsstring) (x y : jsstring) (opts : option nat)
  (tokensX tokensY : list jsstring) :
  (forall s, Forall (fun c => (c < 128)%N) s -> toLowerCase s = toLowerCase_ascii s) ->
  Forall (fun c => (c < 128)%N) x -> Forall (fun c => (c < 128)%N) y ->
  tokenize toLowerCase (VString x) opts = Ok tokensX ->
  tokenize toLowerCase (VString y) opts = Ok tokensY ->
  tokenize toLowerCase (VString (x ++ utf16 " " ++ y)) opts = Ok (tokensX ++ tokensY).
Proof.
  intros Hascii Hx Hy HX HY.
  assert (Hn : forall s, Forall (fun c => (c < 128)%N) s ->
                         normalizeText toLowerCase (VString s)
                         = Ok (map (fun c => if is_kept c then c else 32%N)
                                 (toLowerCase_ascii s))).
  { intros [|c s] Hs; [reflexivity|].
    unfold normalizeText. cbn [truthy negb]. rewrite replace_all_charwise.
    rewrite (Hascii _ Hs). reflexivity. }
  assert (Hxy : Forall (fun c => (c < 128)%N) (x ++ utf16 " " ++ y)).
  { apply Forall_app. split; [exact Hx|]. apply Forall_app. split; [|exact Hy].
    constructor; [reflexivity | constructor]. }
  unfold tokenize in *. rewrite (Hn _ Hx) in HX. rewrite (Hn _ Hy) in HY.
  rewrite (Hn _ Hxy). cbn [bind] in *.
  injection HX as <-. injection HY as <-. f_equal.
  unfold toLowerCase_ascii. rewrite !map_app.
  change (map (fun c => if is_kept c then c else 32%N)
            (map (fun c => if (65 <=? c)%N && (c <=? 90)%N then (c + 32)%N else c)
               (utf16 " ")))
    with [32%N].
  cbn [app]. unfold split_ws at 1.
  rewrite split_ws_acc_app by discriminate.
  rewrite filter_app. reflexivity.
Qed.

Lemma tokenize_concat_witness :
  tokenize toLowerCase_ascii
    (VString (utf16 "React, Node" ++ utf16 " " ++ utf16 "SQL + AWS")) (Some 2)
  = Ok ([utf16 "react"; utf16 "node"] ++ [utf16 "sql"; utf16 "aws"]).
Proof.
  apply (tokenize_concat toLowerCase_ascii (utf16 "React, Node") (utf16 "SQL + AWS")
           (Some 2) [utf16 "react"; utf16 "node"] [utf16 "sql"; utf16 "aws"]
           (fun s _ => eq_refl)).
  - repeat constructor.
  - repeat constructor.
  - vm_compute. reflexivity.
  - vm_compute. reflexivity.
Defined.
